(** * EZUI: the lexer, the parser, the compiler and ReactiveState

    A shallow embedding of [src/parser/lexer.js], [src/parser/parser.js],
    [src/parser/compiler.js] and [src/runtime/reactivity.js].

    Conventions.
    - A JavaScript string is a [string]; [content[i]] is [String.get i content],
      with [None] for [undefined].
    - Mutable objects ([this.position], [this.tokens], [this.data], ...) are
      records threaded explicitly through the functions that mutate them.
    - A [while] loop is [while_ fuel cond body]: [None] means that the loop
      has not finished within [fuel] iterations.  A call that yields [None]
      for every [fuel] does not return.
    - IEEE doubles are not modelled: the type [number] of the values that
      [parseFloat] yields is a parameter. *)

From Stdlib Require Import Ascii String ZArith Lia List Bool.
From stdpp Require Import base option list gmap strings.

Set Warnings "-register-all,-clear-no-such-hyp".

Local Open Scope string_scope.
Local Open Scope list_scope.
Local Open Scope nat_scope.

(** ** JavaScript string primitives *)

Module Js.

(** [s.substring(a, b)]: both indices are clamped to the length and swapped
    when [a > b]. *)
Definition substring (s : string) (a b : nat) : string :=
  let a' := Nat.min a (String.length s) in
  let b' := Nat.min b (String.length s) in
  String.substring (Nat.min a' b') (Nat.max a' b' - Nat.min a' b') s.

(** [s.slice(a, b)] for non-negative indices: empty when [a >= b]. *)
Definition slice (s : string) (a b : nat) : string :=
  let a' := Nat.min a (String.length s) in
  let b' := Nat.min b (String.length s) in
  if a' <? b' then String.substring a' (b' - a') s else "".

(** [s.startsWith(p)]. *)
Definition startsWith (s p : string) : bool := String.prefix p s.

(** [s.lastIndexOf(p)]: the greatest index at which [p] occurs, [-1] when
    there is none. *)
Fixpoint lastIndexOf_from (s p : string) (i : nat) (found : Z) : Z :=
  let found' := if String.prefix p s then Z.of_nat i else found in
  match s with
  | EmptyString => found'
  | String _ s' => lastIndexOf_from s' p (S i) found'
  end.

Definition lastIndexOf (s p : string) : Z := lastIndexOf_from s p 0 (-1).

(** [s.includes(c)] for a one-character needle. *)
Fixpoint includes_char (s : string) (c : ascii) : bool :=
  match s with
  | EmptyString => false
  | String a s' => if Ascii.eqb a c then true else includes_char s' c
  end.

(** [s.split(c)] for a one-character separator: never the empty list. *)
Fixpoint split (c : ascii) (s : string) : list string :=
  match s with
  | EmptyString => [EmptyString]
  | String a s' =>
      if Ascii.eqb a c then EmptyString :: split c s'
      else match split c s' with
           | h :: t => String a h :: t
           | [] => [String a EmptyString]
           end
  end.

(** The white space that [trim] removes, among the code points below 256:
    tab, line feed, vertical tab, form feed, carriage return, space and the
    no-break space. *)
Definition isTrimSpace (c : ascii) : bool :=
  let n := nat_of_ascii c in
  ((9 <=? n) && (n <=? 13)) || (n =? 32) || (n =? 160).

Fixpoint trimStart (s : string) : string :=
  match s with
  | EmptyString => EmptyString
  | String a s' => if isTrimSpace a then trimStart s' else s
  end.

Fixpoint trimEnd (s : string) : string :=
  match s with
  | EmptyString => EmptyString
  | String a s' =>
      match trimEnd s' with
      | EmptyString => if isTrimSpace a then EmptyString else String a EmptyString
      | t => String a t
      end
  end.

Definition trim (s : string) : string := trimEnd (trimStart s).

(** [o[key] = v] on a plain object, given as the list of its properties:
    an existing property keeps its place.  (Keys that are array indices,
    which JavaScript lists first, are not told apart.) *)
Fixpoint obj_set {A : Type} (o : list (string * A)) (key : string) (v : A)
  : list (string * A) :=
  match o with
  | [] => [(key, v)]
  | (k, x) :: o' =>
      if String.eqb k key then (k, v) :: o' else (k, x) :: obj_set o' key v
  end.

(** [s.replace(pat, rep)] for a non-empty string pattern: the first
    occurrence is replaced. *)
Fixpoint replace_first (pat rep s : string) : string :=
  if String.prefix pat s
  then rep +:+ String.substring (String.length pat) (String.length s) s
  else match s with
       | EmptyString => EmptyString
       | String a s' => String a (replace_first pat rep s')
       end.

(** The longest prefix of [s] whose characters satisfy [p], and the rest. *)
Fixpoint span (p : ascii → bool) (s : string) : string * string :=
  match s with
  | EmptyString => (EmptyString, EmptyString)
  | String a s' =>
      if p a then let r := span p s' in (String a r.1, r.2) else (EmptyString, s)
  end.

(** [\w]. *)
Definition isWord (c : ascii) : bool :=
  let n := nat_of_ascii c in
  ((97 <=? n) && (n <=? 122)) || ((65 <=? n) && (n <=? 90))
  || ((48 <=? n) && (n <=? 57)) || (n =? 95).

End Js.

(** ** Loops *)

(** [while (cond) body], at most [fuel] evaluations of the condition. *)
Fixpoint while_ {St : Type} (fuel : nat) (cond : St → bool)
  (body : St → option St) (s : St) : option St :=
  match fuel with
  | O => None
  | S n =>
      if cond s then
        match body s with
        | Some s' => while_ n cond body s'
        | None => None
        end
      else Some s
  end.

(** ** The lexer ([src/parser/lexer.js]) *)

Module Lexer.

Inductive token_type :=
| EOF | COMPONENT | HTML_TAG
| STYLE_BLOCK | STATE_BLOCK | TEMPLATE_BLOCK | PROPS_BLOCK
| LEFT_BRACE | RIGHT_BRACE | LEFT_PAREN | RIGHT_PAREN
| STRING | INTERPOLATION | IDENTIFIER | NUMBER
| INCREMENT | DECREMENT | EQUAL | NOT_EQUAL
| PLUS | MINUS | MULTIPLY | DIVIDE | ASSIGN | COLON | SEMICOLON | COMMA
| DOT | NOT | AND | OR | TEXT.

#[global] Instance token_type_eq_dec : EqDecision token_type.
Proof. solve_decision. Defined.

(** The characters the lexer names. *)
Definition NUL : ascii := "000"%char.
Definition TAB : ascii := "009"%char.
Definition LF : ascii := "010"%char.
Definition CR : ascii := "013"%char.
Definition DQUOTE : ascii := "034"%char.
Definition SQUOTE : ascii := "039"%char.
Definition BACKSLASH : ascii := "092"%char.

Definition str1 (c : ascii) : string := String c EmptyString.

Section WithNumber.

Context {number : Type} (parseFloat : string → number).

(** A token's [value] is a string, or the number [parseFloat] returned. *)
Inductive token_value :=
| TVString (s : string)
| TVNumber (n : number).

Record token := Token {
  type : token_type;
  value : token_value;
  line : nat
}.

(** The lexer object: [this.content], [this.position], [this.tokens]. *)
Record lexer := MkLexer {
  content : string;
  position : nat;
  tokens : list token
}.

Definition set_position (st : lexer) (p : nat) : lexer :=
  MkLexer (content st) p (tokens st).

Definition isAtEnd (st : lexer) : bool :=
  String.length (content st) <=? position st.

Definition getCurrentChar (st : lexer) : ascii :=
  if isAtEnd st then NUL
  else default NUL (String.get (position st) (content st)).

Definition peek (st : lexer) : ascii :=
  let pos := position st + 1 in
  if String.length (content st) <=? pos then NUL
  else default NUL (String.get pos (content st)).

Definition advance (st : lexer) : lexer :=
  if isAtEnd st then st else set_position st (S (position st)).

Definition isWhitespace (c : ascii) : bool :=
  Ascii.eqb c " " || Ascii.eqb c TAB || Ascii.eqb c LF || Ascii.eqb c CR.

(** [/[a-zA-Z_]/.test(char)] on a one-character string. *)
Definition isAlpha (c : ascii) : bool :=
  let n := nat_of_ascii c in
  ((97 <=? n) && (n <=? 122)) || ((65 <=? n) && (n <=? 90)) || (n =? 95).

Definition isDigit (c : ascii) : bool :=
  let n := nat_of_ascii c in (48 <=? n) && (n <=? 57).

Definition isAlphaNumeric (c : ascii) : bool := isAlpha c || isDigit c.

(** [isAlphaNumeric(this.content[end])]: past the end the argument is
    [undefined], which [RegExp.prototype.test] reads as the text
    "undefined"; that text contains letters, so the test succeeds. *)
Definition isAlphaNumeric_at (o : option ascii) : bool :=
  match o with
  | Some c => isAlphaNumeric c
  | None => true
  end.

Fixpoint count_newlines (n : nat) (s : string) : nat :=
  match n, s with
  | S n', String a s' => (if Ascii.eqb a LF then 1 else 0) + count_newlines n' s'
  | _, _ => 0
  end.

Definition getCurrentLine (st : lexer) : nat :=
  1 + count_newlines (position st) (content st).

Definition push (st : lexer) (ty : token_type) (v : token_value) : lexer :=
  MkLexer (content st) (position st)
    (tokens st ++ [Token ty v (getCurrentLine st)]).

(** [addToken(type, value = null)]: with no value the current character is
    the value and the cursor moves past it; with a value the cursor stays. *)
Definition addToken (st : lexer) (ty : token_type) (v : option token_value) : lexer :=
  match v with
  | None =>
      let c := getCurrentChar st in
      push (advance st) ty (TVString (str1 c))
  | Some v => push st ty v
  end.

Definition matchKeyword (st : lexer) (keyword : string) : bool :=
  let start := position st in
  let end_ := start + String.length keyword in
  if String.length (content st) <? end_ then false
  else
    let substr := Js.substring (content st) start end_ in
    let nextChar := String.get end_ (content st) in
    String.eqb substr keyword && negb (isAlphaNumeric_at nextChar).

Definition isInTemplate (st : lexer) : bool :=
  let beforePosition := Js.substring (content st) 0 (position st) in
  let lastTemplateStart := Js.lastIndexOf beforePosition "template {" in
  let lastTemplateEnd := Js.lastIndexOf beforePosition "}" in
  (lastTemplateEnd <? lastTemplateStart)%Z.

Definition adv (st : lexer) : option lexer := Some (advance st).

Definition skipLineComment (fuel : nat) (st : lexer) : option lexer :=
  while_ fuel
    (fun st => negb (Ascii.eqb (getCurrentChar st) LF) && negb (isAtEnd st))
    adv st.

(** The loop of [skipBlockComment] leaves through [break]: the flag of the
    loop state records it. *)
Definition skipBlockComment (fuel : nat) (st : lexer) : option lexer :=
  let st := advance (advance st) in
  fst <$> while_ fuel
    (fun '(st, broke) => negb broke && negb (isAtEnd st))
    (fun '(st, _) =>
       if Ascii.eqb (getCurrentChar st) "*" && Ascii.eqb (peek st) "/"
       then Some (advance (advance st), true)
       else Some (advance st, false))
    (st, false).

Definition scanComponentDeclaration (fuel : nat) (st : lexer) : option lexer :=
  let st := advance st in
  st ← while_ fuel
    (fun st => negb (Ascii.eqb (getCurrentChar st) " ")
               && negb (Ascii.eqb (getCurrentChar st) ">"))
    adv st;
  st ← while_ fuel (fun st => Ascii.eqb (getCurrentChar st) " ") adv st;
  let start := position st in
  st ← while_ fuel
    (fun st => negb (Ascii.eqb (getCurrentChar st) ">")
               && negb (Ascii.eqb (getCurrentChar st) NUL)
               && negb (Ascii.eqb (getCurrentChar st) " "))
    adv st;
  let componentName := Js.substring (content st) start (position st) in
  st ← while_ fuel
    (fun st => negb (Ascii.eqb (getCurrentChar st) ">")
               && negb (Ascii.eqb (getCurrentChar st) NUL))
    adv st;
  let st := if Ascii.eqb (getCurrentChar st) ">" then advance st else st in
  Some (addToken st COMPONENT (Some (TVString componentName))).

(** The loop state of the open-tag branch carries the locals [inAttribute]
    and [quoteChar] ([None] for [null]). *)
Definition scanHtmlTag (fuel : nat) (st : lexer) : option lexer :=
  let start := position st in
  let st := advance st in
  if Ascii.eqb (getCurrentChar st) "/" then
    let st := advance st in
    st ← while_ fuel
      (fun st => negb (Ascii.eqb (getCurrentChar st) ">") && negb (isAtEnd st))
      adv st;
    let st := if Ascii.eqb (getCurrentChar st) ">" then advance st else st in
    let tagContent := Js.substring (content st) start (position st) in
    Some (addToken st HTML_TAG (Some (TVString tagContent)))
  else
    r ← while_ fuel
      (fun '(st, _, _) =>
         negb (Ascii.eqb (getCurrentChar st) ">") && negb (isAtEnd st))
      (fun '(st, inAttribute, quoteChar) =>
         let char := getCurrentChar st in
         let '(inAttribute, quoteChar) :=
           if negb inAttribute && (Ascii.eqb char DQUOTE || Ascii.eqb char SQUOTE)
           then (true, Some char)
           else if inAttribute && bool_decide (Some char = quoteChar)
           then (false, None)
           else (inAttribute, quoteChar) in
         Some (advance st, inAttribute, quoteChar))
      (st, false, None);
    let st := r.1.1 in
    let st := if Ascii.eqb (getCurrentChar st) ">" then advance st else st in
    let tagContent := Js.substring (content st) start (position st) in
    Some (addToken st HTML_TAG (Some (TVString tagContent))).

Definition scanString (fuel : nat) (st : lexer) : option lexer :=
  let quote := getCurrentChar st in
  let st := advance st in
  let start := position st in
  st ← while_ fuel
    (fun st => negb (Ascii.eqb (getCurrentChar st) quote) && negb (isAtEnd st))
    (fun st =>
       let st := if Ascii.eqb (getCurrentChar st) BACKSLASH then advance st else st in
       Some (advance st))
    st;
  let value := Js.substring (content st) start (position st) in
  let st := advance st in
  Some (addToken st STRING (Some (TVString value))).

Definition scanInterpolation (fuel : nat) (st : lexer) : option lexer :=
  let st := advance st in
  let start := position st in
  r ← while_ fuel
    (fun '(st, braceCount) => (0 <? braceCount)%Z && negb (isAtEnd st))
    (fun '(st, braceCount) =>
       let braceCount :=
         if Ascii.eqb (getCurrentChar st) "{" then (braceCount + 1)%Z
         else if Ascii.eqb (getCurrentChar st) "}" then (braceCount - 1)%Z
         else braceCount in
       Some (if (0 <? braceCount)%Z then advance st else st, braceCount))
    (st, 1%Z);
  let st := r.1 in
  let expression := Js.substring (content st) start (position st) in
  let st := addToken st INTERPOLATION (Some (TVString expression)) in
  Some (if Ascii.eqb (getCurrentChar st) "}" then advance st else st).

Definition scanIdentifier (fuel : nat) (st : lexer) : option lexer :=
  let start := position st in
  st ← while_ fuel
    (fun st => isAlphaNumeric (getCurrentChar st)
               || Ascii.eqb (getCurrentChar st) "-"
               || Ascii.eqb (getCurrentChar st) "_")
    adv st;
  let value := Js.substring (content st) start (position st) in
  Some (addToken st IDENTIFIER (Some (TVString value))).

Definition scanNumber (fuel : nat) (st : lexer) : option lexer :=
  let start := position st in
  st ← while_ fuel (fun st => isDigit (getCurrentChar st)) adv st;
  st ← (if Ascii.eqb (getCurrentChar st) "." && isDigit (peek st) then
          while_ fuel (fun st => isDigit (getCurrentChar st)) adv (advance st)
        else Some st);
  let value := Js.substring (content st) start (position st) in
  Some (addToken st NUMBER (Some (TVNumber (parseFloat value)))).

(** The table [operators] of [scanOperator]. *)
Definition operators (c : ascii) : option token_type :=
  if Ascii.eqb c "+" then Some PLUS
  else if Ascii.eqb c "-" then Some MINUS
  else if Ascii.eqb c "*" then Some MULTIPLY
  else if Ascii.eqb c "/" then Some DIVIDE
  else if Ascii.eqb c "=" then Some ASSIGN
  else if Ascii.eqb c ":" then Some COLON
  else if Ascii.eqb c ";" then Some SEMICOLON
  else if Ascii.eqb c "," then Some COMMA
  else if Ascii.eqb c "." then Some DOT
  else if Ascii.eqb c "!" then Some NOT
  else if Ascii.eqb c "&" then Some AND
  else if Ascii.eqb c "|" then Some OR
  else None.

Definition scanOperator (st : lexer) : lexer :=
  let char := getCurrentChar st in
  if Ascii.eqb char "+" && Ascii.eqb (peek st) "+" then
    addToken (advance (advance st)) INCREMENT None
  else if Ascii.eqb char "-" && Ascii.eqb (peek st) "-" then
    addToken (advance (advance st)) DECREMENT None
  else if Ascii.eqb char "=" && Ascii.eqb (peek st) "=" then
    addToken (advance (advance st)) EQUAL None
  else if Ascii.eqb char "!" && Ascii.eqb (peek st) "=" then
    addToken (advance (advance st)) NOT_EQUAL None
  else
    match operators char with
    | Some ty => addToken st ty None
    | None => addToken st TEXT (Some (TVString (str1 char)))
    end.

Definition scanToken (fuel : nat) (st : lexer) : option lexer :=
  let char := getCurrentChar st in
  if isWhitespace char then Some (advance st)
  else if Ascii.eqb char "/" && Ascii.eqb (peek st) "/" then skipLineComment fuel st
  else if Ascii.eqb char "/" && Ascii.eqb (peek st) "*" then skipBlockComment fuel st
  else if Ascii.eqb char "<" then
    let nextChars := Js.slice (content st) (position st + 1) (position st + 10) in
    if Js.startsWith nextChars "component" then scanComponentDeclaration fuel st
    else scanHtmlTag fuel st
  else if matchKeyword st "style" then Some (addToken st STYLE_BLOCK None)
  else if matchKeyword st "state" then Some (addToken st STATE_BLOCK None)
  else if matchKeyword st "template" then Some (addToken st TEMPLATE_BLOCK None)
  else if matchKeyword st "props" then Some (addToken st PROPS_BLOCK None)
  else if Ascii.eqb char "{" then Some (addToken st LEFT_BRACE None)
  else if Ascii.eqb char "}" then Some (addToken st RIGHT_BRACE None)
  else if Ascii.eqb char "(" then Some (addToken st LEFT_PAREN None)
  else if Ascii.eqb char ")" then Some (addToken st RIGHT_PAREN None)
  else if Ascii.eqb char DQUOTE || Ascii.eqb char SQUOTE then scanString fuel st
  else if Ascii.eqb char "{" && isInTemplate st then scanInterpolation fuel st
  else if isAlpha char then scanIdentifier fuel st
  else if isDigit char then scanNumber fuel st
  else Some (scanOperator st).

(** [tokenize(content)]: [None] when some loop needs more than [fuel]
    iterations. *)
Definition tokenize (fuel : nat) (text : string) : option (list token) :=
  st ← while_ fuel
    (fun st => position st <? String.length (content st))
    (scanToken fuel)
    (MkLexer text 0 []);
  Some (tokens (push st EOF (TVString ""))).

(** A token stream without INTERPOLATION tokens. *)
Definition no_interpolation (toks : list token) : Prop :=
  Forall (fun t => type t ≠ INTERPOLATION) toks.


(** *** The vocabulary of the properties of the token stream *)

(** The token types of the four block keywords, and their keywords. *)
Definition is_block (ty : token_type) : bool :=
  match ty with
  | STYLE_BLOCK | STATE_BLOCK | TEMPLATE_BLOCK | PROPS_BLOCK => true
  | _ => false
  end.

Definition keyword_of (ty : token_type) : string :=
  match ty with
  | STYLE_BLOCK => "style"
  | STATE_BLOCK => "state"
  | TEMPLATE_BLOCK => "template"
  | PROPS_BLOCK => "props"
  | _ => ""
  end.

(** From [st] to [st'] the text is the same, the cursor has not moved back
    and no token has been added. *)
Definition skipped (st st' : lexer) : Prop :=
  content st' = content st ∧ position st ≤ position st'
  ∧ tokens st' = tokens st.

(** From [st] to [st'] the text is the same, the cursor has not moved back
    and one token of type [ty] has been added, with the line of the cursor
    of [st']. *)
Definition emitted (st st' : lexer) (ty : token_type) : Prop :=
  content st' = content st ∧ position st ≤ position st'
  ∧ ∃ v, tokens st' = tokens st ++ [Token ty v (getCurrentLine st')].

(** What is known of the branch of [scanToken] that added a token of type
    [ty]: none adds EOF or INTERPOLATION, and a block token comes from
    [addToken(type)] where its keyword matches. *)
Definition branch_of (st st' : lexer) (ty : token_type) : Prop :=
  match ty with
  | EOF | INTERPOLATION => False
  | STYLE_BLOCK | STATE_BLOCK | TEMPLATE_BLOCK | PROPS_BLOCK =>
      matchKeyword st (keyword_of ty) = true ∧ st' = addToken st ty None
  | _ => True
  end.

(** The next call of [scanToken] is a call of [scanIdentifier], and the
    main loop makes it. *)
Definition identifier_next (st : lexer) : Prop :=
  position st < String.length (content st)
  ∧ ∀ fuel, scanToken fuel st = scanIdentifier fuel st.

(** The characters on which no scanner of [scanToken] can stall: white
    space, letters, digits, the underscore, braces, parentheses, quotes
    and the characters of the table [operators]. *)
Definition plain (c : ascii) : bool :=
  isWhitespace c || isAlphaNumeric c
  || Ascii.eqb c "{" || Ascii.eqb c "}" || Ascii.eqb c "(" || Ascii.eqb c ")"
  || Ascii.eqb c DQUOTE || Ascii.eqb c SQUOTE
  || bool_decide (operators c ≠ None).

(** The number of line feeds of a text. *)
Definition line_feeds (s : string) : nat := count_newlines (String.length s) s.

(** The invariant of the main loop for the block keywords: the token of a
    block keyword holds the first letter of the keyword, and an IDENTIFIER
    token follows it, or is the next token to come. *)
Definition blocks_split (st : lexer) : Prop :=
  ∀ i t, tokens st !! i = Some t → is_block (type t) = true →
    value t = TVString (String.substring 0 1 (keyword_of (type t)))
    ∧ ((∃ t', tokens st !! S i = Some t' ∧ type t' = IDENTIFIER)
       ∨ (S i = length (tokens st) ∧ identifier_next st)).

(** The lines of a token stream never decrease. *)
Definition lines_ascend (toks : list token) : Prop :=
  ∀ i j t u, i ≤ j → toks !! i = Some t → toks !! j = Some u → line t ≤ line u.

(** The invariant of the main loop for the lines: no token is EOF, the
    lines start at 1, never decrease and are at most the line of the
    cursor. *)
Definition lines_kept (st : lexer) : Prop :=
  (∀ t, t ∈ tokens st → type t ≠ EOF ∧ 1 ≤ line t ≤ getCurrentLine st)
  ∧ lines_ascend (tokens st).

(** The characters that are left to scan. *)
Definition remaining (st : lexer) : nat :=
  String.length (content st) - position st.

(** The four operators of two characters that [scanOperator] tests for. *)
Definition two_characters (ty : token_type) : option (ascii * ascii) :=
  match ty with
  | INCREMENT => Some ("+", "+")
  | DECREMENT => Some ("-", "-")
  | EQUAL => Some ("=", "=")
  | NOT_EQUAL => Some ("!", "=")
  | _ => None
  end%char.
End WithNumber.

End Lexer.

(** ** JavaScript values *)

Module Value.

Section WithNumber.

Context {number : Type}.

(** The values a state holds: primitives, dates, arrays and plain objects.
    An object is the list of its own enumerable properties, in order. *)
Inductive value :=
| VUndefined
| VNull
| VBool (b : bool)
| VNum (n : number)
| VStr (s : string)
| VDate (time : number)
| VArr (items : list value)
| VObj (props : list (string * value)).

(** [Object.keys(o)]. *)
Definition keys (o : list (string * value)) : list string := o.*1.

(** [this._cloneDeep(obj)] of [ReactiveState]. *)
Fixpoint cloneDeep (v : value) : value :=
  match v with
  | VDate t => VDate t
  | VArr items => VArr (cloneDeep <$> items)
  | VObj props => VObj ((fun p => (p.1, cloneDeep p.2)) <$> props)
  | _ => v
  end.

(** [{ ...o }] into the map of a fresh object's properties: a later
    property of the same name overwrites an earlier one. *)
Definition spread (o : list (string * value)) : gmap string value :=
  foldl (fun m p => <[p.1 := p.2]> m) ∅ o.

End WithNumber.

Arguments value : clear implicits.

End Value.

(** ** The component AST *)

Module Ast.

(** [{ expression, placeholder, index }]. *)
Record interpolation := Interpolation {
  i_expression : string;
  i_placeholder : string;
  i_index : nat
}.

(** [{ event, handler, binding }]. *)
Record event_binding := EventBinding {
  e_event : string;
  e_handler : string;
  e_binding : string
}.

Record template := Template {
  html : string;
  interpolations : list interpolation;
  events : list event_binding
}.

(** The object that [parse] returns; [None] is [null].  The constant field
    [type] and the field [methods], which nothing fills, are left out. *)
Record ast {number : Type} := MkAst {
  a_name : option string;
  a_style : option (list (string * list (string * string)));
  a_state : list (string * Value.value number);
  a_props : list (string * Value.value number);
  a_template : option template
}.

Arguments ast : clear implicits.
Arguments MkAst {number} _ _ _ _ _.

End Ast.

(** ** The parser ([src/parser/parser.js]) *)

Module Parser.

Import Value Ast.

(** What a parser function throws. *)
Inductive error :=
| Expected (message : string) (got : Lexer.token_type)
| ExpectedPropertyNameGot (got : Lexer.token_type)
| ExpectedPropertyName
| UnexpectedTokenType (got : Lexer.token_type)
| TypeError (message : string)
| ParseError (cause : error) (line : nat).

(** A call returns, throws (with [this.current] as it is then), or has not
    finished within the fuel. *)
Inductive outcome (A : Type) :=
| Ok (a : A)
| Throw (e : error) (current : nat)
| OutOfFuel.

Arguments Ok {A} a.
Arguments Throw {A} e current.
Arguments OutOfFuel {A}.

Definition bind {A B} (m : outcome A) (f : A → outcome B) : outcome B :=
  match m with
  | Ok a => f a
  | Throw e c => Throw e c
  | OutOfFuel => OutOfFuel
  end.

#[global] Instance outcome_bind : MBind outcome := fun A B f m => bind m f.
#[global] Instance outcome_ret : MRet outcome := fun A a => Ok a.

(** *** The two scans of [parseTemplate] *)

(** The matches of [/\{([^}]+)\}/g]: a left brace, the longest run of
    characters other than the right brace, which must not be empty, and a
    right brace.  After a match the scan resumes behind it, otherwise at
    the next character.  [fuel] bounds the scan by the length of the text. *)
Fixpoint interpolations_from (fuel : nat) (s : string) (index : nat)
  : list interpolation :=
  match fuel, s with
  | S fuel, String c s' =>
      if Ascii.eqb c "{" then
        let r := Js.span (fun a => negb (Ascii.eqb a "}")) s' in
        match r.1, r.2 with
        | String _ _, String _ rest =>
            Interpolation (Js.trim r.1) ("{" +:+ r.1 +:+ "}") index
            :: interpolations_from fuel rest (index + String.length r.1 + 2)
        | _, _ => interpolations_from fuel s' (S index)
        end
      else interpolations_from fuel s' (S index)
  | _, _ => []
  end.

Definition isQuote (c : ascii) : bool :=
  Ascii.eqb c Lexer.DQUOTE || Ascii.eqb c Lexer.SQUOTE.

(** The matches of the pattern of event bindings in [parseTemplate]: the
    text [on:], a non-empty run of word characters (the event), an equals
    sign, a single or double quote, a non-empty run of characters that are
    no quotes (the handler), and a single or double quote. *)
Fixpoint events_from (fuel : nat) (s : string) : list event_binding :=
  match fuel, s with
  | S fuel, String _ s' =>
      if String.prefix "on:" s then
        let w := Js.span Js.isWord (String.substring 3 (String.length s) s) in
        match w.1, w.2 with
        | String _ _, String eq (String q rest) =>
            if Ascii.eqb eq "=" && isQuote q then
              let h := Js.span (fun a => negb (isQuote a)) rest in
              match h.1, h.2 with
              | String _ _, String q' rest' =>
                  EventBinding w.1 h.1
                    ("on:" +:+ w.1 +:+ "=" +:+ String q h.1 +:+ Lexer.str1 q')
                  :: events_from fuel rest'
              | _, _ => events_from fuel s'
              end
            else events_from fuel s'
        | _, _ => events_from fuel s'
        end
      else events_from fuel s'
  | _, _ => []
  end.

Definition parseTemplate (content : string) : template :=
  Template content
    (interpolations_from (String.length content) content 0)
    (events_from (String.length content) content).

Section WithNumber.

Context {number : Type} (parseFloat : string → number)
  (number_to_string : number → string).

Abbreviation token := (@Lexer.token number).
Abbreviation value := (Value.value number).

(** The parser object: [this.tokens] and [this.current]. *)
Record parser := MkParser {
  tokens : list token;
  current : nat
}.

Definition EOF_token : token := Lexer.Token Lexer.EOF (Lexer.TVString "") 0.

Definition peek (p : parser) : token :=
  default EOF_token (tokens p !! current p).

Definition isAtEnd (p : parser) : bool :=
  (length (tokens p) <=? current p)
  || bool_decide (Lexer.type (peek p) = Lexer.EOF).

(** [advance()] returns [this.tokens[this.current - 1]], which is
    [undefined] ([None]) while [current] is [0]. *)
Definition advance (p : parser) : option token * parser :=
  let p' := if isAtEnd p then p else MkParser (tokens p) (S (current p)) in
  (match current p' with
   | O => None
   | S i => tokens p' !! i
   end, p').

Definition check (p : parser) (ty : Lexer.token_type) : bool :=
  if isAtEnd p then false else bool_decide (Lexer.type (peek p) = ty).

Definition consume (p : parser) (ty : Lexer.token_type) (message : string)
  : outcome (option token * parser) :=
  if check p ty then Ok (advance p)
  else Throw (Expected message (Lexer.type (peek p))) (current p).

(** Reading a property of the result of [advance()]. *)
Definition defined (o : option token) (p : parser) : outcome token :=
  match o with
  | Some t => Ok t
  | None => Throw (TypeError "Cannot read properties of undefined") (current p)
  end.

Definition value_of (v : @Lexer.token_value number) : value :=
  match v with
  | Lexer.TVString s => VStr s
  | Lexer.TVNumber n => VNum n
  end.

(** A token value converted to a string: as a property key, or by [+=]. *)
Definition text_of (v : @Lexer.token_value number) : string :=
  match v with
  | Lexer.TVString s => s
  | Lexer.TVNumber n => number_to_string n
  end.

Definition is_type (t : token) (ty : Lexer.token_type) : bool :=
  bool_decide (Lexer.type t = ty).

(** *** The component name *)

(** [token.value.replace('.ezu', '')]; a number has no [replace]. *)
Definition parseComponentName (p : parser) : outcome (string * parser) :=
  let '(token, p) := advance p in
  token ← defined token p;
  match Lexer.value token with
  | Lexer.TVString s => Ok (Js.replace_first ".ezu" "" s, p)
  | Lexer.TVNumber _ =>
      Throw (TypeError "token.value.replace is not a function") (current p)
  end.

(** *** The style block *)

(** The loop of [parseSelector], with the selector built so far. *)
Fixpoint parseSelector_loop (fuel : nat) (p : parser) (selector : string)
  : outcome (string * parser) :=
  match fuel with
  | O => OutOfFuel
  | S fuel =>
      if negb (check p Lexer.LEFT_BRACE) && negb (isAtEnd p) then
        let '(token, p) := advance p in
        token ← defined token p;
        let selector :=
          if is_type token Lexer.IDENTIFIER || is_type token Lexer.TEXT
          then selector +:+ text_of (Lexer.value token)
          else if is_type token Lexer.COLON then selector +:+ ":"
          else if is_type token Lexer.DOT then selector +:+ "."
          else selector +:+ text_of (Lexer.value token) in
        parseSelector_loop fuel p selector
      else Ok (selector, p)
  end.

Definition parseSelector (fuel : nat) (p : parser) : outcome (string * parser) :=
  '(selector, p) ← parseSelector_loop fuel p "";
  Ok (Js.trim selector, p).

(** The first loop of [parseStyleProperty]: the property name. *)
Fixpoint propertyName_loop (fuel : nat) (p : parser) (propertyName : string)
  : outcome (string * parser) :=
  match fuel with
  | O => OutOfFuel
  | S fuel =>
      if negb (check p Lexer.COLON) && negb (isAtEnd p) then
        let '(token, p) := advance p in
        token ← defined token p;
        let propertyName :=
          if is_type token Lexer.IDENTIFIER || is_type token Lexer.TEXT
          then propertyName +:+ text_of (Lexer.value token)
          else if is_type token Lexer.MINUS then propertyName +:+ "-"
          else propertyName in
        propertyName_loop fuel p propertyName
      else Ok (propertyName, p)
  end.

Definition is_newline (v : @Lexer.token_value number) : bool :=
  match v with
  | Lexer.TVString s => String.eqb s (Lexer.str1 Lexer.LF)
  | Lexer.TVNumber _ => false
  end.

(** The second loop of [parseStyleProperty]: the property value; a token
    whose value is a line feed ends it. *)
Fixpoint propertyValue_loop (fuel : nat) (p : parser) (propertyValue : string)
  : outcome (string * parser) :=
  match fuel with
  | O => OutOfFuel
  | S fuel =>
      if negb (check p Lexer.SEMICOLON) && negb (check p Lexer.RIGHT_BRACE)
         && negb (isAtEnd p) then
        let '(token, p) := advance p in
        token ← defined token p;
        if is_newline (Lexer.value token) then Ok (propertyValue, p)
        else
          let propertyValue :=
            if is_type token Lexer.STRING
            then propertyValue +:+ Lexer.str1 Lexer.DQUOTE
                   +:+ text_of (Lexer.value token) +:+ Lexer.str1 Lexer.DQUOTE
            else propertyValue +:+ text_of (Lexer.value token) in
          propertyValue_loop fuel p propertyValue
      else Ok (propertyValue, p)
  end.

Definition parseStyleProperty (fuel : nat) (p : parser)
  : outcome (option (string * string) * parser) :=
  if check p Lexer.RIGHT_BRACE then Ok (None, p)
  else
    '(propertyName, p) ← propertyName_loop fuel p "";
    let p := if check p Lexer.COLON then (advance p).2 else p in
    '(propertyValue, p) ← propertyValue_loop fuel p "";
    let p := if check p Lexer.SEMICOLON then (advance p).2 else p in
    Ok (Some (Js.trim propertyName, Js.trim propertyValue), p).

(** The loop of [parseStyleRule]. *)
Fixpoint styleProperties_loop (fuel : nat) (p : parser)
  (properties : list (string * string))
  : outcome (list (string * string) * parser) :=
  match fuel with
  | O => OutOfFuel
  | S fuel' =>
      if negb (check p Lexer.RIGHT_BRACE) && negb (isAtEnd p) then
        '(property, p) ← parseStyleProperty fuel p;
        let properties :=
          match property with
          | Some (name, v) => Js.obj_set properties name v
          | None => properties
          end in
        styleProperties_loop fuel' p properties
      else Ok (properties, p)
  end.

(** [parseStyleRule]: [None] for [null], when the selector is empty. *)
Definition parseStyleRule (fuel : nat) (p : parser)
  : outcome (option (string * list (string * string)) * parser) :=
  '(selector, p) ← parseSelector fuel p;
  if String.eqb selector "" then Ok (None, p)
  else
    '(_, p) ← consume p Lexer.LEFT_BRACE "Expected { after selector";
    '(properties, p) ← styleProperties_loop fuel p [];
    '(_, p) ← consume p Lexer.RIGHT_BRACE "Expected } after style properties";
    Ok (Some (selector, properties), p).

(** The loop of [parseStyleBlock]. *)
Fixpoint styleRules_loop (fuel : nat) (p : parser)
  (styles : list (string * list (string * string)))
  : outcome (list (string * list (string * string)) * parser) :=
  match fuel with
  | O => OutOfFuel
  | S fuel' =>
      if negb (check p Lexer.RIGHT_BRACE) && negb (isAtEnd p) then
        '(rule, p) ← parseStyleRule fuel p;
        let styles :=
          match rule with
          | Some (selector, properties) => Js.obj_set styles selector properties
          | None => styles
          end in
        styleRules_loop fuel' p styles
      else Ok (styles, p)
  end.

Definition parseStyleBlock (fuel : nat) (p : parser)
  : outcome (list (string * list (string * string)) * parser) :=
  let p := (advance p).2 in
  '(_, p) ← consume p Lexer.LEFT_BRACE "Expected { after style";
  '(styles, p) ← styleRules_loop fuel p [];
  '(_, p) ← consume p Lexer.RIGHT_BRACE "Expected } after style block";
  Ok (styles, p).

(** *** The state and props blocks *)

Definition identifier_value (v : @Lexer.token_value number) : value :=
  match v with
  | Lexer.TVString s =>
      if String.eqb s "true" then VBool true
      else if String.eqb s "false" then VBool false
      else if String.eqb s "null" then VNull
      else VStr s
  | Lexer.TVNumber n => VNum n
  end.

(** [parseValue] and [parseObject]; [parseObject_loop] is the [while] loop
    of [parseObject], with the object built so far. *)
Fixpoint parseValue (fuel : nat) (p : parser) : outcome (value * parser) :=
  match fuel with
  | O => OutOfFuel
  | S fuel =>
      let token := peek p in
      match Lexer.type token with
      | Lexer.NUMBER => Ok (value_of (Lexer.value token), (advance p).2)
      | Lexer.STRING => Ok (value_of (Lexer.value token), (advance p).2)
      | Lexer.IDENTIFIER => Ok (identifier_value (Lexer.value token), (advance p).2)
      | Lexer.LEFT_BRACE =>
          '(_, p) ← consume p Lexer.LEFT_BRACE "Expected {";
          '(obj, p) ← parseObject_loop fuel p [];
          '(_, p) ← consume p Lexer.RIGHT_BRACE "Expected }";
          Ok (VObj obj, p)
      | ty => Throw (UnexpectedTokenType ty) (current p)
      end
  end
with parseObject_loop (fuel : nat) (p : parser) (obj : list (string * value))
  : outcome (list (string * value) * parser) :=
  match fuel with
  | O => OutOfFuel
  | S fuel =>
      if negb (check p Lexer.RIGHT_BRACE) && negb (isAtEnd p) then
        let '(key, p) := advance p in
        key ← defined key p;
        if negb (is_type key Lexer.IDENTIFIER) && negb (is_type key Lexer.STRING)
        then Throw ExpectedPropertyName (current p)
        else
          '(_, p) ← consume p Lexer.COLON "Expected : after property name";
          '(v, p) ← parseValue fuel p;
          let obj := Js.obj_set obj (text_of (Lexer.value key)) v in
          let p := if check p Lexer.COMMA then (advance p).2 else p in
          parseObject_loop fuel p obj
      else Ok (obj, p)
  end.

Definition parseStateProperty (fuel : nat) (p : parser)
  : outcome (option (string * value) * parser) :=
  if check p Lexer.RIGHT_BRACE then Ok (None, p)
  else
    let '(nameToken, p) := advance p in
    nameToken ← defined nameToken p;
    if negb (is_type nameToken Lexer.IDENTIFIER)
    then Throw (ExpectedPropertyNameGot (Lexer.type nameToken)) (current p)
    else
      '(_, p) ← consume p Lexer.COLON "Expected : after property name";
      '(v, p) ← parseValue fuel p;
      let p := if check p Lexer.SEMICOLON then (advance p).2 else p in
      Ok (Some (text_of (Lexer.value nameToken), v), p).

(** The [while] loop of [parseStateBlock] and of [parsePropsBlock]. *)
Fixpoint parseProperties (fuel : nat) (p : parser) (state : list (string * value))
  : outcome (list (string * value) * parser) :=
  match fuel with
  | O => OutOfFuel
  | S fuel' =>
      if negb (check p Lexer.RIGHT_BRACE) && negb (isAtEnd p) then
        '(property, p) ← parseStateProperty fuel p;
        let state :=
          match property with
          | Some (name, v) => Js.obj_set state name v
          | None => state
          end in
        parseProperties fuel' p state
      else Ok (state, p)
  end.

Definition parseStateBlock (fuel : nat) (p : parser)
  : outcome (list (string * value) * parser) :=
  let p := (advance p).2 in
  '(_, p) ← consume p Lexer.LEFT_BRACE "Expected { after state";
  '(state, p) ← parseProperties fuel p [];
  '(_, p) ← consume p Lexer.RIGHT_BRACE "Expected } after state block";
  Ok (state, p).

Definition parsePropsBlock (fuel : nat) (p : parser)
  : outcome (list (string * value) * parser) :=
  let p := (advance p).2 in
  '(_, p) ← consume p Lexer.LEFT_BRACE "Expected { after props";
  '(props, p) ← parseProperties fuel p [];
  '(_, p) ← consume p Lexer.RIGHT_BRACE "Expected } after props block";
  Ok (props, p).

(** *** The template block *)

(** What a token other than a brace adds to [templateContent]. *)
Definition template_text (token : token) : string :=
  if is_type token Lexer.HTML_TAG then text_of (Lexer.value token)
  else if is_type token Lexer.INTERPOLATION
  then "{" +:+ text_of (Lexer.value token) +:+ "}"
  else if is_type token Lexer.STRING
  then Lexer.str1 Lexer.DQUOTE +:+ text_of (Lexer.value token)
         +:+ Lexer.str1 Lexer.DQUOTE
  else if is_type token Lexer.IDENTIFIER || is_type token Lexer.TEXT
  then text_of (Lexer.value token)
  else match Lexer.value token with
       | Lexer.TVString s => s
       | Lexer.TVNumber _ => ""
       end.

(** The loop of [parseTemplateBlock]. *)
Fixpoint templateContent_loop (fuel : nat) (p : parser)
  (templateContent : string) (braceCount : Z) : outcome (string * parser) :=
  match fuel with
  | O => OutOfFuel
  | S fuel =>
      if (0 <? braceCount)%Z && negb (isAtEnd p) then
        let '(token, p) := advance p in
        token ← defined token p;
        if is_type token Lexer.LEFT_BRACE then
          templateContent_loop fuel p (templateContent +:+ "{") (braceCount + 1)%Z
        else if is_type token Lexer.RIGHT_BRACE then
          let braceCount := (braceCount - 1)%Z in
          templateContent_loop fuel p
            (if (0 <? braceCount)%Z then templateContent +:+ "}" else templateContent)
            braceCount
        else
          templateContent_loop fuel p (templateContent +:+ template_text token)
            braceCount
      else Ok (templateContent, p)
  end.

Definition parseTemplateBlock (fuel : nat) (p : parser)
  : outcome (template * parser) :=
  let p := (advance p).2 in
  '(_, p) ← consume p Lexer.LEFT_BRACE "Expected { after template";
  '(templateContent, p) ← templateContent_loop fuel p "" 1%Z;
  Ok (parseTemplate (Js.trim templateContent), p).

(** *** [parse] *)

(** The loop of [parse], with the component built so far. *)
Fixpoint parse_loop (fuel : nat) (p : parser) (component : ast number)
  : outcome (ast number) :=
  match fuel with
  | O => OutOfFuel
  | S fuel' =>
      if negb (isAtEnd p) then
        let token := peek p in
        if is_type token Lexer.COMPONENT then
          '(name, p) ← parseComponentName p;
          parse_loop fuel' p
            (MkAst (Some name) (a_style component) (a_state component)
               (a_props component) (a_template component))
        else if is_type token Lexer.STYLE_BLOCK then
          '(style, p) ← parseStyleBlock fuel p;
          parse_loop fuel' p
            (MkAst (a_name component) (Some style) (a_state component)
               (a_props component) (a_template component))
        else if is_type token Lexer.STATE_BLOCK then
          '(state, p) ← parseStateBlock fuel p;
          parse_loop fuel' p
            (MkAst (a_name component) (a_style component) state
               (a_props component) (a_template component))
        else if is_type token Lexer.PROPS_BLOCK then
          '(props, p) ← parsePropsBlock fuel p;
          parse_loop fuel' p
            (MkAst (a_name component) (a_style component)
               (a_state component) props (a_template component))
        else if is_type token Lexer.TEMPLATE_BLOCK then
          '(template, p) ← parseTemplateBlock fuel p;
          parse_loop fuel' p
            (MkAst (a_name component) (a_style component)
               (a_state component) (a_props component) (Some template))
        else parse_loop fuel' (advance p).2 component
      else Ok component
  end.

(** [parse] on a token stream: an error is rethrown with the line of the
    token at the cursor. *)
Definition parse_tokens (fuel : nat) (toks : list token) : outcome (ast number) :=
  match parse_loop fuel (MkParser toks 0) (MkAst None None [] [] None) with
  | Throw e c =>
      Throw (ParseError e (Lexer.line (peek (MkParser toks c)))) c
  | r => r
  end.

(** [parse(content)]. *)
Definition parse (fuel : nat) (content : string) : outcome (ast number) :=
  match Lexer.tokenize parseFloat fuel content with
  | None => OutOfFuel
  | Some toks => parse_tokens fuel toks
  end.


(** *** A source that is only a header *)

(** The text [<component NAME>]. *)
Definition header_of (name : string) : string :=
  "<component " +:+ name +:+ ">".

(** The characters that the third loop of [scanComponentDeclaration] takes
    into the name. *)
Definition header_name_char (c : ascii) : bool :=
  negb (Ascii.eqb c ">") && negb (Ascii.eqb c Lexer.NUL) && negb (Ascii.eqb c " ").
End WithNumber.

End Parser.

(** ** ReactiveState ([src/runtime/reactivity.js]) *)

Module Reactive.

Import Value.

Section WithValues.

Context {number : Type}.

Abbreviation value := (Value.value number).

(** [a === b].  Strict equality compares objects by identity and is not
    reflexive on NaN; [value] carries neither, so the comparison is a
    parameter of the model and nothing is assumed about it. *)
Context (strict_eq : value → value → bool).

(** What the methods throw: the error of a failed validation, the
    TypeError of an assignment to a property that has only a getter, and
    what the functions given by the caller throw. *)
Inductive exn :=
| ValidationFailed (property : string) (error : string)
| CannotSet (property : string)
| Raised (message : string).

(** A validator returns a truthy or a falsy value, or throws. *)
Inductive verdict := Pass | Fail | Raises (message : string).

Record rule := Rule {
  validator : value → verdict;
  errorMessage : string
}.

(** A middleware is called with [(property, value, oldValue, this.data)];
    it returns [undefined], returns a replacement, or throws.  A middleware
    that returns a promise is outside the model. *)
Inductive mw_result := Unchanged | Replace (v : value) | MwThrows (e : exn).

Definition middleware_fn : Type :=
  string → value → value → gmap string value → mw_result.

(** The function given to [computed]: it reads data properties, either
    of [this.data] itself or through the proxy of [createProxy], and
    returns a value.  A compute function that reads another computed
    property is outside the model. *)
Inductive cfn :=
| CRet (v : value)
| CRead (viaProxy : bool) (key : string) (k : value → cfn).

(** An entry of a change list: [{ property, value, oldValue }]. *)
Record change := Change {
  c_property : string;
  c_value : value;
  c_oldValue : value
}.

(** An entry of [this.history]; the time stamp is left out. *)
Record entry := Entry {
  h_property : string;
  h_oldValue : value;
  h_newValue : value
}.

(** The fields of a [ReactiveState].  [data] holds the data properties of
    [this.data] and [accessors] the getters that [computed] defines on the
    same object: [read] and [assign] are the two accesses to a property of
    that object.  [initialState] is the list of the properties of the copy
    the constructor keeps.  [update_replaced] says that the instance has an
    own [update] property set by [transaction], which shadows the method of
    the class. *)
Record ReactiveState := MkState {
  data : gmap string value;
  accessors : gmap string cfn;
  listeners : list nat;
  computedCache : gmap string value;
  dependencies : gmap string (gset string);
  currentComputed : option string;
  initialState : list (string * value);
  validation : gmap string (list rule);
  middleware : list middleware_fn;
  history : list entry;
  maxHistorySize : nat;
  isDebugMode : bool;
  batchedUpdates : list change;
  updateScheduled : bool;
  update_replaced : bool
}.

Definition set_data (st : ReactiveState) (d : gmap string value) :=
  MkState d (accessors st) (listeners st) (computedCache st) (dependencies st)
    (currentComputed st) (initialState st) (validation st) (middleware st)
    (history st) (maxHistorySize st) (isDebugMode st) (batchedUpdates st)
    (updateScheduled st) (update_replaced st).

Definition set_accessors (st : ReactiveState) (a : gmap string cfn) :=
  MkState (data st) a (listeners st) (computedCache st) (dependencies st)
    (currentComputed st) (initialState st) (validation st) (middleware st)
    (history st) (maxHistorySize st) (isDebugMode st) (batchedUpdates st)
    (updateScheduled st) (update_replaced st).

Definition set_listeners (st : ReactiveState) (l : list nat) :=
  MkState (data st) (accessors st) l (computedCache st) (dependencies st)
    (currentComputed st) (initialState st) (validation st) (middleware st)
    (history st) (maxHistorySize st) (isDebugMode st) (batchedUpdates st)
    (updateScheduled st) (update_replaced st).

Definition set_computedCache (st : ReactiveState) (c : gmap string value) :=
  MkState (data st) (accessors st) (listeners st) c (dependencies st)
    (currentComputed st) (initialState st) (validation st) (middleware st)
    (history st) (maxHistorySize st) (isDebugMode st) (batchedUpdates st)
    (updateScheduled st) (update_replaced st).

Definition set_dependencies (st : ReactiveState) (d : gmap string (gset string)) :=
  MkState (data st) (accessors st) (listeners st) (computedCache st) d
    (currentComputed st) (initialState st) (validation st) (middleware st)
    (history st) (maxHistorySize st) (isDebugMode st) (batchedUpdates st)
    (updateScheduled st) (update_replaced st).

Definition set_currentComputed (st : ReactiveState) (c : option string) :=
  MkState (data st) (accessors st) (listeners st) (computedCache st)
    (dependencies st) c (initialState st) (validation st) (middleware st)
    (history st) (maxHistorySize st) (isDebugMode st) (batchedUpdates st)
    (updateScheduled st) (update_replaced st).

Definition set_validation (st : ReactiveState) (v : gmap string (list rule)) :=
  MkState (data st) (accessors st) (listeners st) (computedCache st)
    (dependencies st) (currentComputed st) (initialState st) v (middleware st)
    (history st) (maxHistorySize st) (isDebugMode st) (batchedUpdates st)
    (updateScheduled st) (update_replaced st).

Definition set_middleware (st : ReactiveState) (m : list middleware_fn) :=
  MkState (data st) (accessors st) (listeners st) (computedCache st)
    (dependencies st) (currentComputed st) (initialState st) (validation st) m
    (history st) (maxHistorySize st) (isDebugMode st) (batchedUpdates st)
    (updateScheduled st) (update_replaced st).

Definition set_history (st : ReactiveState) (h : list entry) :=
  MkState (data st) (accessors st) (listeners st) (computedCache st)
    (dependencies st) (currentComputed st) (initialState st) (validation st)
    (middleware st) h (maxHistorySize st) (isDebugMode st) (batchedUpdates st)
    (updateScheduled st) (update_replaced st).

Definition set_batchedUpdates (st : ReactiveState) (b : list change) :=
  MkState (data st) (accessors st) (listeners st) (computedCache st)
    (dependencies st) (currentComputed st) (initialState st) (validation st)
    (middleware st) (history st) (maxHistorySize st) (isDebugMode st) b
    (updateScheduled st) (update_replaced st).

Definition set_updateScheduled (st : ReactiveState) (b : bool) :=
  MkState (data st) (accessors st) (listeners st) (computedCache st)
    (dependencies st) (currentComputed st) (initialState st) (validation st)
    (middleware st) (history st) (maxHistorySize st) (isDebugMode st)
    (batchedUpdates st) b (update_replaced st).

Definition set_update_replaced (st : ReactiveState) (b : bool) :=
  MkState (data st) (accessors st) (listeners st) (computedCache st)
    (dependencies st) (currentComputed st) (initialState st) (validation st)
    (middleware st) (history st) (maxHistorySize st) (isDebugMode st)
    (batchedUpdates st) (updateScheduled st) b.

(** [new ReactiveState(initialState)]. *)
Definition new (initial : list (string * value)) : ReactiveState :=
  MkState (spread initial) ∅ [] ∅ ∅ None
    (foldl (fun o p => Js.obj_set o p.1 p.2) [] initial) ∅ [] [] 50 false
    [] false false.

(** The value of a data property: [undefined] when absent. *)
Definition get (d : gmap string value) (property : string) : value :=
  default VUndefined (d !! property).

(** *** Microtasks

    What [Promise.resolve().then(...)] and [await] put on the microtask
    queue: the rest of [applyMiddleware] after the [await] of the result of
    the middleware at [index]; the rest of [update] after
    [await this.applyMiddleware(...)], fulfilled or rejected; the flush that
    [scheduleUpdate] requests; the listener round that [notifyListeners]
    requests. *)
Inductive job :=
| JMiddleware (property : string) (processedValue oldValue : value)
    (result : option value) (index : nat)
| JUpdate (property : string) (processedValue oldValue : value)
| JUpdateThrow (e : exn)
| JFlush
| JNotify (changeInfo : list change).

(** One pass over [this.listeners]: every listener in [n_listeners] is
    called once with [(this.data, changeInfo)].  What the listeners do is
    not modelled: a pass is recorded with the data properties of that
    moment. *)
Record notification := Notification {
  n_listeners : list nat;
  n_data : gmap string value;
  n_changes : list change
}.

(** One instance, the microtasks it has queued, and the listener rounds
    that have run. *)
Record world := World {
  obj : ReactiveState;
  queue : list job;
  notifications : list notification
}.

Definition set_obj (w : world) (st : ReactiveState) : world :=
  World st (queue w) (notifications w).

Definition enqueue (w : world) (j : job) : world :=
  World (obj w) (queue w ++ [j]) (notifications w).

(** [notifyListeners(changeInfo)], and [notifyListeners(property, value,
    oldValue)] with the one change as [changeInfo]: the listener round is
    left to a microtask. *)
Definition notifyListeners (w : world) (changeInfo : list change) : world :=
  enqueue w (JNotify changeInfo).

Definition call_listeners (w : world) (changeInfo : list change) : world :=
  World (obj w) (queue w)
    (notifications w
       ++ [Notification (listeners (obj w)) (data (obj w)) changeInfo]).

(** *** Validation and middleware *)

Definition addValidation (st : ReactiveState) (property : string) (r : rule)
  : ReactiveState :=
  set_validation st
    (<[property := default [] (validation st !! property) ++ [r]]> (validation st)).

Fixpoint run_validators (rules : list rule) (v : value) : option string :=
  match rules with
  | [] => None
  | r :: rules' =>
      match validator r v with
      | Pass => run_validators rules' v
      | Fail => Some (errorMessage r)
      | Raises m => Some ("Validation error: " +:+ m)
      end
  end.

(** [validateProperty]: [None] for [{ valid: true }], [Some error] for
    [{ valid: false, error }]. *)
Definition validateProperty (st : ReactiveState) (property : string) (v : value)
  : option string :=
  match validation st !! property with
  | None => None
  | Some rules => run_validators rules v
  end.

Definition addMiddleware (st : ReactiveState) (m : middleware_fn) : ReactiveState :=
  set_middleware st (middleware st ++ [m]).

(** [applyMiddleware] from the middleware at [index] on, up to its next
    [await] or its end: the [for ... of] loop reads [this.middleware] at
    each step. *)
Definition applyMiddleware_from (w : world) (property : string)
  (processedValue oldValue : value) (index : nat) : world :=
  match middleware (obj w) !! index with
  | None => enqueue w (JUpdate property processedValue oldValue)
  | Some m =>
      match m property processedValue oldValue (data (obj w)) with
      | MwThrows e => enqueue w (JUpdateThrow e)
      | Unchanged => enqueue w (JMiddleware property processedValue oldValue None index)
      | Replace v => enqueue w (JMiddleware property processedValue oldValue (Some v) index)
      end
  end.

(** [applyMiddleware(property, value, oldValue)], up to its first [await]
    or its end. *)
Definition applyMiddleware (w : world) (property : string) (v oldValue : value)
  : world :=
  applyMiddleware_from w property v oldValue 0.

(** *** Computed properties *)

Definition invalidateComputedProperties (st : ReactiveState) (changedProperty : string)
  : ReactiveState :=
  set_computedCache st
    (map_imap
       (fun computedName v =>
          match dependencies st !! computedName with
          | Some deps => if decide (changedProperty ∈ deps) then None else Some v
          | None => Some v
          end)
       (computedCache st)).

(** What the [get] trap of the proxy records: while a computed property is
    being evaluated (a non-empty name is truthy) the property read is
    added to its dependencies. *)
Definition track (st : ReactiveState) (property : string) : ReactiveState :=
  match currentComputed st with
  | Some name =>
      if String.eqb name "" then st
      else set_dependencies st
             (<[name := default ∅ (dependencies st !! name) ∪ {[property]}]>
                (dependencies st))
  | None => st
  end.

(** The [get] trap of a proxy that [createProxy] has returned for the
    present data object. *)
Definition proxy_get (st : ReactiveState) (property : string)
  : value * ReactiveState :=
  let st := track st property in
  (get (data st) property, st).

Fixpoint run_cfn (f : cfn) (st : ReactiveState) : value * ReactiveState :=
  match f with
  | CRet v => (v, st)
  | CRead viaProxy key k =>
      let r := if viaProxy then proxy_get st key else (get (data st) key, st) in
      run_cfn (k r.1) r.2
  end.

(** [computed(name, computeFn)]: [Object.defineProperty] replaces a data
    property of that name by the accessor. *)
Definition computed (st : ReactiveState) (name : string) (computeFn : cfn)
  : ReactiveState :=
  set_accessors (set_data st (delete name (data st)))
    (<[name := computeFn]> (accessors st)).

(** The getter that [computed] installs. *)
Definition getter (st : ReactiveState) (name : string) (computeFn : cfn)
  : value * ReactiveState :=
  match computedCache st !! name with
  | Some v => (v, st)
  | None =>
      let st := set_currentComputed st (Some name) in
      let '(v, st) := run_cfn computeFn st in
      let st := set_currentComputed st None in
      (v, set_computedCache st (<[name := v]> (computedCache st)))
  end.

(** [this.data[property]]: the getter of a computed property runs. *)
Definition read (st : ReactiveState) (property : string) : value * ReactiveState :=
  match accessors st !! property with
  | Some computeFn => getter st property computeFn
  | None => (get (data st) property, st)
  end.

(** [this.data[property] = v] in strict code, as that of the class is: a
    computed property has a getter and no setter, and the assignment
    throws. *)
Definition assign (st : ReactiveState) (property : string) (v : value)
  : exn + ReactiveState :=
  match accessors st !! property with
  | Some _ => inl (CannotSet property)
  | None => inr (set_data st (<[property := v]> (data st)))
  end.

(** *** Updates *)

Definition scheduleUpdate (w : world) : world :=
  if updateScheduled (obj w) then w
  else enqueue (set_obj w (set_updateScheduled (obj w) true)) JFlush.

Definition flushUpdates (w : world) : world :=
  match batchedUpdates (obj w) with
  | [] => w
  | updates =>
      let w := set_obj w (set_updateScheduled (set_batchedUpdates (obj w) []) false) in
      let w := call_listeners w updates in
      set_obj w
        (foldl (fun st u => invalidateComputedProperties st (c_property u))
           (obj w) updates)
  end.

(** [update(property, value)] of the class, up to its first [await]:
    [Some e] when the promise it returns is rejected at once. *)
Definition update (w : world) (property : string) (v : value)
  : option exn * world :=
  match validateProperty (obj w) property v with
  | Some error => (Some (ValidationFailed property error), w)
  | None =>
      let oldValue := read (obj w) property in
      (None, applyMiddleware (set_obj w oldValue.2) property v oldValue.1)
  end.

Definition push_history (st : ReactiveState) (e : entry) : ReactiveState :=
  let h := if maxHistorySize st <=? length (history st)
           then tail (history st) else history st in
  set_history st (h ++ [e]).

(** The rest of [update] once the middleware chain has returned; when the
    assignment throws, the promise of [update] is rejected. *)
Definition update_resume (w : world) (property : string)
  (processedValue oldValue : value) : world :=
  let st := push_history (obj w)
              (Entry property (cloneDeep oldValue) (cloneDeep processedValue)) in
  match assign st property processedValue with
  | inl _ => set_obj w st
  | inr st =>
      let st := set_batchedUpdates st
                  (batchedUpdates st ++ [Change property processedValue oldValue]) in
      scheduleUpdate (set_obj w st)
  end.

Definition run_job (j : job) (w : world) : world :=
  match j with
  | JMiddleware property processedValue oldValue result index =>
      applyMiddleware_from w property (default processedValue result) oldValue
        (S index)
  | JUpdate property processedValue oldValue =>
      update_resume w property processedValue oldValue
  | JUpdateThrow _ => w
  | JFlush => flushUpdates w
  | JNotify changeInfo => call_listeners w changeInfo
  end.

(** The event loop runs the oldest microtask. *)
Definition step (w : world) : world :=
  match queue w with
  | [] => w
  | j :: q => run_job j (World (obj w) q (notifications w))
  end.

Fixpoint steps (n : nat) (w : world) : world :=
  match n with
  | O => w
  | S n => steps n (step w)
  end.

(** The loop of [updateBatch], and of [reset], over the entries of an
    object, with the changes collected so far. *)
Fixpoint updateBatch_loop (updates : list (string * value)) (st : ReactiveState)
  (changedProperties : list change) : option exn * ReactiveState * list change :=
  match updates with
  | [] => (None, st, changedProperties)
  | u :: updates' =>
      let oldValue := read st u.1 in
      if negb (strict_eq oldValue.1 u.2) then
        match assign oldValue.2 u.1 u.2 with
        | inl e => (Some e, oldValue.2, changedProperties)
        | inr st =>
            updateBatch_loop updates' st
              (changedProperties ++ [Change u.1 u.2 oldValue.1])
        end
      else updateBatch_loop updates' oldValue.2 changedProperties
  end.

(** What follows the loop: the listeners are notified when something has
    changed. *)
Definition notify_changes (w : world)
  (r : option exn * ReactiveState * list change) : option exn * world :=
  let w := set_obj w r.1.2 in
  match r.1.1, r.2 with
  | Some e, _ => (Some e, w)
  | None, [] => (None, w)
  | None, changedProperties => (None, notifyListeners w changedProperties)
  end.

(** [updateBatch(updates)], [updates] being the entries of the object:
    [Some e] when it throws [e]. *)
Definition updateBatch (w : world) (updates : list (string * value))
  : option exn * world :=
  notify_changes w (updateBatch_loop updates (obj w) []).

Definition onChange (st : ReactiveState) (callback : nat) : ReactiveState :=
  if bool_decide (callback ∈ listeners st) then st
  else set_listeners st (listeners st ++ [callback]).

(** [undo()]: the value it returns, or what it throws. *)
Definition undo (w : world) : (exn + bool) * world :=
  match reverse (history (obj w)) with
  | [] => (inr false, w)
  | lastChange :: rest =>
      let st := set_history (obj w) (reverse rest) in
      match assign st (h_property lastChange) (h_oldValue lastChange) with
      | inl e => (inl e, set_obj w st)
      | inr st =>
          (inr true,
           notifyListeners (set_obj w st)
             [Change (h_property lastChange) (h_oldValue lastChange)
                (h_newValue lastChange)])
      end
  end.

Definition clearHistory (st : ReactiveState) : ReactiveState := set_history st [].

(** The [set] trap of a proxy that [createProxy] has returned for the
    present data object. *)
Definition proxy_set (w : world) (property : string) (v : value)
  : option exn * world :=
  let oldValue := read (obj w) property in
  if negb (strict_eq oldValue.1 v) then
    match assign oldValue.2 property v with
    | inl e => (Some e, set_obj w oldValue.2)
    | inr st =>
        let w := notifyListeners (set_obj w st) [Change property v oldValue.1] in
        (None, set_obj w (invalidateComputedProperties (obj w) property))
    end
  else (None, set_obj w oldValue.2).

(** [reset()]. *)
Definition reset (w : world) : option exn * world :=
  notify_changes w (updateBatch_loop (initialState (obj w)) (obj w) []).

(** [destroy()]. *)
Definition destroy (st : ReactiveState) : ReactiveState :=
  MkState (data st) (accessors st) [] ∅ ∅ (currentComputed st) (initialState st)
    ∅ [] [] (maxHistorySize st) (isDebugMode st) [] false (update_replaced st).

(** *** Transactions *)

(** What the function given to [transaction] does, in order: it assigns to
    a property of the data object it is passed (in strict code), calls
    [update] on the state, or throws. *)
Inductive tcmd :=
| TAssign (property : string) (v : value)
| TUpdate (property : string) (v : value)
| TThrow (e : exn).

(** The function that [transaction] stores in [this.update]: it records the
    write in the array [updates] of that call and writes [this.data]. *)
Definition replacement_update (st : ReactiveState) (updates : list change)
  (property : string) (v : value) : option exn * ReactiveState * list change :=
  let oldValue := read st property in
  let updates := updates ++ [Change property v oldValue.1] in
  match assign oldValue.2 property v with
  | inl e => (Some e, oldValue.2, updates)
  | inr st => (None, st, updates)
  end.

Fixpoint run_fn (fn : list tcmd) (st : ReactiveState) (updates : list change)
  : option exn * ReactiveState * list change :=
  match fn with
  | [] => (None, st, updates)
  | TAssign property v :: fn' =>
      match assign st property v with
      | inl e => (Some e, st, updates)
      | inr st => run_fn fn' st updates
      end
  | TUpdate property v :: fn' =>
      let r := replacement_update st updates property v in
      match r.1.1 with
      | Some e => r
      | None => run_fn fn' r.1.2 r.2
      end
  | TThrow e :: _ => (Some e, st, updates)
  end.

(** The object [batchUpdate] that [transaction] builds from [updates]. *)
Definition batchUpdate_of (updates : list change) : list (string * value) :=
  foldl (fun o u => Js.obj_set o (c_property u) (c_value u)) [] updates.

(** [this._cloneDeep(this.data)]: the copy reads every property of the
    data object, so the getter of each computed property runs, and the copy
    holds what it returned as a data property.  The getters write separate
    entries of the cache and of the dependencies, and the model runs them
    in the order of the map. *)
Definition cloneDeep_data (st : ReactiveState) : gmap string value * ReactiveState :=
  map_fold
    (fun name computeFn r =>
       let v := getter r.2 name computeFn in
       (<[name := cloneDeep v.1]> r.1, v.2))
    (cloneDeep <$> data st, st) (accessors st).

(** [this.data = originalData]: the copy has data properties only. *)
Definition rollback (st : ReactiveState) (originalData : gmap string value)
  : ReactiveState :=
  set_accessors (set_data st originalData) ∅.

(** [transaction(updateFn)]: [Some e] when it throws [e].  The [catch]
    covers the call of [updateBatch] as well. *)
Definition transaction (w : world) (updateFn : list tcmd) : option exn * world :=
  let originalData := cloneDeep_data (obj w) in
  let originalUpdate := update_replaced originalData.2 in
  let st := set_update_replaced originalData.2 true in
  let r := run_fn updateFn st [] in
  match r.1.1 with
  | None =>
      let st := set_update_replaced r.1.2 originalUpdate in
      let b := updateBatch (set_obj w st) (batchUpdate_of r.2) in
      match b.1 with
      | None => b
      | Some error =>
          (Some error, set_obj b.2 (rollback (obj b.2) originalData.1))
      end
  | Some error =>
      (Some error, set_obj w (rollback r.1.2 originalData.1))
  end.

(** A call [state.update(property, value)] from outside a transaction: the
    own property shadows the method.  The array a left-over replacement
    writes to is no longer read by anything. *)
Definition call_update (w : world) (property : string) (v : value)
  : option exn * world :=
  if update_replaced (obj w)
  then
    let r := replacement_update (obj w) [] property v in
    (r.1.1, set_obj w r.1.2)
  else update w property v.

(** *** Sequences of operations *)

(** What a caller does between two microtasks: a call of a method, a write
    through a proxy of the present data object, or nothing but letting the
    oldest microtask run. *)
Inductive op :=
| OpUpdate (property : string) (v : value)
| OpUpdateBatch (updates : list (string * value))
| OpUndo
| OpClearHistory
| OpTransaction (updateFn : list tcmd)
| OpAddValidation (property : string) (r : rule)
| OpAddMiddleware (m : middleware_fn)
| OpOnChange (callback : nat)
| OpProxySet (property : string) (v : value)
| OpReset
| OpDestroy
| OpMicrotask.

Definition apply_op (w : world) (o : op) : world :=
  match o with
  | OpUpdate property v => (call_update w property v).2
  | OpUpdateBatch updates => (updateBatch w updates).2
  | OpUndo => (undo w).2
  | OpClearHistory => set_obj w (clearHistory (obj w))
  | OpTransaction updateFn => (transaction w updateFn).2
  | OpAddValidation property r => set_obj w (addValidation (obj w) property r)
  | OpAddMiddleware m => set_obj w (addMiddleware (obj w) m)
  | OpOnChange callback => set_obj w (onChange (obj w) callback)
  | OpProxySet property v => (proxy_set w property v).2
  | OpReset => (reset w).2
  | OpDestroy => set_obj w (destroy (obj w))
  | OpMicrotask => step w
  end.

Definition run (ops : list op) (w : world) : world := foldl apply_op w ops.

(** A fresh instance with nothing queued. *)
Definition init (initial : list (string * value)) : world :=
  World (new initial) [] [].

(** *** The vocabulary of the properties *)

(** A compute function that reads [this.data] only, never the proxy. *)
Inductive direct : cfn → Prop :=
| direct_ret (v : value) : direct (CRet v)
| direct_read (key : string) (k : value → cfn) :
    (∀ v, direct (k v)) → direct (CRead false key k).

(** A property that [computed] has not defined. *)
Definition data_property (st : ReactiveState) (property : string) : Prop :=
  accessors st !! property = None.



(** The calls [update(property, v)] among the commands of a function. *)
Definition captured_writes (fn : list tcmd) : list (string * value) :=
  omap (fun c => match c with TUpdate property v => Some (property, v) | _ => None end) fn.

(** What reading and assigning properties of the data object change at
    most: the data, the cache, the dependencies and [currentComputed]. *)
Definition same_but_data (st st' : ReactiveState) : Prop :=
  ∃ d c dp cc,
    st' = MkState d (accessors st) (listeners st) c dp cc (initialState st)
            (validation st) (middleware st) (history st) (maxHistorySize st)
            (isDebugMode st) (batchedUpdates st) (updateScheduled st)
            (update_replaced st).

(** The fields that only [update], [undo], [clearHistory], [transaction]
    and [computed] write. *)
Definition same_history (st st' : ReactiveState) : Prop :=
  history st' = history st
  ∧ maxHistorySize st' = maxHistorySize st
  ∧ update_replaced st' = update_replaced st
  ∧ accessors st' = accessors st.

Definition history_bounded (st : ReactiveState) : Prop :=
  maxHistorySize st = 50 ∧ length (history st) ≤ 50.

(** What a chain of middleware makes of a value while the data is [d]:
    the processed value, or the error of the first middleware that throws. *)
Fixpoint chain (ms : list middleware_fn) (d : gmap string value)
  (property : string) (processedValue oldValue : value) : exn + value :=
  match ms with
  | [] => inr processedValue
  | m :: ms' =>
      match m property processedValue oldValue d with
      | MwThrows e => inl e
      | Unchanged => chain ms' d property processedValue oldValue
      | Replace v => chain ms' d property v oldValue
      end
  end.

Definition chain_change (ms : list middleware_fn) (d : gmap string value)
  (property : string) (processedValue oldValue : value) : option change :=
  match chain ms d property processedValue oldValue with
  | inl _ => None
  | inr v => Some (Change property v oldValue)
  end.

(** The change that a call [update(u.1, u.2)] ends up writing on the
    state [st], if validation and the middleware let it through. *)
Definition applied_change (st : ReactiveState) (u : string * value) : option change :=
  match validateProperty st u.1 u.2 with
  | Some _ => None
  | None => chain_change (middleware st) (data st) u.1 u.2 (get (data st) u.1)
  end.

Definition applied (st : ReactiveState) (us : list (string * value)) : list change :=
  omap (applied_change st) us.

(** The job that [applyMiddleware_from] queues. *)
Definition mw_job (st : ReactiveState) (property : string)
  (processedValue oldValue : value) (index : nat) : job :=
  match middleware st !! index with
  | None => JUpdate property processedValue oldValue
  | Some m =>
      match m property processedValue oldValue (data st) with
      | MwThrows e => JUpdateThrow e
      | Unchanged => JMiddleware property processedValue oldValue None index
      | Replace v => JMiddleware property processedValue oldValue (Some v) index
      end
  end.

(** The change a queued job leads to, if the data stays what it is until
    the middleware chain is through. *)
Definition fate (st : ReactiveState) (j : job) : option change :=
  match j with
  | JMiddleware k p o r i =>
      chain_change (drop (S i) (middleware st)) (data st) k (default p r) o
  | JUpdate k p o => Some (Change k p o)
  | _ => None
  end.

(** What running a job of the middleware phase queues. *)
Definition next_job (st : ReactiveState) (j : job) : option job :=
  match j with
  | JMiddleware k p o r i => Some (mw_job st k (default p r) o (S i))
  | _ => None
  end.

Definition in_chain (j : job) : Prop :=
  match j with
  | JMiddleware _ _ _ _ _ | JUpdateThrow _ => True
  | _ => False
  end.

(** A job that has awaited the middleware before index [l]. *)
Definition at_stage (l : nat) (j : job) : Prop :=
  match j with
  | JMiddleware _ _ _ _ i => S i = l
  | JUpdateThrow _ => True
  | _ => False
  end.

Definition is_update (j : job) : Prop :=
  match j with
  | JUpdate _ _ _ => True
  | _ => False
  end.

(** What the rest of [update] writes on the instance, the request of a
    flush included. *)
Definition write (st : ReactiveState) (c : change) : ReactiveState :=
  let st := push_history st
              (Entry (c_property c) (cloneDeep (c_oldValue c))
                 (cloneDeep (c_value c))) in
  let st := set_data st (<[c_property c := c_value c]> (data st)) in
  let st := set_batchedUpdates st (batchedUpdates st ++ [c]) in
  set_updateScheduled st true.

(** [this.history] after an entry is added under the cap [cap]. *)
Definition push_entry (cap : nat) (h : list entry) (e : entry) : list entry :=
  (if cap <=? length h then tail h else h) ++ [e].

Definition entry_of (c : change) : entry :=
  Entry (c_property c) (c_oldValue c) (c_value c).

(** The queue after the calls of one turn. *)
Definition first_job (st : ReactiveState) (u : string * value) : option job :=
  match validateProperty st u.1 u.2 with
  | Some _ => None
  | None => Some (mw_job st u.1 u.2 (get (data st) u.1) 0)
  end.

(** *** Watchers *)

(** The listener that [watch(property, callback)] registers: it looks for
    the first change of [property] in the round and, when there is one,
    calls [callback(change.value, change.oldValue)].  The result is the
    pair of arguments of that call. *)
Definition watch_listener (property : string) (changes : list change)
  : option (value * value) :=
  match List.find (fun c => String.eqb (c_property c) property) changes with
  | Some change => Some (c_value change, c_oldValue change)
  | None => None
  end.

(** [canUndo()]. *)
Definition canUndo (st : ReactiveState) : bool := 0 <? length (history st).

(** *** More vocabulary *)

(** The keys that a compute function reads through the proxy while the
    data is [d]. *)
Fixpoint proxy_keys (f : cfn) (d : gmap string value) : list string :=
  match f with
  | CRet _ => []
  | CRead viaProxy key k =>
      (if viaProxy then [key] else []) ++ proxy_keys (k (get d key)) d
  end.

(** The keys recorded as dependencies of a computed property. *)
Definition deps (st : ReactiveState) (name : string) : gset string :=
  default ∅ (dependencies st !! name).

(** A command that calls [update] on a data property with a value that is
    identical to itself. *)
Definition updates_data (st : ReactiveState) (c : tcmd) : Prop :=
  match c with
  | TUpdate property v => data_property st property ∧ strict_eq v v = true
  | _ => False
  end.

(** The last of the changes of [property] in a list. *)
Definition last_change (property : string) (changes : list change) : option change :=
  List.find (fun c => String.eqb (c_property c) property) (reverse changes).

(** An operation other than a microtask, a write through the proxy and
    [destroy]. *)
Definition keeps_cache (o : op) : Prop :=
  match o with
  | OpMicrotask | OpProxySet _ _ | OpDestroy => False
  | _ => True
  end.

(** Every cached value of [st] is cached in [st'], and every recorded
    dependency of [st] is recorded in [st']. *)
Definition cache_kept (st st' : ReactiveState) : Prop :=
  ∀ name v, computedCache st !! name = Some v → computedCache st' !! name = Some v.

Definition deps_kept (st st' : ReactiveState) : Prop :=
  ∀ name k, k ∈ deps st name → k ∈ deps st' name.

(** A listener round in which no listener is called. *)
Definition silent (round : notification) : Prop := n_listeners round = [].

End WithValues.

End Reactive.

(** ** The compiler ([src/parser/compiler.js]) *)

Module Compiler.

Import Value Ast.

(** [str.toLowerCase()] on the letters A to Z. *)
Definition lower (c : ascii) : ascii :=
  let n := nat_of_ascii c in
  if (65 <=? n) && (n <=? 90) then ascii_of_nat (n + 32) else c.

Fixpoint toLowerCase (s : string) : string :=
  match s with
  | EmptyString => EmptyString
  | String a s' => String (lower a) (toLowerCase s')
  end.

(** [name.replace(/[^a-z0-9-]/g, '-')]. *)
Fixpoint dash_others (s : string) : string :=
  match s with
  | EmptyString => EmptyString
  | String a s' =>
      let n := nat_of_ascii a in
      String (if ((97 <=? n) && (n <=? 122)) || ((48 <=? n) && (n <=? 57))
                 || (n =? 45)
              then a else "-"%char)
        (dash_others s')
  end.

Fixpoint all_chars (p : ascii → bool) (s : string) : bool :=
  match s with
  | EmptyString => true
  | String a s' => p a && all_chars p s'
  end.

(** [key.match(/^[a-zA-Z_][a-zA-Z0-9_]*$/)]. *)
Definition identifier_syntax (key : string) : bool :=
  match key with
  | EmptyString => false
  | String a s' => Lexer.isAlpha a && all_chars Lexer.isAlphaNumeric s'
  end.

(** The methods that the class [EZUICompiler] declares, and those of the
    component class that [generateComponentClass] returns. *)
Definition EZUICompiler_methods : list string :=
  ["compile"; "validateAST"; "validateStateObject"; "validateStyleObject";
   "generateComponentClass"; "getCompilationErrors"; "clearErrors"].

Definition component_methods : list string :=
  ["setupStateValidation"; "setupErrorBoundary"; "handleComponentError";
   "scheduleRender"; "safeRender"; "updateMetrics"; "mount"; "render";
   "updateDOM"; "generateStyles"; "scopeSelector"; "processTemplate";
   "sanitizeHtml"; "evaluateExpression"; "safeExpressionEval";
   "getNestedProperty"; "safeEval"; "validateExpression";
   "attachEventListeners"; "handleEvent"; "executeEventHandler";
   "evaluateExpressionWithEvent"; "sanitizeComponentName"; "kebabCase";
   "escapeHtml"; "onMount"; "onUnmount"; "getMetrics"; "estimateMemoryUsage";
   "destroy"; "connectedCallback"; "disconnectedCallback";
   "attributeChangedCallback"].

Inductive error :=
| MissingName
| TemplateWithoutHtml
| InvalidStateName (key path : string)
| NotAFunction (callee : string)
| CompilationFailed (cause : error).

(** [scopeSelector(selector, scopeId)] of the component class.  When the
    selector contains a colon [split] returns at least two parts. *)
Definition scopeSelector (selector scopeId : string) : string :=
  if Js.startsWith selector ":host" then selector
  else if Js.includes_char selector ":" then
    match Js.split ":" selector with
    | base :: pseudo :: _ =>
        "." +:+ scopeId +:+ " " +:+ Js.trim base +:+ ":" +:+ Js.trim pseudo
    | _ => selector
    end
  else "." +:+ scopeId +:+ " " +:+ selector.

(** What C4 promises for a selector with a colon: the scope class, then
    the selector with everything on both sides of its first colon. *)
Fixpoint before_first (c : ascii) (s : string) : string :=
  match s with
  | EmptyString => EmptyString
  | String a s' => if Ascii.eqb a c then EmptyString else String a (before_first c s')
  end.

Fixpoint after_first (c : ascii) (s : string) : string :=
  match s with
  | EmptyString => EmptyString
  | String a s' => if Ascii.eqb a c then s' else after_first c s'
  end.

Definition scoped_as_claimed (selector scopeId : string) : string :=
  "." +:+ scopeId +:+ " " +:+ before_first ":" selector +:+ ":"
    +:+ after_first ":" selector.

(** [sanitizeComponentName(name)] of the component class. *)
Definition sanitizeComponentName (name : option string) : string :=
  match name with
  | None | Some EmptyString => "ezui-component"
  | Some name => dash_others (toLowerCase name)
  end.

Section WithNumber.

Context {number : Type}.

Abbreviation value := (Value.value number).

(** [validateStateObject(state, path)]: the entries of a nested plain
    object are validated in turn; a date has no entries. *)
Fixpoint validateStateValue (path : string) (v : value) : option error :=
  match v with
  | VObj props =>
      (fix entries (l : list (string * value)) : option error :=
         match l with
         | [] => None
         | p :: l' =>
             if negb (identifier_syntax p.1)
             then Some (InvalidStateName p.1 path)
             else
               match validateStateValue (path +:+ "." +:+ p.1) p.2 with
               | Some e => Some e
               | None => entries l'
               end
         end) props
  | _ => None
  end.

Definition validateStateObject (state : list (string * value)) : option error :=
  validateStateValue "state" (VObj state).

(** [validateAST(ast)]: [Some e] when it throws [e].  An [ast] is an object,
    and a style rule of an [ast] is an object, by their types. *)
Definition validateAST (a : ast number) : option error :=
  match a_name a with
  | None | Some EmptyString => Some MissingName
  | Some _ =>
      match a_template a with
      | Some t =>
          if String.eqb (html t) "" then Some TemplateWithoutHtml
          else validateStateObject (a_state a)
      | None => validateStateObject (a_state a)
      end
  end.

(** The class that [generateComponentClass(ast, componentName)] returns. *)
Record definition := Definition_ {
  d_ast : ast number;
  d_componentName : string
}.

(** The state that the constructor of the component class creates:
    [new ReactiveState(ast.state || {})], an object being truthy. *)
Definition instance_state (d : definition) : Reactive.ReactiveState :=
  Reactive.new (a_state (d_ast d)).

(** The compiler object: of its fields [compile] touches
    [compilationErrors]. *)
Record compiler := MkCompiler {
  maxRenderDepth : nat;
  renderDepth : nat;
  compilationErrors : list error
}.

(** [this.sanitizeComponentName(ast.name)] with [this] the compiler: the
    method is looked up among those of [EZUICompiler]. *)
Definition call_sanitizeComponentName (name : option string) : error + string :=
  if bool_decide ("sanitizeComponentName" ∈ EZUICompiler_methods)
  then inr (sanitizeComponentName name)
  else inl (NotAFunction "this.sanitizeComponentName").

(** [compile(ast)]: [inl e] when it throws [e]. *)
Definition compile (c : compiler) (a : ast number)
  : (error + definition) * compiler :=
  let c := MkCompiler (maxRenderDepth c) (renderDepth c) [] in
  let r :=
    match validateAST a with
    | Some e => inl e
    | None =>
        match call_sanitizeComponentName (a_name a) with
        | inl e => inl e
        | inr componentName => inr (Definition_ a componentName)
        end
    end in
  match r with
  | inl e =>
      (inl (CompilationFailed e),
       MkCompiler (maxRenderDepth c) (renderDepth c) (compilationErrors c ++ [e]))
  | inr d => (inr d, c)
  end.


End WithNumber.

End Compiler.

(** ** Instances with integer numbers *)

Module Examples.

Import Value Reactive.

Local Open Scope Z_scope.

(** [===] on the values of the examples: numbers, strings, booleans,
    [null] and [undefined] are compared by value; two objects are taken to
    be two references. *)
Definition strict_eq_Z (a b : value Z) : bool :=
  match a, b with
  | VUndefined, VUndefined | VNull, VNull => true
  | VBool x, VBool y => Bool.eqb x y
  | VNum x, VNum y => Z.eqb x y
  | VStr x, VStr y => String.eqb x y
  | _, _ => false
  end.

(** [a + b] on numbers. *)
Definition num_add (a b : value Z) : value Z :=
  match a, b with
  | VNum x, VNum y => VNum (x + y)
  | _, _ => VUndefined
  end.

(** [() => state.data.a + state.data.b], the compute function of the test
    "should support computed properties"; with [viaProxy] the two reads go
    through the proxy of [createProxy]. *)
Definition sum_fn (viaProxy : bool) : @cfn Z :=
  CRead viaProxy "a" (fun a => CRead viaProxy "b" (fun b => CRet (num_add a b))).

(** The steps of that test: the state [{a: 5, b: 10}], [computed('sum', ...)],
    a first read of [state.data.sum], [update('a', 20)], and the two
    microtasks that [update] leads to (its resumption and the flush). *)
Definition sum_state (viaProxy : bool) : @ReactiveState Z :=
  computed (new [("a", VNum 5); ("b", VNum 10)]) "sum" (sum_fn viaProxy).

Definition sum_after_update (viaProxy : bool) : @world Z :=
  steps 2
    (update (World (read (sum_state viaProxy) "sum").2 [] []) "a" (VNum 20)).2.

(** The rule that [setupStateValidation] adds for a numeric key whose name
    contains "age". *)
Definition age_rule : @rule Z :=
  Rule (fun val =>
          match val with
          | VNum n => if (0 <=? n) && (n <=? 150) then Pass else Fail
          | _ => Fail
          end)
    "Age must be between 0 and 150".

Definition age_world : @world Z :=
  World (addValidation (new [("age", VNum 30)]) "age" age_rule) [] [].

(** A state with one listener and nothing pending. *)
Definition counter_world : @world Z :=
  World (onChange (new [("a", VNum 0); ("b", VNum 0)]) 1%nat) [] [].

(** The input of the repository's test "should tokenize interpolations". *)
Definition template_example : string := "template { <div>{count}</div> }".

Definition template_example_tokens : list (@Lexer.token string) :=
  [Lexer.Token Lexer.TEMPLATE_BLOCK (Lexer.TVString "t") 1;
   Lexer.Token Lexer.IDENTIFIER (Lexer.TVString "emplate") 1;
   Lexer.Token Lexer.LEFT_BRACE (Lexer.TVString "{") 1;
   Lexer.Token Lexer.HTML_TAG (Lexer.TVString "<div>") 1;
   Lexer.Token Lexer.LEFT_BRACE (Lexer.TVString "{") 1;
   Lexer.Token Lexer.IDENTIFIER (Lexer.TVString "count") 1;
   Lexer.Token Lexer.RIGHT_BRACE (Lexer.TVString "}") 1;
   Lexer.Token Lexer.HTML_TAG (Lexer.TVString "</div>") 1;
   Lexer.Token Lexer.RIGHT_BRACE (Lexer.TVString "}") 1;
   Lexer.Token Lexer.EOF (Lexer.TVString "") 1].

(** The source [state { count: 0 }]: the keyword is scanned as a
    STATE_BLOCK token for its first letter and an IDENTIFIER for the rest,
    and [parseStateBlock] throws for want of a left brace. *)
Definition state_example_tokens : list (@Lexer.token string) :=
  [Lexer.Token Lexer.STATE_BLOCK (Lexer.TVString "s") 1;
   Lexer.Token Lexer.IDENTIFIER (Lexer.TVString "tate") 1;
   Lexer.Token Lexer.LEFT_BRACE (Lexer.TVString "{") 1;
   Lexer.Token Lexer.IDENTIFIER (Lexer.TVString "count") 1;
   Lexer.Token Lexer.COLON (Lexer.TVString ":") 1;
   Lexer.Token Lexer.NUMBER (Lexer.TVNumber "0") 1;
   Lexer.Token Lexer.RIGHT_BRACE (Lexer.TVString "}") 1;
   Lexer.Token Lexer.EOF (Lexer.TVString "") 1].


(** A source with a header and nothing else, and the source of the
    repository's test "should parse complete component" reduced to its
    header and its state block. *)
Definition header_only : string := "<component Counter.ezu>".

Definition header_and_state : string :=
  "<component Counter.ezu> state { count: 0 }".

(** The numbers of the lexer examples are kept as the text of the literal. *)
Definition parse_text (fuel : nat) (content : string)
  : Parser.outcome (Ast.ast string) :=
  Parser.parse (fun s => s) (fun s => s) fuel content.

(** A state whose one middleware refuses every write to [a]. *)
Definition locked_world : @world Z :=
  World (addMiddleware (new [("a", VNum 0); ("b", VNum 0)])
           (fun property _ _ _ =>
              if String.eqb property "a" then MwThrows (Raised "a is locked")
              else Unchanged))
    [] [].

(** The state of the test "should support computed properties" once [sum]
    has been read, and so cached. *)
Definition sum_cached (viaProxy : bool) : @world Z :=
  World (read (sum_state viaProxy) "sum").2 [] [].

(** A text of two lines: a comment, a line feed and an assignment. *)
Definition two_lines : string :=
  "// n" +:+ Lexer.str1 Lexer.LF +:+ "n = 1;".

Definition two_lines_tokens : list (@Lexer.token string) :=
  [Lexer.Token Lexer.IDENTIFIER (Lexer.TVString "n") 2;
   Lexer.Token Lexer.ASSIGN (Lexer.TVString "=") 2;
   Lexer.Token Lexer.NUMBER (Lexer.TVNumber "1") 2;
   Lexer.Token Lexer.SEMICOLON (Lexer.TVString ";") 2;
   Lexer.Token Lexer.EOF (Lexer.TVString "") 2].

End Examples.

(** * Properties *)

(** ** Loops *)

Section While.

Context {St : Type} (cond : St → bool) (body : St → option St).

(** A loop whose body leaves the state as it is, while the condition holds,
    never finishes. *)
Lemma while_stuck (s : St) :
  cond s = true → body s = Some s → ∀ fuel, while_ fuel cond body s = None.
Proof.
  intros Hc Hb fuel. induction fuel as [|n IH]; simpl; [done|].
  by rewrite Hc, Hb.
Qed.

Lemma while_diverges_step (s s' : St) :
  cond s = true → body s = Some s' →
  (∀ fuel, while_ fuel cond body s' = None) →
  ∀ fuel, while_ fuel cond body s = None.
Proof.
  intros Hc Hb Hs' [|n]; simpl; [done|]. by rewrite Hc, Hb.
Qed.

(** What holds before a loop and is kept by its body holds after it, with
    the condition false. *)
Lemma while_invariant (P : St → Prop) (fuel : nat) (s r : St) :
  P s →
  (∀ s s', cond s = true → P s → body s = Some s' → P s') →
  while_ fuel cond body s = Some r →
  P r ∧ cond r = false.
Proof.
  intros Hs Hstep. revert s Hs.
  induction fuel as [|n IH]; intros s Hs; simpl; [done|].
  destruct (cond s) eqn:Hc.
  - destruct (body s) as [s'|] eqn:Hb; [|done].
    intros Hr. eapply IH; [|exact Hr]. eauto.
  - intros [= <-]. done.
Qed.

(** More fuel does not change the result of a loop that finishes. *)
Lemma while_fuel_mono (fuel fuel' : nat) (s r : St) :
  fuel ≤ fuel' →
  while_ fuel cond body s = Some r → while_ fuel' cond body s = Some r.
Proof.
  revert fuel' s. induction fuel as [|n IH]; intros fuel' s Hle; simpl; [done|].
  destruct fuel' as [|n']; [lia|]. simpl.
  destruct (cond s); [|done].
  destruct (body s) as [s'|]; [|done].
  apply IH. lia.
Qed.

End While.


Section WhileReturns.

Context {St : Type} (cond : St → bool) (body : St → option St)
  (inv : St → Prop) (measure : St → nat).

(** A loop whose body keeps an invariant and lowers a measure finishes
    within as many iterations as the measure allows. *)
Lemma while_returns (fuel : nat) (s : St) :
  (∀ s, inv s → cond s = true →
        ∃ s', body s = Some s' ∧ inv s' ∧ measure s' < measure s) →
  inv s → measure s < fuel →
  ∃ r, while_ fuel cond body s = Some r.
Proof.
  intros Hstep. revert s.
  induction fuel as [|n IH]; intros s Hs Hm; [lia|].
  cbn [while_]. destruct (cond s) eqn:Hc; [|by eexists].
  destruct (Hstep s Hs Hc) as (s' & -> & Hs' & Hlt).
  apply IH; [done|lia].
Qed.

End WhileReturns.
(** ** The lexer *)

Module LexerProofs.

Import Lexer.

Section WithNumber.

Context {number : Type} (parseFloat : string → number).

Abbreviation lexer := (@Lexer.lexer number).
Abbreviation token := (@Lexer.token number).

(** On a character that no branch of [scanToken] recognises, [scanOperator]
    adds a TEXT token and leaves the cursor where it is. *)
Lemma scanToken_unknown_char (fuel : nat) (toks : list token) :
  scanToken parseFloat fuel (MkLexer "@" 0 toks)
  = Some (MkLexer "@" 0 (toks ++ [Token TEXT (TVString "@") 1])).
Proof. reflexivity. Qed.

Lemma main_loop_unknown_char (fuel n : nat) (toks : list token) :
  while_ n (fun st : lexer => position st <? String.length (content st))
    (scanToken parseFloat fuel) (MkLexer "@" 0 toks) = None.
Proof.
  revert toks. induction n as [|n IH]; intros toks; [done|].
  cbn [while_]. rewrite scanToken_unknown_char.
  change (position (MkLexer "@" 0 toks) <? String.length (content (MkLexer "@" 0 toks)))
    with true.
  cbv iota. apply IH.
Qed.

(** The first loop of [scanComponentDeclaration] tests for a space and for
    [>] only: at the end of the input neither is found and [advance] does
    nothing. *)
Lemma component_header_loop (fuel : nat) (toks : list token) :
  while_ fuel
    (fun st : lexer => negb (Ascii.eqb (getCurrentChar st) " ")
                       && negb (Ascii.eqb (getCurrentChar st) ">"))
    adv (MkLexer "<component" 1 toks) = None.
Proof.
  revert fuel.
  do 9 (eapply while_diverges_step; [reflexivity | reflexivity |]).
  apply while_stuck; reflexivity.
Qed.

Lemma scanToken_component_header (fuel : nat) (toks : list token) :
  scanToken parseFloat fuel (MkLexer "<component" 0 toks) = None.
Proof.
  change (scanToken parseFloat fuel (MkLexer "<component" 0 toks))
    with (scanComponentDeclaration fuel (MkLexer "<component" 0 toks)).
  unfold scanComponentDeclaration.
  change (advance (MkLexer "<component" 0 toks)) with (MkLexer "<component" 1 toks).
  by rewrite component_header_loop.
Qed.

(** C1 (code defect).  [tokenize] does not return on the one-character
    input [@], nor on the input [<component]: whatever the fuel, the model
    runs out of it.  On [@] the main loop adds TEXT tokens for ever without
    moving the cursor; on [<component] the first loop of
    [scanComponentDeclaration] never leaves the end of the input. *)
Theorem tokenize_does_not_return (fuel : nat) :
  tokenize parseFloat fuel "@" = None
  ∧ tokenize parseFloat fuel "<component" = None.
Proof.
  split; unfold tokenize.
  - by rewrite main_loop_unknown_char.
  - destruct fuel as [|n]; [done|].
    cbn [while_].
    change (position (MkLexer "<component" 0 []) <? String.length (content (MkLexer (number:=number) "<component" 0 [])))
      with true.
    cbv iota. by rewrite scanToken_component_header.
Qed.

(** [scanOperator] on a character that is no operator: a TEXT token is
    added and the cursor does not move, so the main loop meets the same
    character again. *)
Lemma scanOperator_unknown_keeps_cursor (st : lexer) :
  operators (getCurrentChar st) = None →
  scanOperator st
  = MkLexer (content st) (position st)
      (tokens st ++ [Token TEXT (TVString (str1 (getCurrentChar st)))
                       (getCurrentLine st)]).
Proof.
  intros Hop. unfold scanOperator.
  destruct (Ascii.eqb (getCurrentChar st) "+") eqn:E1.
  { apply Ascii.eqb_eq in E1. by rewrite E1 in Hop. }
  destruct (Ascii.eqb (getCurrentChar st) "-") eqn:E2.
  { apply Ascii.eqb_eq in E2. by rewrite E2 in Hop. }
  destruct (Ascii.eqb (getCurrentChar st) "=") eqn:E3.
  { apply Ascii.eqb_eq in E3. by rewrite E3 in Hop. }
  destruct (Ascii.eqb (getCurrentChar st) "!") eqn:E4.
  { apply Ascii.eqb_eq in E4. by rewrite E4 in Hop. }
  cbn [andb]. by rewrite Hop.
Qed.

(** *** No INTERPOLATION token is ever produced *)

Lemma tokens_advance (st : lexer) : tokens (advance st) = tokens st.
Proof. unfold advance. by destruct (isAtEnd st). Qed.

Lemma no_interpolation_push (st : lexer) ty v :
  ty ≠ INTERPOLATION → no_interpolation (tokens st) →
  no_interpolation (tokens (push st ty v)).
Proof.
  intros Hty H. unfold push, no_interpolation in *. cbn.
  apply Forall_app. split; [done|]. by repeat constructor.
Qed.

Lemma no_interpolation_addToken (st : lexer) ty v :
  ty ≠ INTERPOLATION → no_interpolation (tokens st) →
  no_interpolation (tokens (addToken st ty v)).
Proof.
  intros Hty H. destruct v; cbn [addToken];
    apply no_interpolation_push; rewrite ?tokens_advance; done.
Qed.

(** A loop whose body keeps the tokens keeps the tokens; [proj] reads the
    lexer off the loop state. *)
Lemma while_keeps_tokens {St : Type} (proj : St → lexer) (cond : St → bool)
  (body : St → option St) (fuel : nat) (s r : St) :
  (∀ s s', body s = Some s' → tokens (proj s') = tokens (proj s)) →
  while_ fuel cond body s = Some r →
  tokens (proj r) = tokens (proj s).
Proof.
  intros Hbody H.
  eapply (while_invariant cond body (fun x => tokens (proj x) = tokens (proj s)))
    in H as [H _]; [done|done|].
  intros a b _ Ha Hb. by rewrite (Hbody a b Hb).
Qed.

Lemma adv_keeps_tokens (s s' : lexer) : adv s = Some s' → tokens s' = tokens s.
Proof. intros [= <-]. apply tokens_advance. Qed.

Lemma skipLineComment_tokens fuel (st st' : lexer) :
  skipLineComment fuel st = Some st' → tokens st' = tokens st.
Proof.
  unfold skipLineComment.
  apply (while_keeps_tokens id). apply adv_keeps_tokens.
Qed.

Lemma skipBlockComment_tokens fuel (st st' : lexer) :
  skipBlockComment fuel st = Some st' → tokens st' = tokens st.
Proof.
  unfold skipBlockComment. intros H.
  destruct (while_ _ _ _ _) as [[r b]|] eqn:Hw; [|done].
  injection H as <-.
  apply (while_keeps_tokens fst) in Hw.
  - cbn in Hw. by rewrite Hw, !tokens_advance.
  - intros [a ?] [a' ?]. cbn. intros Hb.
    destruct (_ && _); injection Hb as <- <-; by rewrite ?tokens_advance.
Qed.

Ltac add_token :=
  first [apply no_interpolation_addToken | apply no_interpolation_push];
  rewrite ?tokens_advance; try done.

Lemma scanComponentDeclaration_no_interpolation fuel (st st' : lexer) :
  scanComponentDeclaration fuel st = Some st' →
  no_interpolation (tokens st) → no_interpolation (tokens st').
Proof.
  unfold scanComponentDeclaration. intros H Hinv.
  destruct (while_ _ _ _ _) as [s1|] eqn:H1; [|done]. cbn [mbind option_bind] in H.
  destruct (while_ _ _ _ s1) as [s2|] eqn:H2; [|done]. cbn [mbind option_bind] in H.
  destruct (while_ _ _ _ s2) as [s3|] eqn:H3; [|done]. cbn [mbind option_bind] in H.
  destruct (while_ _ _ _ s3) as [s4|] eqn:H4; [|done]. cbn [mbind option_bind] in H.
  injection H as <-.
  apply (while_keeps_tokens id _ _ _ _ _ adv_keeps_tokens) in H1, H2, H3, H4.
  cbn in H1, H2, H3, H4.
  add_token.
  destruct (Ascii.eqb _ _); rewrite ?tokens_advance;
    rewrite H4, H3, H2, H1, tokens_advance; done.
Qed.

Lemma scanHtmlTag_no_interpolation fuel (st st' : lexer) :
  scanHtmlTag fuel st = Some st' →
  no_interpolation (tokens st) → no_interpolation (tokens st').
Proof.
  unfold scanHtmlTag. intros H Hinv.
  destruct (Ascii.eqb (getCurrentChar (advance st)) "/").
  - destruct (while_ _ _ _ _) as [s1|] eqn:H1; [|done]. cbn [mbind option_bind] in H.
    injection H as <-.
    apply (while_keeps_tokens id _ _ _ _ _ adv_keeps_tokens) in H1. cbn in H1.
    add_token.
    destruct (Ascii.eqb _ _); rewrite ?tokens_advance;
      rewrite H1, !tokens_advance; done.
  - destruct (while_ _ _ _ _) as [[[s1 b] q]|] eqn:H1; [|done]. cbn [mbind option_bind] in H.
    injection H as <-.
    apply (while_keeps_tokens (fun x => x.1.1)) in H1.
    + cbn in H1. add_token.
      destruct (Ascii.eqb _ _); rewrite ?tokens_advance;
        rewrite H1, tokens_advance; done.
    + intros [[a ?] ?] [[a' ?] ?]. cbn. intros Hb.
      repeat case_match; simplify_eq; by rewrite tokens_advance.
Qed.

Lemma scanString_no_interpolation fuel (st st' : lexer) :
  scanString fuel st = Some st' →
  no_interpolation (tokens st) → no_interpolation (tokens st').
Proof.
  unfold scanString. intros H Hinv.
  destruct (while_ _ _ _ _) as [s1|] eqn:H1; [|done]. cbn [mbind option_bind] in H.
  injection H as <-.
  apply (while_keeps_tokens id) in H1.
  - cbn in H1. add_token.
    by rewrite H1, tokens_advance.
  - intros a a'. cbn. intros [= <-].
    destruct (Ascii.eqb _ _); by rewrite !tokens_advance.
Qed.

Lemma scanIdentifier_no_interpolation fuel (st st' : lexer) :
  scanIdentifier fuel st = Some st' →
  no_interpolation (tokens st) → no_interpolation (tokens st').
Proof.
  unfold scanIdentifier. intros H Hinv.
  destruct (while_ _ _ _ _) as [s1|] eqn:H1; [|done]. cbn [mbind option_bind] in H.
  injection H as <-.
  apply (while_keeps_tokens id _ _ _ _ _ adv_keeps_tokens) in H1. cbn in H1.
  add_token. by rewrite H1.
Qed.

Lemma scanNumber_no_interpolation fuel (st st' : lexer) :
  scanNumber parseFloat fuel st = Some st' →
  no_interpolation (tokens st) → no_interpolation (tokens st').
Proof.
  unfold scanNumber. intros H Hinv.
  destruct (while_ _ _ _ _) as [s1|] eqn:H1; [|done]. cbn [mbind option_bind] in H.
  apply (while_keeps_tokens id _ _ _ _ _ adv_keeps_tokens) in H1. cbn in H1.
  destruct (_ && _).
  - destruct (while_ _ _ _ _) as [s2|] eqn:H2; [|done]. cbn [mbind option_bind] in H.
    injection H as <-.
    apply (while_keeps_tokens id _ _ _ _ _ adv_keeps_tokens) in H2. cbn in H2.
    add_token.
    by rewrite H2, tokens_advance, H1.
  - cbn [mbind option_bind] in H. injection H as <-.
    add_token. by rewrite H1.
Qed.

Lemma scanOperator_no_interpolation (st : lexer) :
  no_interpolation (tokens st) → no_interpolation (tokens (scanOperator st)).
Proof.
  intros Hinv. unfold scanOperator.
  repeat case_match;
    add_token; rewrite ?tokens_advance; try done.
  unfold operators in *. repeat case_match; by simplify_eq.
Qed.

(** The test for the interpolation branch comes after the branch that turns
    every left brace into LEFT_BRACE, so [scanInterpolation] is never
    called. *)
Lemma scanToken_no_interpolation fuel (st st' : lexer) :
  scanToken parseFloat fuel st = Some st' →
  no_interpolation (tokens st) → no_interpolation (tokens st').
Proof.
  unfold scanToken. intros H Hinv.
  destruct (isWhitespace _).
  { injection H as <-. by rewrite tokens_advance. }
  destruct (_ && _).
  { by rewrite (skipLineComment_tokens _ _ _ H). }
  destruct (_ && _).
  { by rewrite (skipBlockComment_tokens _ _ _ H). }
  destruct (Ascii.eqb _ "<").
  { destruct (Js.startsWith _ _);
      eauto using scanComponentDeclaration_no_interpolation,
        scanHtmlTag_no_interpolation. }
  do 4 (destruct (matchKeyword _ _);
        [injection H as <-; by add_token|]).
  destruct (Ascii.eqb (getCurrentChar st) "{") eqn:Hbrace.
  { injection H as <-. by add_token. }
  destruct (Ascii.eqb (getCurrentChar st) "}");
    [injection H as <-; by add_token|].
  destruct (Ascii.eqb (getCurrentChar st) "(");
    [injection H as <-; by add_token|].
  destruct (Ascii.eqb (getCurrentChar st) ")");
    [injection H as <-; by add_token|].
  destruct (_ || _); [by eauto using scanString_no_interpolation|].
  cbn [andb] in H.
  destruct (isAlpha _); [by eauto using scanIdentifier_no_interpolation|].
  destruct (isDigit _); [by eauto using scanNumber_no_interpolation|].
  injection H as <-. by apply scanOperator_no_interpolation.
Qed.

(** C8 (code defect).  Whatever the input, the stream that [tokenize]
    returns holds no INTERPOLATION token: a left brace is always scanned as
    LEFT_BRACE, inside a template block as elsewhere. *)
Theorem tokenize_never_interpolation (fuel : nat) (text : string)
  (toks : list token) :
  tokenize parseFloat fuel text = Some toks →
  Forall (fun t => type t ≠ INTERPOLATION) toks.
Proof.
  unfold tokenize. intros H.
  destruct (while_ _ _ _ _) as [st|] eqn:Hw; [|done].
  injection H as <-.
  apply (no_interpolation_push st); [done|].
  eapply (while_invariant _ _ (fun s => no_interpolation (tokens s))) in Hw
    as [Hw _]; [done|by constructor|].
  intros s s' _ Hs Hb. by eapply scanToken_no_interpolation.
Qed.

(** When [tokenize] returns, the stream is not empty and ends with EOF. *)
Lemma tokenize_ends_with_EOF (fuel : nat) (text : string) (toks : list token) :
  tokenize parseFloat fuel text = Some toks →
  ∃ init l, toks = init ++ [Token EOF (TVString "") l].
Proof.
  unfold tokenize. intros H.
  destruct (while_ _ _ _ _) as [st|]; [|done].
  injection H as <-. by eexists _, _.
Qed.


(** *** What one call of [scanToken] does to the lexer *)

Lemma skipped_refl (st : lexer) : skipped st st.
Proof. by repeat split. Qed.

Lemma skipped_trans (a b c : lexer) : skipped a b → skipped b c → skipped a c.
Proof.
  intros (Hc1 & Hp1 & Ht1) (Hc2 & Hp2 & Ht2).
  repeat split; [congruence|lia|congruence].
Qed.

Lemma skipped_advance (st : lexer) : skipped st (advance st).
Proof.
  unfold advance. destruct (isAtEnd st); repeat split; cbn; lia.
Qed.

Lemma skipped_advance_after (st s : lexer) : skipped st s → skipped st (advance s).
Proof. intros H. eapply skipped_trans; [exact H|apply skipped_advance]. Qed.

Lemma while_skipped {St : Type} (proj : St → lexer) (cond : St → bool)
  (body : St → option St) (fuel : nat) (s r : St) :
  (∀ s s', body s = Some s' → skipped (proj s) (proj s')) →
  while_ fuel cond body s = Some r →
  skipped (proj s) (proj r).
Proof.
  intros Hbody H.
  eapply (while_invariant cond body (fun x => skipped (proj s) (proj x)))
    in H as [H _]; [done|apply skipped_refl|].
  intros a b _ Ha Hb. eapply skipped_trans; [exact Ha|by apply Hbody].
Qed.

Lemma adv_skipped (s s' : lexer) : adv s = Some s' → skipped s s'.
Proof. intros [= <-]. apply skipped_advance. Qed.

Lemma while_adv_skipped (cond : lexer → bool) (fuel : nat) (s r : lexer) :
  while_ fuel cond adv s = Some r → skipped s r.
Proof. apply (while_skipped id). apply adv_skipped. Qed.

Lemma push_emitted (st s : lexer) ty v :
  skipped st s → emitted st (push s ty v) ty.
Proof.
  intros (Hc & Hp & Ht). unfold emitted, push. cbn.
  split_and!; [done|done|]. exists v. by rewrite Ht.
Qed.

Lemma addToken_emitted (st s : lexer) ty v :
  skipped st s → emitted st (addToken s ty v) ty.
Proof.
  intros H. destruct v; cbn [addToken]; apply push_emitted; [done|].
  by apply skipped_advance_after.
Qed.

Ltac emit := first [apply addToken_emitted | apply push_emitted].

Lemma scanComponentDeclaration_emitted fuel (st st' : lexer) :
  scanComponentDeclaration fuel st = Some st' → emitted st st' COMPONENT.
Proof.
  unfold scanComponentDeclaration. intros H.
  destruct (while_ _ _ _ _) as [s1|] eqn:H1; [|done]. cbn [mbind option_bind] in H.
  destruct (while_ _ _ _ s1) as [s2|] eqn:H2; [|done]. cbn [mbind option_bind] in H.
  destruct (while_ _ _ _ s2) as [s3|] eqn:H3; [|done]. cbn [mbind option_bind] in H.
  destruct (while_ _ _ _ s3) as [s4|] eqn:H4; [|done]. cbn [mbind option_bind] in H.
  injection H as <-.
  apply while_adv_skipped in H1, H2, H3, H4.
  emit.
  assert (skipped st s4) as Hs.
  { eapply skipped_trans; [apply skipped_advance|].
    eauto using skipped_trans. }
  destruct (Ascii.eqb _ _); [by apply skipped_advance_after|done].
Qed.

Lemma scanHtmlTag_emitted fuel (st st' : lexer) :
  scanHtmlTag fuel st = Some st' → emitted st st' HTML_TAG.
Proof.
  unfold scanHtmlTag. intros H.
  destruct (Ascii.eqb (getCurrentChar (advance st)) "/").
  - destruct (while_ _ _ _ _) as [s1|] eqn:H1; [|done]. cbn [mbind option_bind] in H.
    injection H as <-.
    apply while_adv_skipped in H1.
    assert (skipped st s1) as Hs.
    { eapply skipped_trans; [|exact H1]. apply skipped_advance_after, skipped_advance. }
    emit.
    destruct (Ascii.eqb _ _); [by apply skipped_advance_after|done].
  - destruct (while_ _ _ _ _) as [[[s1 b] q]|] eqn:H1; [|done]. cbn [mbind option_bind] in H.
    injection H as <-.
    apply (while_skipped (fun x => x.1.1)) in H1.
    + cbn in H1.
      assert (skipped st s1) as Hs.
      { eapply skipped_trans; [|exact H1]. apply skipped_advance. }
      emit.
      destruct (Ascii.eqb _ _); [by apply skipped_advance_after|done].
    + intros [[a ?] ?] [[a' ?] ?]. cbn. intros Hb.
      repeat case_match; simplify_eq; apply skipped_advance.
Qed.

Lemma scanString_emitted fuel (st st' : lexer) :
  scanString fuel st = Some st' → emitted st st' STRING.
Proof.
  unfold scanString. intros H.
  destruct (while_ _ _ _ _) as [s1|] eqn:H1; [|done]. cbn [mbind option_bind] in H.
  injection H as <-.
  apply (while_skipped id) in H1.
  - cbn in H1. emit; apply skipped_advance_after.
    eapply skipped_trans; [apply skipped_advance|exact H1].
  - intros a a'. cbn. intros [= <-].
    destruct (Ascii.eqb _ _); repeat apply skipped_advance_after;
      apply skipped_refl.
Qed.

Lemma scanIdentifier_emitted fuel (st st' : lexer) :
  scanIdentifier fuel st = Some st' → emitted st st' IDENTIFIER.
Proof.
  unfold scanIdentifier. intros H.
  destruct (while_ _ _ _ _) as [s1|] eqn:H1; [|done]. cbn [mbind option_bind] in H.
  injection H as <-.
  apply while_adv_skipped in H1. by emit.
Qed.

Lemma scanNumber_emitted fuel (st st' : lexer) :
  scanNumber parseFloat fuel st = Some st' → emitted st st' NUMBER.
Proof.
  unfold scanNumber. intros H.
  destruct (while_ _ _ _ _) as [s1|] eqn:H1; [|done]. cbn [mbind option_bind] in H.
  apply while_adv_skipped in H1.
  destruct (_ && _).
  - destruct (while_ _ _ _ _) as [s2|] eqn:H2; [|done]. cbn [mbind option_bind] in H.
    injection H as <-.
    apply while_adv_skipped in H2.
    emit.
    eapply skipped_trans; [exact H1|].
    eapply skipped_trans; [apply skipped_advance|exact H2].
  - cbn [mbind option_bind] in H. injection H as <-.
    by emit.
Qed.

Lemma operators_type (c : ascii) (ty : token_type) :
  operators c = Some ty → is_block ty = false ∧ ty ≠ EOF ∧ ty ≠ INTERPOLATION.
Proof.
  unfold operators. intros H. repeat case_match; by simplify_eq.
Qed.

Lemma scanOperator_emitted (st : lexer) :
  ∃ ty, emitted st (scanOperator st) ty
        ∧ is_block ty = false ∧ ty ≠ EOF ∧ ty ≠ INTERPOLATION.
Proof.
  unfold scanOperator.
  destruct (_ && _).
  { exists INCREMENT. split; [|done].
    emit; apply skipped_advance_after, skipped_advance. }
  destruct (_ && _).
  { exists DECREMENT. split; [|done].
    emit; apply skipped_advance_after, skipped_advance. }
  destruct (_ && _).
  { exists EQUAL. split; [|done].
    emit; apply skipped_advance_after, skipped_advance. }
  destruct (_ && _).
  { exists NOT_EQUAL. split; [|done].
    emit; apply skipped_advance_after, skipped_advance. }
  destruct (operators _) as [ty|] eqn:Hop.
  - exists ty. split; [emit; first [apply skipped_refl | apply skipped_advance]|].
    by eapply operators_type.
  - exists TEXT. split; [emit; first [apply skipped_refl | apply skipped_advance]|done].
Qed.

Lemma skipLineComment_skipped fuel (st st' : lexer) :
  skipLineComment fuel st = Some st' → skipped st st'.
Proof. apply while_adv_skipped. Qed.

Lemma skipBlockComment_skipped fuel (st st' : lexer) :
  skipBlockComment fuel st = Some st' → skipped st st'.
Proof.
  unfold skipBlockComment. intros H.
  destruct (while_ _ _ _ _) as [[r b]|] eqn:Hw; [|done].
  injection H as <-.
  apply (while_skipped fst) in Hw.
  - cbn in Hw. eapply skipped_trans; [|exact Hw].
    apply skipped_advance_after, skipped_advance.
  - intros [a ?] [a' ?]. cbn. intros Hb.
    destruct (_ && _); injection Hb as <- <-;
      repeat apply skipped_advance_after; apply skipped_refl.
Qed.

(** One call of [scanToken] adds no token or one, never moves the cursor
    back and keeps the text. *)
Lemma scanToken_emits fuel (st st' : lexer) :
  scanToken parseFloat fuel st = Some st' →
  skipped st st' ∨ ∃ ty, emitted st st' ty ∧ branch_of st st' ty.
Proof.
  unfold scanToken. intros H.
  destruct (isWhitespace _).
  { injection H as <-. left. apply skipped_advance. }
  destruct (_ && _).
  { left. by eapply skipLineComment_skipped. }
  destruct (_ && _).
  { left. by eapply skipBlockComment_skipped. }
  destruct (Ascii.eqb _ "<").
  { right. destruct (Js.startsWith _ _).
    - exists COMPONENT. split; [by eapply scanComponentDeclaration_emitted|done].
    - exists HTML_TAG. split; [by eapply scanHtmlTag_emitted|done]. }
  destruct (matchKeyword st "style") eqn:K1.
  { injection H as <-. right. exists STYLE_BLOCK.
    split; [emit; first [apply skipped_refl | apply skipped_advance]|done]. }
  destruct (matchKeyword st "state") eqn:K2.
  { injection H as <-. right. exists STATE_BLOCK.
    split; [emit; first [apply skipped_refl | apply skipped_advance]|done]. }
  destruct (matchKeyword st "template") eqn:K3.
  { injection H as <-. right. exists TEMPLATE_BLOCK.
    split; [emit; first [apply skipped_refl | apply skipped_advance]|done]. }
  destruct (matchKeyword st "props") eqn:K4.
  { injection H as <-. right. exists PROPS_BLOCK.
    split; [emit; first [apply skipped_refl | apply skipped_advance]|done]. }
  destruct (Ascii.eqb (getCurrentChar st) "{") eqn:Hbrace.
  { injection H as <-. right. exists LEFT_BRACE.
    split; [emit; first [apply skipped_refl | apply skipped_advance]|done]. }
  destruct (Ascii.eqb (getCurrentChar st) "}").
  { injection H as <-. right. exists RIGHT_BRACE.
    split; [emit; first [apply skipped_refl | apply skipped_advance]|done]. }
  destruct (Ascii.eqb (getCurrentChar st) "(").
  { injection H as <-. right. exists LEFT_PAREN.
    split; [emit; first [apply skipped_refl | apply skipped_advance]|done]. }
  destruct (Ascii.eqb (getCurrentChar st) ")").
  { injection H as <-. right. exists RIGHT_PAREN.
    split; [emit; first [apply skipped_refl | apply skipped_advance]|done]. }
  destruct (_ || _).
  { right. exists STRING. split; [by eapply scanString_emitted|done]. }
  cbn [andb] in H.
  destruct (isAlpha _).
  { right. exists IDENTIFIER. split; [by eapply scanIdentifier_emitted|done]. }
  destruct (isDigit _).
  { right. exists NUMBER. split; [by eapply scanNumber_emitted|done]. }
  injection H as <-. right.
  destruct (scanOperator_emitted st) as (ty & He & Hb & He1 & He2).
  exists ty. split; [done|]. by destruct ty.
Qed.

(** *** The block keywords *)

Lemma get_None (s : string) (n : nat) :
  String.get n s = None ↔ String.length s ≤ n.
Proof.
  revert n. induction s as [|a s IH]; intros [|n]; cbn; try (split; [lia|done]).
  - split; [done|lia].
  - rewrite IH. lia.
Qed.

Lemma get_Some_lt (s : string) (n : nat) (c : ascii) :
  String.get n s = Some c → n < String.length s.
Proof.
  intros H. destruct (decide (n < String.length s)) as [|Hn]; [done|].
  assert (String.get n s = None) as Hnone by (apply get_None; lia).
  congruence.
Qed.

(** Where a keyword matches, the text holds its characters, and one more
    character after them. *)
Lemma matchKeyword_get (st : lexer) (k : string) :
  matchKeyword st k = true →
  position st + String.length k < String.length (content st)
  ∧ ∀ i, i < String.length k →
         String.get (position st + i) (content st) = String.get i k.
Proof.
  unfold matchKeyword.
  destruct (_ <? _) eqn:Hlt; [done|]. apply Nat.ltb_ge in Hlt.
  intros [He Hn]%andb_prop. apply String.eqb_eq in He.
  apply negb_true_iff in Hn.
  split.
  - destruct (String.get _ _) as [c|] eqn:Hg; [|done].
    by apply get_Some_lt in Hg.
  - intros i Hi. rewrite <- (f_equal (String.get i) He). unfold Js.substring.
    rewrite (Nat.min_l (position st)) by lia.
    rewrite (Nat.min_l (position st + _)) by lia.
    rewrite Nat.min_l, Nat.max_r by lia.
    replace (position st + String.length k - position st) with (String.length k)
      by lia.
    rewrite String.substring_correct1 by done.
    f_equal. lia.
Qed.

Lemma getCurrentChar_get (st : lexer) (c : ascii) :
  String.get (position st) (content st) = Some c → getCurrentChar st = c.
Proof.
  intros H. unfold getCurrentChar, isAtEnd.
  pose proof (get_Some_lt _ _ _ H) as Hlt.
  destruct (_ <=? _) eqn:Hle; [apply Nat.leb_le in Hle; lia|].
  by rewrite H.
Qed.

(** What a letter at the cursor rules out. *)
Lemma isAlpha_other (c : ascii) :
  isAlpha c = true →
  isWhitespace c = false ∧ Ascii.eqb c "/" = false ∧ Ascii.eqb c "<" = false
  ∧ Ascii.eqb c "{" = false ∧ Ascii.eqb c "}" = false
  ∧ Ascii.eqb c "(" = false ∧ Ascii.eqb c ")" = false
  ∧ Ascii.eqb c DQUOTE = false ∧ Ascii.eqb c SQUOTE = false.
Proof.
  destruct c as [[] [] [] [] [] [] [] []]; vm_compute; intros H;
    try discriminate H; repeat split.
Qed.

(** On a letter where no block keyword matches, [scanToken] calls
    [scanIdentifier]. *)
Lemma scanToken_letter (fuel : nat) (st : lexer) :
  isAlpha (getCurrentChar st) = true →
  matchKeyword st "style" = false → matchKeyword st "state" = false →
  matchKeyword st "template" = false → matchKeyword st "props" = false →
  scanToken parseFloat fuel st = scanIdentifier fuel st.
Proof.
  intros Ha K1 K2 K3 K4. unfold scanToken.
  destruct (isAlpha_other _ Ha) as (-> & -> & -> & -> & -> & -> & -> & -> & ->).
  rewrite K1, K2, K3, K4, Ha. reflexivity.
Qed.

Lemma position_addToken (st : lexer) ty :
  position st < String.length (content st) →
  position (addToken st ty None) = S (position st)
  ∧ content (addToken st ty None) = content st.
Proof.
  intros Hlt. unfold addToken, push, advance, isAtEnd. cbn.
  destruct (_ <=? _) eqn:Hle; [apply Nat.leb_le in Hle; lia|]. done.
Qed.

(** After the token of a block keyword the cursor is on the second letter
    of the keyword, where no keyword matches: the rest of the keyword is
    scanned as an identifier. *)
Lemma keyword_then_identifier (st : lexer) (ty : token_type) :
  is_block ty = true → matchKeyword st (keyword_of ty) = true →
  identifier_next parseFloat (addToken st ty None).
Proof.
  intros Hb Hk. apply matchKeyword_get in Hk as [Hlen Hget].
  assert (position st < String.length (content st)) as Hlt by lia.
  destruct (position_addToken st ty Hlt) as [Hp Hc].
  assert (∃ c1 c2,
    String.get 1 (keyword_of ty) = Some c1 ∧ String.get 2 (keyword_of ty) = Some c2
    ∧ isAlpha c1 = true
    ∧ ∀ k, k ∈ ["style"; "state"; "template"; "props"] →
           ¬ (String.get 0 k = Some c1 ∧ String.get 1 k = Some c2))
    as (c1 & c2 & G1 & G2 & Ha & Hno).
  { destruct ty; try discriminate Hb; eexists _, _;
      (split_and!; [reflexivity|reflexivity|reflexivity|]);
      intros k Hin [E0 E1];
      repeat (apply elem_of_cons in Hin as [->|Hin]; [by cbn in *|]);
      by apply elem_of_nil in Hin. }
  assert (1 < String.length (keyword_of ty) ∧ 2 < String.length (keyword_of ty))
    as [L1 L2] by (split; eapply get_Some_lt; eassumption).
  assert (String.get (position (addToken st ty None)) (content (addToken st ty None))
          = Some c1) as P1.
  { rewrite Hp, Hc, <- G1, <- (Hget 1 L1). f_equal. lia. }
  assert (String.get (position (addToken st ty None) + 1)
            (content (addToken st ty None)) = Some c2) as P2.
  { rewrite Hp, Hc, <- G2, <- (Hget 2 L2). f_equal. lia. }
  assert (∀ k, k ∈ ["style"; "state"; "template"; "props"] →
               matchKeyword (addToken st ty None) k = false) as Hnone.
  { intros k Hin. destruct (matchKeyword _ k) eqn:Hm; [exfalso|done].
    apply matchKeyword_get in Hm as [_ Hm].
    assert (1 < String.length k) as Lk.
    { repeat (apply elem_of_cons in Hin as [->|Hin]; [cbn; lia|]).
      by apply elem_of_nil in Hin. }
    apply (Hno k Hin). split.
    - rewrite <- (Hm 0) by lia. rewrite Nat.add_0_r. exact P1.
    - rewrite <- (Hm 1) by lia. exact P2. }
  split.
  - rewrite Hp, Hc. lia.
  - intros fuel. apply scanToken_letter.
    + by rewrite (getCurrentChar_get _ _ P1).
    + apply Hnone. set_solver.
    + apply Hnone. set_solver.
    + apply Hnone. set_solver.
    + apply Hnone. set_solver.
Qed.

Lemma scanToken_blocks fuel (st st' : lexer) :
  blocks_split parseFloat st → scanToken parseFloat fuel st = Some st' →
  blocks_split parseFloat st'.
Proof.
  intros Hinv Hs i t Hi Hb.
  destruct (scanToken_emits _ _ _ Hs)
    as [(Hc & Hp & Ht) | (ty & (Hc & Hp & v & Ht) & Hbr)].
  - rewrite Ht in Hi. destruct (Hinv i t Hi Hb) as [Hv [Hf | [Hlast Hnext]]].
    + split; [done|]. left. by rewrite Ht.
    + exfalso. destruct Hnext as [_ Hnext]. rewrite Hnext in Hs.
      apply scanIdentifier_emitted in Hs as (_ & _ & v & Ht').
      rewrite Ht in Ht'. apply (f_equal length) in Ht'.
      rewrite length_app in Ht'. cbn in Ht'. lia.
  - rewrite Ht in Hi. destruct (decide (i < length (tokens st))) as [Hlt|Hge].
    + rewrite lookup_app_l in Hi by done.
      destruct (Hinv i t Hi Hb) as [Hv [Hf | [Hlast Hnext]]].
      * split; [done|]. left. destruct Hf as (t' & Hf & Hty).
        exists t'. split; [|done]. rewrite Ht. by apply lookup_app_l_Some.
      * split; [done|]. left. destruct Hnext as [_ Hnext]. rewrite Hnext in Hs.
        apply scanIdentifier_emitted in Hs as (_ & _ & v' & Ht').
        rewrite Ht'. eexists. split; [by apply list_lookup_middle|done].
    + rewrite lookup_app_r in Hi by lia.
      destruct (i - length (tokens st)) as [|n] eqn:Hn; [|done].
      injection Hi as <-. cbn [type value] in *.
      assert (matchKeyword st (keyword_of ty) = true
              ∧ st' = addToken st ty None) as [Hk ->]
        by (by destruct ty).
      split.
      * cbn [addToken push tokens] in Ht. rewrite tokens_advance in Ht.
        apply app_inj_tail in Ht as [_ Ht]. injection Ht as <-.
        pose proof (matchKeyword_get _ _ Hk) as [_ Hget].
        assert (0 < String.length (keyword_of ty)) as L0 by (destruct ty; cbn in *; done || lia).
        specialize (Hget 0 L0). rewrite Nat.add_0_r in Hget.
        destruct ty; try discriminate Hb; cbn in Hget;
          by rewrite (getCurrentChar_get _ _ Hget).
      * right. split; [|by apply keyword_then_identifier].
        rewrite Ht, length_app. cbn. lia.
Qed.

(** When the main loop ends no identifier is still to come. *)
Lemma main_loop_blocks (fuel n : nat) (text : string) (st : lexer) :
  while_ n (fun st => position st <? String.length (content st))
    (scanToken parseFloat fuel) (MkLexer text 0 []) = Some st →
  ∀ i t, tokens st !! i = Some t → is_block (type t) = true →
    value t = TVString (String.substring 0 1 (keyword_of (type t)))
    ∧ ∃ t', tokens st !! S i = Some t' ∧ type t' = IDENTIFIER.
Proof.
  intros Hw.
  eapply (while_invariant _ _ (blocks_split parseFloat)) in Hw as [Hinv Hc].
  - intros i t Hi Hb. destruct (Hinv i t Hi Hb) as [Hv [Hf | [_ [Hlt _]]]].
    + done.
    + apply Nat.ltb_ge in Hc. lia.
  - intros i t Hi. cbn in Hi. by rewrite lookup_nil in Hi.
  - intros s s' _ Hs Hb. by eapply scanToken_blocks.
Qed.

(** The stream that [tokenize] returns: an IDENTIFIER token follows every
    token of a block keyword. *)
Lemma tokenize_block_then_identifier (fuel : nat) (text : string)
  (toks : list token) :
  tokenize parseFloat fuel text = Some toks →
  ∀ i t, toks !! i = Some t → is_block (type t) = true →
    ∃ t', toks !! S i = Some t' ∧ type t' = IDENTIFIER.
Proof.
  unfold tokenize. intros H i t Hi Hb.
  destruct (while_ _ _ _ _) as [st|] eqn:Hw; [|done].
  injection H as <-. cbn [push tokens] in *.
  destruct (decide (i < length (tokens st))) as [Hlt|Hge].
  - rewrite lookup_app_l in Hi by done.
    destruct (main_loop_blocks _ _ _ _ Hw i t Hi Hb) as (_ & t' & Hf & Hty).
    exists t'. split; [by apply lookup_app_l_Some|done].
  - rewrite lookup_app_r in Hi by lia.
    destruct (i - length (tokens st)); [|done].
    injection Hi as <-. done.
Qed.


(** *** The lines of the tokens *)

Lemma count_newlines_mono (s : string) (n m : nat) :
  n ≤ m → count_newlines n s ≤ count_newlines m s.
Proof.
  revert n m. induction s as [|a s IH]; intros [|n] [|m] Hle; cbn; try lia.
  specialize (IH n m). lia.
Qed.

Lemma count_newlines_all (s : string) (n : nat) :
  String.length s ≤ n → count_newlines n s = line_feeds s.
Proof.
  unfold line_feeds. revert n. induction s as [|a s IH]; intros [|n] Hle; cbn in *;
    try done; try lia.
  rewrite (IH n) by lia. done.
Qed.

Lemma getCurrentLine_mono (st st' : lexer) :
  content st' = content st → position st ≤ position st' →
  getCurrentLine st ≤ getCurrentLine st'.
Proof.
  intros Hc Hp. unfold getCurrentLine. rewrite Hc.
  pose proof (count_newlines_mono (content st) _ _ Hp). lia.
Qed.

Lemma lines_ascend_snoc (toks : list token) (t0 : token) :
  lines_ascend toks → (∀ t, t ∈ toks → line t ≤ line t0) →
  lines_ascend (toks ++ [t0]).
Proof.
  intros Hs Hle i j t u Hij Hi Hj.
  destruct (decide (j < length toks)) as [Hlt|Hge].
  - rewrite lookup_app_l in Hi, Hj by lia. exact (Hs i j t u Hij Hi Hj).
  - rewrite lookup_app_r in Hj by lia.
    destruct (j - length toks); [|done]. injection Hj as <-.
    destruct (decide (i < length toks)) as [Hlt|Hge'].
    + rewrite lookup_app_l in Hi by lia.
      apply Hle. by eapply list_elem_of_lookup_2.
    + rewrite lookup_app_r in Hi by lia.
      destruct (i - length toks); [|done]. by injection Hi as <-.
Qed.

Lemma scanToken_lines fuel (st st' : lexer) :
  lines_kept st → scanToken parseFloat fuel st = Some st' → lines_kept st'.
Proof.
  intros [Hall Hs] H.
  destruct (scanToken_emits _ _ _ H)
    as [(Hc & Hp & Ht) | (ty & (Hc & Hp & v & Ht) & Hbr)].
  - pose proof (getCurrentLine_mono _ _ Hc Hp). split.
    + intros t Hin. rewrite Ht in Hin. destruct (Hall t Hin). split; [done|lia].
    + by rewrite Ht.
  - pose proof (getCurrentLine_mono _ _ Hc Hp) as Hl. unfold lines_kept.
    rewrite Ht. split.
    + intros t [Hin|Hin%list_elem_of_singleton]%elem_of_app.
      * destruct (Hall t Hin). split; [done|lia].
      * subst t. cbn. split; [by destruct ty|].
        unfold getCurrentLine. lia.
    + apply lines_ascend_snoc; [done|]. cbn [line].
      intros t Hin. destruct (Hall t Hin). lia.
Qed.

(** What the main loop keeps: the text and the invariant of the lines. *)
Lemma main_loop_lines (fuel n : nat) (text : string) (st : lexer) :
  while_ n (fun st => position st <? String.length (content st))
    (scanToken parseFloat fuel) (MkLexer text 0 []) = Some st →
  content st = text ∧ String.length text ≤ position st ∧ lines_kept st.
Proof.
  intros Hw.
  eapply (while_invariant _ _
            (fun s => content s = text ∧ lines_kept s)) in Hw
    as [[Hc Hk] Hend].
  - apply Nat.ltb_ge in Hend. rewrite Hc in Hend. done.
  - split; [done|]. split; [|by intros i j t u _ Hi; cbn in Hi; rewrite lookup_nil in Hi].
    intros t Hin. by apply elem_of_nil in Hin.
  - intros s s' _ [Hcs Hk] Hb. split; [|by eapply scanToken_lines].
    destruct (scanToken_emits _ _ _ Hb) as [(Hc' & _) | (ty & (Hc' & _) & _)];
      congruence.
Qed.

(** The stream that [tokenize] returns ends with its one EOF token. *)
Lemma tokenize_one_EOF (fuel : nat) (text : string) (toks : list token) :
  tokenize parseFloat fuel text = Some toks →
  ∃ init eof, toks = init ++ [eof] ∧ type eof = EOF
              ∧ Forall (fun t => type t ≠ EOF) init.
Proof.
  unfold tokenize. intros H.
  destruct (while_ _ _ _ _) as [st|] eqn:Hw; [|done].
  injection H as <-. cbn [push tokens].
  apply main_loop_lines in Hw as (_ & _ & Hall & _).
  eexists _, _. split_and!; [done|done|].
  apply Forall_forall. intros t Hin. by destruct (Hall t Hin).
Qed.

(** X2.  The stream that [tokenize] returns has one EOF token, the last; each
    token carries the line on which it ends (one more than the number of
    line feeds before the cursor when it is added): the lines start at 1,
    never decrease, and the line of EOF is that of the end of the text. *)
Theorem token_lines_ascend (fuel : nat) (text : string) (toks : list token) :
  tokenize parseFloat fuel text = Some toks →
  ∃ init,
    toks = init ++ [Token EOF (TVString "") (1 + line_feeds text)]
    ∧ Forall (fun t => type t ≠ EOF) init
    ∧ ∀ i j t u, i ≤ j → toks !! i = Some t → toks !! j = Some u →
                 1 ≤ line t ≤ line u.
Proof.
  unfold tokenize. intros H.
  destruct (while_ _ _ _ _) as [st|] eqn:Hw; [|done].
  injection H as <-. cbn [push tokens].
  apply main_loop_lines in Hw as (Hc & Hend & Hall & Hs).
  assert (getCurrentLine st = 1 + line_feeds text) as Hline.
  { unfold getCurrentLine. by rewrite Hc, count_newlines_all. }
  exists (tokens st). rewrite Hline. split_and!; [done| |].
  - apply Forall_forall. intros t Hin. by destruct (Hall t Hin).
  - intros i j t u Hij Hi Hj. split.
    + apply list_elem_of_lookup_2 in Hi.
      apply elem_of_app in Hi as [Hin|Hin%list_elem_of_singleton].
      * by destruct (Hall t Hin) as [_ [? _]].
      * subst t. cbn. lia.
    + refine (lines_ascend_snoc (tokens st) _ Hs _ i j t u Hij Hi Hj).
      cbn [line]. intros t' Hin. destruct (Hall t' Hin). lia.
Qed.

(** *** Texts on which [tokenize] returns *)

Lemma isAtEnd_false (st : lexer) :
  isAtEnd st = false ↔ position st < String.length (content st).
Proof. unfold isAtEnd. by rewrite Nat.leb_gt. Qed.

Lemma advance_moves (st : lexer) :
  isAtEnd st = false →
  position (advance st) = S (position st) ∧ content (advance st) = content st.
Proof. intros H. unfold advance. by rewrite H. Qed.

Lemma remaining_advance (st : lexer) : remaining (advance st) ≤ remaining st.
Proof.
  destruct (skipped_advance st) as (Hc & Hp & _). unfold remaining.
  rewrite Hc. lia.
Qed.

Lemma remaining_advance_lt (st : lexer) :
  isAtEnd st = false → remaining (advance st) < remaining st.
Proof.
  intros H. destruct (advance_moves st H) as [Hp Hc].
  apply isAtEnd_false in H. unfold remaining. rewrite Hp, Hc. lia.
Qed.

Lemma getCurrentChar_at_end (st : lexer) :
  isAtEnd st = true → getCurrentChar st = NUL.
Proof. intros H. unfold getCurrentChar. by rewrite H. Qed.

(** A loop of [advance] whose condition fails at the end of the text. *)
Lemma while_adv_returns (cond : lexer → bool) (fuel : nat) (st : lexer) :
  (∀ s, cond s = true → isAtEnd s = false) →
  remaining st < fuel →
  ∃ r, while_ fuel cond adv st = Some r.
Proof.
  intros Hcond Hm.
  apply (while_returns cond adv (fun _ => True) remaining); [|done|done].
  intros s _ Hc. exists (advance s). split_and!; [done|done|].
  by apply remaining_advance_lt, Hcond.
Qed.

(** A loop of [advance] that is entered moves the cursor. *)
Lemma while_adv_entered (cond : lexer → bool) (fuel : nat) (st r : lexer) :
  cond st = true → isAtEnd st = false →
  while_ fuel cond adv st = Some r →
  position st < position r.
Proof.
  intros Hc Hend H. destruct fuel as [|n]; [done|].
  cbn [while_] in H. rewrite Hc in H. cbn in H.
  apply while_adv_skipped in H as (_ & Hp & _).
  destruct (advance_moves st Hend) as [Hp' _]. lia.
Qed.

Lemma skipLineComment_returns (fuel : nat) (st : lexer) :
  remaining st < fuel → ∃ st', skipLineComment fuel st = Some st'.
Proof.
  intros Hm. apply while_adv_returns; [|done].
  intros s [_ H]%andb_prop. by apply negb_true_iff in H.
Qed.

Lemma skipBlockComment_returns (fuel : nat) (st : lexer) :
  remaining st < fuel → ∃ st', skipBlockComment fuel st = Some st'.
Proof.
  intros Hm. unfold skipBlockComment.
  destruct (while_returns
              (fun '(st, broke) => negb broke && negb (isAtEnd st))
              (fun '(st, _) =>
                 if Ascii.eqb (getCurrentChar st) "*" && Ascii.eqb (peek st) "/"
                 then Some (advance (advance st), true)
                 else Some (advance st, false))
              (fun _ => True) (fun x : lexer * bool => remaining x.1) fuel
              (advance (advance st), false)) as [r Hr].
  - intros [s b] _ [_ Hend%negb_true_iff]%andb_prop. cbn [fst].
    destruct (_ && _); eexists; (split_and!; [done|done|]); cbn [fst].
    + pose proof (remaining_advance (advance s)).
      pose proof (remaining_advance_lt s Hend). lia.
    + by apply remaining_advance_lt.
  - done.
  - cbn [fst]. pose proof (remaining_advance (advance st)).
    pose proof (remaining_advance st). lia.
  - rewrite Hr. by eexists.
Qed.

Lemma scanString_returns (fuel : nat) (st : lexer) :
  remaining st < fuel → ∃ st', scanString fuel st = Some st'.
Proof.
  intros Hm. unfold scanString. cbv zeta.
  match goal with
  | |- context [while_ fuel ?c ?b ?s] =>
      destruct (while_returns c b (fun _ => True) remaining fuel s) as [r Hr]
  end.
  - intros s _ [_ Hend%negb_true_iff]%andb_prop.
    eexists. split_and!; [done|done|].
    destruct (Ascii.eqb _ _).
    + pose proof (remaining_advance (advance s)).
      pose proof (remaining_advance_lt s Hend). lia.
    + by apply remaining_advance_lt.
  - done.
  - pose proof (remaining_advance st). lia.
  - rewrite Hr. by eexists.
Qed.

Lemma scanIdentifier_returns (fuel : nat) (st : lexer) :
  remaining st < fuel → ∃ st', scanIdentifier fuel st = Some st'.
Proof.
  intros Hm. unfold scanIdentifier.
  destruct (while_adv_returns
              (fun s => isAlphaNumeric (getCurrentChar s)
                        || Ascii.eqb (getCurrentChar s) "-"
                        || Ascii.eqb (getCurrentChar s) "_")
              fuel st) as [r Hr]; [|done|].
  - intros s Hc. destruct (isAtEnd s) eqn:Hend; [|done].
    by rewrite (getCurrentChar_at_end s Hend) in Hc.
  - rewrite Hr. by eexists.
Qed.

Lemma digits_returns (fuel : nat) (st : lexer) :
  remaining st < fuel →
  ∃ r, while_ fuel (fun s => isDigit (getCurrentChar s)) adv st = Some r.
Proof.
  intros Hm. apply while_adv_returns; [|done].
  intros s Hc. destruct (isAtEnd s) eqn:Hend; [|done].
  by rewrite (getCurrentChar_at_end s Hend) in Hc.
Qed.

Lemma scanNumber_returns (fuel : nat) (st : lexer) :
  remaining st < fuel → ∃ st', scanNumber parseFloat fuel st = Some st'.
Proof.
  intros Hm. unfold scanNumber.
  destruct (digits_returns fuel st Hm) as [s1 H1]. rewrite H1.
  cbn [mbind option_bind].
  pose proof (while_adv_skipped _ _ _ _ H1) as (Hc & Hp & _).
  assert (remaining s1 < fuel) as Hm1.
  { unfold remaining in *. rewrite Hc. lia. }
  destruct (_ && _).
  - destruct (digits_returns fuel (advance s1)) as [s2 H2].
    { pose proof (remaining_advance s1). lia. }
    rewrite H2. by eexists.
  - by eexists.
Qed.

Lemma position_addToken_lt (st s : lexer) ty :
  isAtEnd st = false → position st ≤ position s →
  content s = content st →
  position st < position (addToken s ty None).
Proof.
  intros Hend Hp Hc. cbn [addToken push position].
  destruct (isAtEnd s) eqn:Hs.
  - apply isAtEnd_false in Hend. unfold advance. rewrite Hs.
    unfold isAtEnd in Hs. apply Nat.leb_le in Hs. rewrite Hc in Hs. lia.
  - destruct (advance_moves s Hs) as [-> _]. lia.
Qed.

(** Before the end of the text [scanOperator] moves the cursor when the
    character is one of the table [operators]. *)
Lemma scanOperator_moves (st : lexer) :
  isAtEnd st = false → operators (getCurrentChar st) ≠ None →
  position st < position (scanOperator st).
Proof.
  intros Hend Hop. unfold scanOperator.
  assert (∀ ty, position st < position (addToken (advance (advance st)) ty None))
    as Htwo.
  { intros ty. apply position_addToken_lt; [done| |].
    - pose proof (skipped_advance st) as (_ & ? & _).
      pose proof (skipped_advance (advance st)) as (_ & ? & _). lia.
    - pose proof (skipped_advance st) as (? & _).
      pose proof (skipped_advance (advance st)) as (? & _). congruence. }
  repeat (destruct (_ && _); [by apply Htwo|]).
  destruct (operators _); [|done].
  by apply position_addToken_lt.
Qed.

(** What is left of a plain character when the earlier branches of
    [scanToken] have not taken it. *)
Lemma plain_operator (c : ascii) :
  plain c = true → isWhitespace c = false →
  Ascii.eqb c "{" = false → Ascii.eqb c "}" = false →
  Ascii.eqb c "(" = false → Ascii.eqb c ")" = false →
  Ascii.eqb c DQUOTE || Ascii.eqb c SQUOTE = false →
  isAlpha c = false → isDigit c = false →
  operators c ≠ None.
Proof.
  unfold plain, isAlphaNumeric.
  intros Hp H1 H2 H3 H4 H5 [H6 H7]%orb_false_iff H8 H9.
  rewrite H1, H2, H3, H4, H5, H6, H7, H8, H9 in Hp. cbn in Hp.
  by apply bool_decide_eq_true in Hp.
Qed.

(** On a plain character before the end of the text, [scanToken] returns
    and has moved the cursor. *)
Lemma scanToken_plain (fuel : nat) (st : lexer) :
  plain (getCurrentChar st) = true → isAtEnd st = false →
  remaining st < fuel →
  ∃ st', scanToken parseFloat fuel st = Some st' ∧ position st < position st'.
Proof.
  intros Hplain Hend Hm. unfold scanToken.
  destruct (advance_moves st Hend) as [Hadv _].
  destruct (isWhitespace _) eqn:Hw.
  { eexists. split; [reflexivity|lia]. }
  destruct (_ && _) eqn:Hlc.
  { destruct (skipLineComment_returns fuel st Hm) as [st' Hs].
    exists st'. split; [done|].
    eapply while_adv_entered; [|done|exact Hs].
    apply andb_prop in Hlc as [Hslash%Ascii.eqb_eq _].
    by rewrite Hend, Hslash. }
  clear Hlc.
  destruct (_ && _).
  { destruct (skipBlockComment_returns fuel st Hm) as [st' Hs].
    exists st'. split; [done|].
    unfold skipBlockComment in Hs.
    destruct (while_ _ _ _ _) as [[r b]|] eqn:Hloop; [|done].
    injection Hs as <-.
    apply (while_skipped fst) in Hloop.
    - destruct Hloop as (_ & Hp & _). cbn [fst] in Hp.
      pose proof (skipped_advance (advance st)) as (_ & ? & _). lia.
    - intros [a ?] [a' ?]. cbn. intros Hb.
      destruct (_ && _); injection Hb as <- <-;
        repeat apply skipped_advance_after; apply skipped_refl. }
  destruct (Ascii.eqb _ "<") eqn:Hlt.
  { apply Ascii.eqb_eq in Hlt. by rewrite Hlt in Hplain. }
  assert (∀ ty, position st < position (addToken st ty None)) as Hone.
  { intros ty. by apply position_addToken_lt. }
  do 4 (destruct (matchKeyword _ _);
        [eexists; split; [reflexivity|apply Hone]|]).
  destruct (Ascii.eqb (getCurrentChar st) "{") eqn:E1;
    [eexists; split; [reflexivity|apply Hone]|].
  destruct (Ascii.eqb (getCurrentChar st) "}") eqn:E2;
    [eexists; split; [reflexivity|apply Hone]|].
  destruct (Ascii.eqb (getCurrentChar st) "(") eqn:E3;
    [eexists; split; [reflexivity|apply Hone]|].
  destruct (Ascii.eqb (getCurrentChar st) ")") eqn:E4;
    [eexists; split; [reflexivity|apply Hone]|].
  destruct (_ || _) eqn:Hq.
  { destruct (scanString_returns fuel st Hm) as [st' Hs].
    exists st'. split; [done|].
    unfold scanString in Hs.
    destruct (while_ _ _ _ _) as [s1|] eqn:Hloop; [|done].
    injection Hs as <-.
    apply (while_skipped id) in Hloop.
    - destruct Hloop as (_ & Hp & _). cbn [id] in Hp.
      cbn [addToken push position].
      pose proof (skipped_advance s1) as (_ & ? & _). lia.
    - intros a a'. cbn. intros [= <-].
      destruct (Ascii.eqb (getCurrentChar a) _);
        repeat apply skipped_advance_after; apply skipped_refl. }
  cbn [andb].
  destruct (isAlpha _) eqn:Ha.
  { destruct (scanIdentifier_returns fuel st Hm) as [st' Hs].
    exists st'. split; [done|].
    unfold scanIdentifier in Hs.
    destruct (while_ _ _ _ _) as [s1|] eqn:Hloop; [|done].
    injection Hs as <-. cbn [addToken push position].
    eapply while_adv_entered; [|done|exact Hloop].
    unfold isAlphaNumeric. by rewrite Ha. }
  destruct (isDigit _) eqn:Hd.
  { destruct (scanNumber_returns fuel st Hm) as [st' Hs].
    exists st'. split; [done|].
    unfold scanNumber in Hs.
    destruct (while_ _ _ _ _) as [s1|] eqn:Hloop; [|done].
    cbn [mbind option_bind] in Hs.
    pose proof (while_adv_entered _ _ _ _ Hd Hend Hloop) as Hp1.
    destruct (Ascii.eqb (getCurrentChar s1) _ && _).
    - destruct (while_ _ _ _ (advance s1)) as [s2|] eqn:Hloop2; [|done].
      injection Hs as <-. cbn [addToken push position].
      apply while_adv_skipped in Hloop2 as (_ & Hp2 & _).
      pose proof (skipped_advance s1) as (_ & ? & _). lia.
    - injection Hs as <-. done. }
  eexists. split; [reflexivity|].
  apply scanOperator_moves; [done|].
  by apply plain_operator.
Qed.

Lemma forallb_get (p : ascii → bool) (s : string) (i : nat) (c : ascii) :
  forallb p (list_ascii_of_string s) = true → String.get i s = Some c →
  p c = true.
Proof.
  revert i. induction s as [|a s IH]; intros i; cbn; [done|].
  intros [Ha Hs]%andb_prop. destruct i as [|i]; [by intros [= <-]|].
  by apply IH.
Qed.

(** X3.  [tokenize] returns on every text of plain characters: white space,
    letters, digits, underscores, braces, parentheses, quotes and the
    twelve characters of the table [operators].  Each call of [scanToken]
    then moves the cursor, and no loop needs more iterations than the text
    has characters. *)
Theorem tokenize_returns_on_plain_text (fuel : nat) (text : string) :
  forallb plain (list_ascii_of_string text) = true →
  String.length text < fuel →
  ∃ toks, tokenize parseFloat fuel text = Some toks.
Proof.
  intros Hplain Hfuel. unfold tokenize.
  destruct (while_returns
              (fun st : lexer => position st <? String.length (content st))
              (scanToken parseFloat fuel)
              (fun st => content st = text) remaining fuel
              (MkLexer text 0 [])) as [r Hr].
  - intros s Hc Hcond. apply Nat.ltb_lt in Hcond.
    assert (isAtEnd s = false) as Hend by by apply isAtEnd_false.
    destruct (String.get (position s) (content s)) as [c|] eqn:Hg.
    2: { apply get_None in Hg. lia. }
    destruct (scanToken_plain fuel s) as (s' & Hs & Hp).
    + rewrite (getCurrentChar_get _ _ Hg). rewrite Hc in Hg.
      by eapply forallb_get.
    + done.
    + unfold remaining. rewrite Hc. lia.
    + exists s'. split; [done|].
      assert (content s' = content s) as Hc'.
      { destruct (scanToken_emits _ _ _ Hs) as [(? & _) | (ty & (? & _) & _)];
          done. }
      split; [congruence|]. unfold remaining. rewrite Hc'. lia.
  - done.
  - unfold remaining. cbn. lia.
  - rewrite Hr. by eexists.
Qed.

(** *** The operators of two characters *)

Lemma matchKeyword_first (st : lexer) (k : string) (c : ascii) :
  String.get (position st) (content st) = Some c →
  String.get 0 k ≠ Some c → k ≠ "" →
  matchKeyword st k = false.
Proof.
  intros Hg Hne Hk. destruct (matchKeyword st k) eqn:Hm; [exfalso|done].
  apply matchKeyword_get in Hm as [_ Hm].
  assert (0 < String.length k) as L0 by (destruct k; [done|cbn; lia]).
  specialize (Hm 0 L0). rewrite Nat.add_0_r in Hm. congruence.
Qed.

Lemma peek_get (st : lexer) (c : ascii) :
  String.get (S (position st)) (content st) = Some c → peek st = c.
Proof.
  intros Hg. unfold peek. rewrite Nat.add_1_r.
  pose proof (get_Some_lt _ _ _ Hg) as Hlt.
  destruct (_ <=? _) eqn:Hle; [apply Nat.leb_le in Hle; lia|].
  by rewrite Hg.
Qed.

(** X4.  An operator of two characters takes the character behind it with it:
    after the two calls of [advance], [addToken] is called without a
    value, so the token gets the next character as its value and the
    cursor moves past that character too. *)
Theorem two_character_operator_takes_next (fuel : nat) (st : lexer)
  (ty : token_type) (a b c : ascii) :
  two_characters ty = Some (a, b) →
  String.get (position st) (content st) = Some a →
  String.get (S (position st)) (content st) = Some b →
  String.get (S (S (position st))) (content st) = Some c →
  scanToken parseFloat fuel st
  = Some (MkLexer (content st) (position st + 3)
            (tokens st
               ++ [Token ty (TVString (str1 c))
                     (1 + count_newlines (position st + 3) (content st))])).
Proof.
  intros Hty Ha Hb Hc.
  pose proof (getCurrentChar_get _ _ Ha) as Hchar.
  pose proof (peek_get _ _ Hb) as Hpeek.
  pose proof (get_Some_lt _ _ _ Hc) as Hlen.
  assert (∀ k, k ∈ ["style"; "state"; "template"; "props"] →
               matchKeyword st k = false) as Hk.
  { intros k Hin. apply (matchKeyword_first st k a Ha).
    - repeat (apply elem_of_cons in Hin as [->|Hin];
              [destruct ty; try discriminate Hty; injection Hty as <- <-; done|]).
      by apply elem_of_nil in Hin.
    - intros ->. set_solver. }
  assert (advance (advance st)
          = MkLexer (content st) (S (S (position st))) (tokens st)) as Hadv2.
  { unfold advance, isAtEnd, set_position. cbn.
    destruct (_ <=? position st) eqn:H1; [apply Nat.leb_le in H1; lia|]. cbn.
    destruct (_ <=? S (position st)) eqn:H2; [apply Nat.leb_le in H2; lia|].
    done. }
  assert (addToken (advance (advance st)) ty None
          = MkLexer (content st) (position st + 3)
              (tokens st
                 ++ [Token ty (TVString (str1 c))
                       (1 + count_newlines (position st + 3) (content st))]))
    as Hadd.
  { rewrite Hadv2. unfold addToken, push, advance, getCurrentChar, isAtEnd,
      getCurrentLine, set_position. cbn.
    destruct (_ <=? _) eqn:H1; [apply Nat.leb_le in H1; lia|]. cbn.
    rewrite Hc. cbn. by replace (position st + 3) with (S (S (S (position st))))
      by lia. }
  unfold scanToken. rewrite !Hk by set_solver.
  unfold scanOperator. rewrite Hchar, Hpeek, <- Hadd.
  destruct ty; try discriminate Hty; injection Hty as <- <-; reflexivity.
Qed.

(** *** HTML tags *)

(** A loop that advances while the character is not [>] and the text has
    not ended, from [p] up to the first [>], at [j]. *)
Lemma while_to_gt {St : Type} (proj : St → lexer) (cond : St → bool)
  (body : St → option St) (text : string) (toks : list token) (j : nat) :
  (∀ s, cond s = negb (Ascii.eqb (getCurrentChar (proj s)) ">")
                 && negb (isAtEnd (proj s))) →
  (∀ s, ∃ s', body s = Some s' ∧ proj s' = advance (proj s)) →
  String.get j text = Some ">"%char →
  ∀ (n p fuel : nat) (s : St),
    proj s = MkLexer text p toks → p + n = j →
    (∀ i, p ≤ i < j → String.get i text ≠ Some ">"%char) →
    n < fuel →
    ∃ r, while_ fuel cond body s = Some r ∧ proj r = MkLexer text j toks.
Proof.
  intros Hcond Hbody Hj. induction n as [|n IH]; intros p fuel s Hs Hp Hno Hfuel.
  - destruct fuel as [|fuel]; [lia|]. cbn [while_].
    rewrite Nat.add_0_r in Hp. subst p.
    rewrite Hcond, Hs.
    rewrite (getCurrentChar_get (MkLexer text j toks) ">" Hj).
    cbn [Ascii.eqb Bool.eqb negb andb]. by exists s.
  - destruct fuel as [|fuel]; [lia|]. cbn [while_].
    assert (p < String.length text) as Hlt.
    { apply get_Some_lt in Hj. lia. }
    destruct (String.get p text) as [c|] eqn:Hg.
    2: { apply get_None in Hg. lia. }
    assert (Ascii.eqb c ">" = false) as Hc.
    { apply Ascii.eqb_neq. intros ->. apply (Hno p); [lia|done]. }
    rewrite Hcond, Hs.
    rewrite (getCurrentChar_get (MkLexer text p toks) c Hg), Hc.
    assert (isAtEnd (MkLexer text p toks) = false) as Hend
      by by apply isAtEnd_false.
    rewrite Hend. cbn [negb andb].
    destruct (Hbody s) as (s' & -> & Hs').
    apply (IH (S p) fuel s').
    + rewrite Hs', Hs. unfold advance. by rewrite Hend.
    + lia.
    + intros i Hi. apply Hno. lia.
    + lia.
Qed.

Lemma includes_char_get (s : string) (c : ascii) :
  Js.includes_char s c = false → ∀ k, String.get k s ≠ Some c.
Proof.
  induction s as [|a s IH]; cbn; [done|].
  destruct (Ascii.eqb a c) eqn:E; [done|]. apply Ascii.eqb_neq in E.
  intros H [|k]; [congruence|]. by apply IH.
Qed.

Lemma slice_get (text : string) (a b k : nat) :
  a < b → b ≤ String.length text → k < b - a →
  String.get k (Js.slice text a b) = String.get (k + a) text.
Proof.
  intros Hab Hb Hk. unfold Js.slice.
  rewrite (Nat.min_l a), (Nat.min_l b) by lia.
  destruct (a <? b) eqn:Hlt; [|apply Nat.ltb_ge in Hlt; lia].
  by apply String.substring_correct1.
Qed.

Lemma scanToken_html (fuel : nat) (st : lexer) :
  String.get (position st) (content st) = Some "<"%char →
  Js.startsWith (Js.slice (content st) (position st + 1) (position st + 10))
    "component" = false →
  scanToken parseFloat fuel st = scanHtmlTag fuel st.
Proof.
  intros Hg Hsw. unfold scanToken. cbv zeta.
  rewrite (getCurrentChar_get st "<" Hg), Hsw. reflexivity.
Qed.

(** X5.  A tag that is no component header is scanned from its [<] to the first
    [>] behind it, whatever stands between them: the loop of [scanHtmlTag]
    keeps track of quotes and does not use them, so a [>] within a quoted
    attribute value ends the tag. *)
Theorem html_tag_ends_at_first_gt (fuel : nat) (text : string) (p j : nat)
  (toks : list token) :
  String.get p text = Some "<"%char →
  Js.startsWith (Js.slice text (p + 1) (p + 10)) "component" = false →
  p < j → String.get j text = Some ">"%char →
  Js.includes_char (Js.slice text (p + 1) j) ">" = false →
  j - p < fuel →
  scanToken parseFloat fuel (MkLexer text p toks)
  = Some (MkLexer text (S j)
            (toks ++ [Token HTML_TAG
                        (TVString (String.substring p (S j - p) text))
                        (1 + count_newlines (S j) text)])).
Proof.
  intros Hp Hsw Hpj Hj Hinc Hfuel.
  rewrite scanToken_html by done.
  pose proof (get_Some_lt _ _ _ Hj) as Hjlen.
  assert (∀ i, p < i < j → String.get i text ≠ Some ">"%char) as Hno.
  { intros i Hi Hg.
    apply (includes_char_get _ _ Hinc (i - (p + 1))).
    rewrite slice_get by lia. rewrite <- Hg. f_equal. lia. }
  assert (∀ q, q < String.length text →
               advance (MkLexer text q toks) = MkLexer text (S q) toks) as Hadv.
  { intros q Hq. unfold advance.
    assert (isAtEnd (MkLexer text q toks) = false) as -> by by apply isAtEnd_false.
    done. }
  assert (∀ s : lexer, s = MkLexer text j toks →
            addToken (if Ascii.eqb (getCurrentChar s) ">" then advance s else s)
              HTML_TAG
              (Some (TVString
                 (Js.substring
                    (content (if Ascii.eqb (getCurrentChar s) ">" then advance s else s))
                    p
                    (position (if Ascii.eqb (getCurrentChar s) ">" then advance s else s)))))
            = MkLexer text (S j)
                (toks ++ [Token HTML_TAG
                            (TVString (String.substring p (S j - p) text))
                            (1 + count_newlines (S j) text)])) as Hfin.
  { intros s ->.
    rewrite (getCurrentChar_get (MkLexer text j toks) ">" Hj).
    cbn [Ascii.eqb Bool.eqb]. rewrite (Hadv j Hjlen).
    unfold addToken, push, getCurrentLine. cbn [content position tokens].
    do 4 f_equal. unfold Js.substring.
    rewrite (Nat.min_l p) by lia. rewrite (Nat.min_l (S j)) by lia.
    by rewrite Nat.min_l, Nat.max_r by lia. }
  unfold scanHtmlTag. cbv zeta. cbn [position].
  rewrite (Hadv p) by lia.
  destruct (Ascii.eqb (getCurrentChar (MkLexer text (S p) toks)) "/") eqn:Hslash.
  - apply Ascii.eqb_eq in Hslash.
    assert (S p ≠ j) as Hne.
    { intros <-.
      rewrite (getCurrentChar_get (MkLexer text (S p) toks) ">" Hj) in Hslash.
      discriminate Hslash. }
    rewrite (Hadv (S p)) by lia.
    match goal with
    | |- context [while_ fuel ?c ?b ?s0] =>
        assert (∀ s, c s = negb (Ascii.eqb (getCurrentChar (id s)) ">")
                           && negb (isAtEnd (id s))) as Hcnd by done;
        assert (∀ s, ∃ s', b s = Some s' ∧ id s' = advance (id s)) as Hbdy
          by (intros s; by eexists);
        destruct (while_to_gt id c b text toks j Hcnd Hbdy Hj
                    (j - S (S p)) (S (S p)) fuel s0 eq_refl ltac:(lia)
                    ltac:(intros i Hi; apply Hno; lia) ltac:(lia))
          as (r & Hr & Hpr)
    end.
    rewrite Hr. cbn [mbind option_bind]. f_equal. by apply Hfin.
  - match goal with
    | |- context [while_ fuel ?c ?b ?s0] =>
        assert (∀ s : lexer * bool * option ascii,
                  c s = negb (Ascii.eqb (getCurrentChar s.1.1) ">")
                        && negb (isAtEnd s.1.1)) as Hcnd
          by (by intros [[s b'] q]);
        assert (∀ s : lexer * bool * option ascii,
                  ∃ s', b s = Some s' ∧ s'.1.1 = advance s.1.1) as Hbdy
          by (intros [[s b'] q]; cbv zeta;
              destruct (_ && _); [by eexists|];
              destruct (_ && _); by eexists);
        destruct (while_to_gt (fun x : lexer * bool * option ascii => x.1.1)
                    c b text toks j Hcnd Hbdy Hj
                    (j - S p) (S p) fuel s0 eq_refl ltac:(lia)
                    ltac:(intros i Hi; apply Hno; lia) ltac:(lia))
          as (r & Hr & Hpr)
    end.
    rewrite Hr. cbn [mbind option_bind]. f_equal. by apply Hfin.
Qed.
End WithNumber.

End LexerProofs.


(** ** The parser *)

Module ParserProofs.

Import Value Ast Parser.

(** *** The interpolations of [parseTemplate] *)

Lemma span_app (p : ascii → bool) (s : string) :
  s = (Js.span p s).1 +:+ (Js.span p s).2.
Proof.
  induction s as [|a s IH]; cbn; [done|].
  destruct (p a); cbn; [|done].
  change (String a s = String a ((Js.span p s).1 +:+ (Js.span p s).2)).
  by rewrite <- IH.
Qed.

Lemma span_fst (p : ascii → bool) (s : string) (i : nat) (c : ascii) :
  String.get i (Js.span p s).1 = Some c → p c = true.
Proof.
  revert i. induction s as [|a s IH]; intros i; cbn; [done|].
  destruct (p a) eqn:Hp; cbn; [|done].
  destruct i as [|i]; [by intros [= <-]|]. apply IH.
Qed.

Lemma span_snd (p : ascii → bool) (s : string) (b : ascii) (rest : string) :
  (Js.span p s).2 = String b rest → p b = false.
Proof.
  induction s as [|a s IH]; cbn; [done|].
  destruct (p a) eqn:Hp; cbn; [done|]. by intros [= <- _].
Qed.

Lemma sapp_cons (x : ascii) (a b : string) :
  String x a +:+ b = String x (a +:+ b).
Proof. reflexivity. Qed.

Lemma sapp_nil (b : string) : "" +:+ b = b.
Proof. reflexivity. Qed.

Lemma sapp_assoc (a b c : string) : (a +:+ b) +:+ c = a +:+ (b +:+ c).
Proof.
  induction a as [|x a IH]; [done|]. by rewrite !sapp_cons, IH.
Qed.

Ltac norm_app :=
  repeat (rewrite sapp_assoc || rewrite sapp_cons || rewrite sapp_nil).

Lemma sapp_length (a b : string) :
  String.length (a +:+ b) = String.length a + String.length b.
Proof.
  induction a as [|x a IH]; [done|]. rewrite sapp_cons. cbn. by rewrite IH.
Qed.

Lemma substring_prefix (a b : string) :
  String.substring 0 (String.length a) (a +:+ b) = a.
Proof.
  induction a as [|x a IH]; [by destruct b|].
  rewrite sapp_cons. cbn. by rewrite IH.
Qed.

Lemma substring_middle (pre mid post : string) :
  String.substring (String.length pre) (String.length mid)
    (pre +:+ mid +:+ post) = mid.
Proof.
  induction pre as [|x pre IH]; [rewrite sapp_nil; apply substring_prefix|].
  rewrite sapp_cons. cbn. exact IH.
Qed.

(** Each interpolation found in [s], scanned from [index] on: the text
    before it, its inner text and the text behind it. *)
Lemma interpolations_from_found (fuel : nat) (s : string) (index : nat)
  (i : interpolation) :
  i ∈ interpolations_from fuel s index →
  ∃ pre inner post,
    s = pre +:+ ("{" +:+ inner +:+ "}") +:+ post
    ∧ inner ≠ ""
    ∧ (∀ n, String.get n inner ≠ Some "}"%char)
    ∧ i = Interpolation (Js.trim inner) ("{" +:+ inner +:+ "}")
            (index + String.length pre).
Proof.
  revert s index. induction fuel as [|fuel IH]; intros s index; cbn.
  { by intros ?%elem_of_nil. }
  destruct s as [|c s']; [by intros ?%elem_of_nil|].
  assert (i ∈ interpolations_from fuel s' (S index) →
          ∃ pre inner post,
            String c s' = pre +:+ ("{" +:+ inner +:+ "}") +:+ post
            ∧ inner ≠ ""
            ∧ (∀ n, String.get n inner ≠ Some "}"%char)
            ∧ i = Interpolation (Js.trim inner) ("{" +:+ inner +:+ "}")
                    (index + String.length pre)) as Hskip.
  { intros (pre & inner & post & -> & Hne & Hno & ->)%IH.
    exists (String c pre), inner, post. split_and!; [done|done|done|].
    cbn. f_equal. lia. }
  destruct (Ascii.eqb c "{") eqn:Hc; [|done].
  apply Ascii.eqb_eq in Hc as ->.
  pose proof (span_app (fun a => negb (Ascii.eqb a "}")) s') as Happ.
  pose proof (span_fst (fun a => negb (Ascii.eqb a "}")) s') as Hfst.
  pose proof (span_snd (fun a => negb (Ascii.eqb a "}")) s') as Hsnd.
  destruct (Js.span _ s') as [inner tail]. cbn [fst snd] in *.
  destruct inner as [|x inner]; [done|].
  destruct tail as [|b rest]; [done|].
  specialize (Hsnd b rest eq_refl). apply negb_false_iff, Ascii.eqb_eq in Hsnd.
  subst b.
  intros [->|Hin]%elem_of_cons.
  - exists "", (String x inner), rest. split_and!.
    + rewrite Happ. by norm_app.
    + done.
    + intros n Hn. apply Hfst in Hn. done.
    + cbn. f_equal. lia.
  - apply IH in Hin as (pre & inner' & post & -> & Hne & Hno & ->).
    exists ("{" +:+ String x inner +:+ "}" +:+ pre), inner', post.
    split_and!; [|done|done|].
    + rewrite Happ. by norm_app.
    + f_equal. norm_app. cbn [String.length]. rewrite !sapp_length.
      cbn [String.length]. lia.
Qed.

(** X6.  Each interpolation that [parseTemplate] lists stands in the template
    where its index says: the placeholder is the text of the template at
    that index, a left brace, an inner text that is not empty and holds no
    right brace, and a right brace; the expression is the inner text
    trimmed. *)
Theorem parseTemplate_placeholder_at_index (content : string)
  (i : interpolation) :
  i ∈ interpolations (parseTemplate content) →
  ∃ inner,
    inner ≠ ""
    ∧ (∀ n, String.get n inner ≠ Some "}"%char)
    ∧ i_placeholder i = "{" +:+ inner +:+ "}"
    ∧ i_expression i = Js.trim inner
    ∧ String.substring (i_index i) (String.length (i_placeholder i)) content
      = i_placeholder i.
Proof.
  unfold parseTemplate. cbn [interpolations].
  intros (pre & inner & post & Hs & Hne & Hno & ->)%interpolations_from_found.
  exists inner. split_and!; [done|done|done|done|].
  cbn [i_index i_placeholder]. rewrite Hs.
  apply (substring_middle pre ("{" +:+ inner +:+ "}") post).
Qed.

Section WithNumber.

Context {number : Type} (parseFloat : string → number)
  (number_to_string : number → string).

Abbreviation token := (@Lexer.token number).
Abbreviation parser := (@Parser.parser number).

Lemma cursor_tokens_advance (p : parser) : tokens (advance p).2 = tokens p.
Proof. unfold advance. by destruct (isAtEnd p). Qed.

(** Before the end of the stream the cursor is on a token that is not EOF,
    and [advance] moves past it. *)
Lemma not_at_end (p : parser) :
  isAtEnd p = false →
  ∃ t, tokens p !! current p = Some t ∧ peek p = t
       ∧ (advance p).2 = MkParser (tokens p) (S (current p)).
Proof.
  intros Hend. unfold advance. rewrite Hend. cbn.
  unfold isAtEnd in Hend. apply orb_false_iff in Hend as [Hlen _].
  apply Nat.leb_gt in Hlen.
  destruct (lookup_lt_is_Some_2 (tokens p) (current p) Hlen) as [t Ht].
  exists t. unfold peek. by rewrite Ht.
Qed.

(** After the token of a block keyword comes an IDENTIFIER token, where
    each of the block parsers wants a left brace. *)
Lemma block_without_brace (p : parser) (t' : token) (message : string) :
  isAtEnd p = false →
  tokens p !! S (current p) = Some t' → Lexer.type t' = Lexer.IDENTIFIER →
  consume (advance p).2 Lexer.LEFT_BRACE message
  = Throw (Expected message Lexer.IDENTIFIER) (S (current p)).
Proof.
  intros Hend Ht' Hty.
  destruct (not_at_end p Hend) as (t & _ & _ & ->).
  unfold consume, check, isAtEnd, peek. cbn [tokens current].
  rewrite Ht'. cbn [default from_option id]. rewrite Hty.
  pose proof (lookup_lt_Some _ _ _ Ht') as Hlt.
  destruct (_ <=? _) eqn:Hle; [apply Nat.leb_le in Hle; lia|].
  reflexivity.
Qed.

Lemma parseComponentName_tokens (p p' : parser) (name : string) :
  parseComponentName p = Ok (name, p') → tokens p' = tokens p.
Proof.
  unfold parseComponentName.
  destruct (advance p) as [tok q] eqn:Ha.
  assert (tokens q = tokens p) as <-.
  { by rewrite <- (cursor_tokens_advance p), Ha. }
  destruct tok as [tok|]; cbn; [|done].
  destruct (Lexer.value tok); [|done]. by intros [= _ <-].
Qed.

(** The loop of [parse] on a stream in which an IDENTIFIER token follows
    every token of a block keyword and only the last token is EOF: when it
    returns, no block parser has run, and no token from the cursor on is
    that of a block keyword. *)
Lemma parse_loop_no_block (fuel : nat) (p : parser) (component a : ast number)
  (init : list token) (eof : token) :
  tokens p = init ++ [eof] →
  Forall (fun t => Lexer.type t ≠ Lexer.EOF) init →
  (∀ i t, tokens p !! i = Some t → Lexer.is_block (Lexer.type t) = true →
          ∃ t', tokens p !! S i = Some t' ∧ Lexer.type t' = Lexer.IDENTIFIER) →
  parse_loop number_to_string fuel p component = Ok a →
  (a_style a = a_style component ∧ a_state a = a_state component
   ∧ a_props a = a_props component ∧ a_template a = a_template component)
  ∧ ∀ i t, current p ≤ i → init !! i = Some t →
           Lexer.is_block (Lexer.type t) = false.
Proof.
  intros Htoks Hinit.
  revert p component Htoks. induction fuel as [|fuel IH];
    intros p component Htoks Hf H; [done|].
  cbn [parse_loop] in H.
  destruct (isAtEnd p) eqn:Hend; cbn [negb] in H.
  { injection H as <-. split; [done|]. intros i t Hi Ht. exfalso.
    unfold isAtEnd, peek in Hend. rewrite Htoks in Hend.
    pose proof (lookup_lt_Some _ _ _ Ht) as Hlt.
    rewrite length_app in Hend. cbn [length] in Hend.
    destruct (decide (current p < length init)) as [Hc|Hc]; [|lia].
    destruct (lookup_lt_is_Some_2 init (current p) Hc) as [t0 Ht0].
    rewrite (lookup_app_l_Some _ _ _ _ Ht0) in Hend. cbn in Hend.
    apply orb_prop in Hend as [Hle|He].
    - apply Nat.leb_le in Hle. lia.
    - apply bool_decide_eq_true in He.
      eapply Forall_lookup_1 in Hinit; [|exact Ht0]. done. }
  destruct (not_at_end p Hend) as (t & Ht & Hpeek & Hadv).
  rewrite Hpeek in H. unfold is_type in H.
  assert (∀ p' component',
            tokens p' = tokens p → current p' = S (current p) →
            parse_loop number_to_string fuel p' component' = Ok a →
            Lexer.is_block (Lexer.type t) = false →
            (a_style a = a_style component' ∧ a_state a = a_state component'
             ∧ a_props a = a_props component'
             ∧ a_template a = a_template component')
            ∧ ∀ i t, current p ≤ i → init !! i = Some t →
                     Lexer.is_block (Lexer.type t) = false) as Hnext.
  { intros p' component' Htp Hcp Hl Hnb.
    apply IH in Hl as [Hl1 Hl2]; [|by rewrite Htp|by rewrite Htp].
    split; [done|]. intros i t0 Hi Ht0.
    destruct (decide (i = current p)) as [->|Hne].
    - rewrite Htoks in Ht. rewrite (lookup_app_l_Some _ _ _ _ Ht0) in Ht.
      by injection Ht as <-.
    - apply (Hl2 i t0); [lia|done]. }
  destruct (bool_decide_reflect (Lexer.type t = Lexer.COMPONENT)) as [E|_].
  { destruct (parseComponentName p) as [[name p']| |] eqn:Hn; try done.
    cbn in H.
    assert (tokens p' = tokens p ∧ current p' = S (current p)) as [Htp Hcp].
    { unfold parseComponentName in Hn. rewrite (surjective_pairing (advance p)) in Hn.
      rewrite Hadv in Hn. destruct (advance p).1 as [tok|]; cbn in Hn; [|done].
      destruct (Lexer.value tok); [|done]. by injection Hn as _ <-. }
    apply (Hnext p' _ Htp Hcp H). by rewrite E. }
  assert (∀ message, Lexer.is_block (Lexer.type t) = true →
            consume (advance p).2 Lexer.LEFT_BRACE message
            = Throw (Expected message Lexer.IDENTIFIER) (S (current p)))
    as Hthrow.
  { intros message Hb. destruct (Hf _ _ Ht Hb) as (t' & Ht' & Hty).
    by eapply block_without_brace. }
  destruct (bool_decide_reflect (Lexer.type t = Lexer.STYLE_BLOCK)) as [E|N1].
  { exfalso. unfold parseStyleBlock in H.
    rewrite Hthrow in H by (by rewrite E). done. }
  destruct (bool_decide_reflect (Lexer.type t = Lexer.STATE_BLOCK)) as [E|N2].
  { exfalso. unfold parseStateBlock in H.
    rewrite Hthrow in H by (by rewrite E). done. }
  destruct (bool_decide_reflect (Lexer.type t = Lexer.PROPS_BLOCK)) as [E|N3].
  { exfalso. unfold parsePropsBlock in H.
    rewrite Hthrow in H by (by rewrite E). done. }
  destruct (bool_decide_reflect (Lexer.type t = Lexer.TEMPLATE_BLOCK)) as [E|N4].
  { exfalso. unfold parseTemplateBlock in H.
    rewrite Hthrow in H by (by rewrite E). done. }
  apply (Hnext (advance p).2 component); [by rewrite Hadv|by rewrite Hadv|done|].
  by destruct (Lexer.type t).
Qed.

(** X7.  No call of [parse] returns a component with a style, a state, props or
    a template: the lexer leaves an IDENTIFIER token behind the token of
    every block keyword, so each block parser throws for want of a left
    brace.  When [parse] returns, the token stream holds no token of a
    block keyword at all. *)
Theorem parse_returns_no_block (fuel : nat) (text : string) (a : ast number) :
  parse parseFloat number_to_string fuel text = Ok a →
  a_style a = None ∧ a_state a = [] ∧ a_props a = [] ∧ a_template a = None
  ∧ ∃ toks, Lexer.tokenize parseFloat fuel text = Some toks
            ∧ Forall (fun t => Lexer.is_block (Lexer.type t) = false) toks.
Proof.
  unfold parse, parse_tokens. intros H.
  destruct (Lexer.tokenize _ _ _) as [toks|] eqn:Htok; [|done].
  destruct (parse_loop _ _ _ _) as [a'| |] eqn:Hl; try done.
  injection H as ->.
  destruct (LexerProofs.tokenize_one_EOF parseFloat fuel text toks Htok)
    as (init & eof & -> & Heof & Hinit).
  eapply (parse_loop_no_block _ _ _ _ init eof) in Hl
    as [(H1 & H2 & H3 & H4) Hnb]; [|done|done|].
  - split_and!; [done|done|done|done|]. eexists. split; [done|].
    apply Forall_app. split.
    + apply Forall_lookup. intros i t Ht. apply (Hnb i t); [cbn; lia|done].
    + repeat constructor. by rewrite Heof.
  - cbn [tokens]. intros i t.
    by apply (LexerProofs.tokenize_block_then_identifier parseFloat fuel text).
Qed.

(** *** A source that is only a header *)

(** A loop of [advance] over [n] characters that satisfy its condition, up
    to one that does not, or to the end of the text. *)
Lemma while_adv_run (q : ascii → bool) (text : string)
  (toks : list token) (n p fuel : nat) :
  (∀ i, i < n → ∃ c, String.get (p + i) text = Some c ∧ q c = true) →
  match String.get (p + n) text with
  | Some c => q c = false
  | None => q Lexer.NUL = false
  end →
  n < fuel →
  while_ fuel (fun s => q (Lexer.getCurrentChar s)) Lexer.adv
    (Lexer.MkLexer text p toks)
  = Some (Lexer.MkLexer text (p + n) toks).
Proof.
  revert p fuel. induction n as [|n IH]; intros p fuel Hrun Hstop Hfuel.
  - destruct fuel as [|fuel]; [lia|]. cbn [while_].
    rewrite Nat.add_0_r in *.
    assert (q (Lexer.getCurrentChar (Lexer.MkLexer text p toks)) = false) as ->.
    { destruct (String.get p text) as [c|] eqn:Hg.
      - by rewrite (LexerProofs.getCurrentChar_get (Lexer.MkLexer text p toks) c Hg).
      - apply LexerProofs.get_None in Hg.
        rewrite LexerProofs.getCurrentChar_at_end; [done|].
        unfold Lexer.isAtEnd. cbn. by apply Nat.leb_le. }
    done.
  - destruct fuel as [|fuel]; [lia|]. cbn [while_].
    destruct (Hrun 0) as (c & Hg & Hq); [lia|]. rewrite Nat.add_0_r in Hg.
    rewrite (LexerProofs.getCurrentChar_get (Lexer.MkLexer text p toks) c Hg), Hq.
    pose proof (LexerProofs.get_Some_lt _ _ _ Hg) as Hlt.
    assert (Lexer.adv (Lexer.MkLexer text p toks)
            = Some (Lexer.MkLexer text (S p) toks)) as ->.
    { unfold Lexer.adv, Lexer.advance, Lexer.isAtEnd. cbn.
      destruct (_ <=? _) eqn:Hle; [apply Nat.leb_le in Hle; lia|]. done. }
    rewrite (IH (S p) fuel).
    + do 2 f_equal. lia.
    + intros i Hi. destruct (Hrun (S i)) as (c' & Hg' & Hq'); [lia|].
      exists c'. split; [|done]. rewrite <- Hg'. f_equal. lia.
    + by replace (S p + n) with (p + S n) by lia.
    + lia.
Qed.

Lemma get_header_name (name : string) (i : nat) :
  String.get (11 + i) (header_of name) = String.get i (name +:+ ">").
Proof. reflexivity. Qed.

Lemma get_name (name : string) (i : nat) :
  i < String.length name →
  String.get i (name +:+ ">") = String.get i name.
Proof. intros Hi. symmetry. by apply String.append_correct1. Qed.

Lemma get_name_end (name : string) :
  String.get (String.length name) (name +:+ ">") = Some ">"%char.
Proof.
  exact (eq_sym (String.append_correct2 name ">" 0)).
Qed.

Lemma length_header (name : string) :
  String.length (header_of name) = 12 + String.length name.
Proof.
  change (String.length (header_of name))
    with (11 + String.length (name +:+ ">")).
  rewrite sapp_length. cbn [String.length]. lia.
Qed.

Lemma substring_header (name : string) :
  Js.substring (header_of name) 11 (11 + String.length name) = name.
Proof.
  unfold Js.substring. rewrite length_header.
  rewrite (Nat.min_l 11) by lia. rewrite (Nat.min_l (11 + _)) by lia.
  rewrite Nat.min_l, Nat.max_r by lia.
  replace (11 + String.length name - 11) with (String.length name) by lia.
  apply (substring_prefix name ">").
Qed.

Lemma header_name_at (name : string) (i : nat) :
  forallb header_name_char (list_ascii_of_string name) = true →
  i < String.length name →
  ∃ c, String.get (11 + i) (header_of name) = Some c
       ∧ header_name_char c = true.
Proof.
  intros Hname Hi. rewrite get_header_name, get_name by done.
  destruct (String.get i name) as [c|] eqn:Hg.
  - exists c. split; [done|]. by eapply LexerProofs.forallb_get.
  - apply LexerProofs.get_None in Hg. lia.
Qed.

(** The header is scanned as one COMPONENT token with the name, and the
    cursor is then at the end of the text. *)
Lemma scanComponentDeclaration_header (fuel : nat) (name : string) :
  forallb header_name_char (list_ascii_of_string name) = true →
  String.length (header_of name) < fuel →
  Lexer.scanComponentDeclaration fuel
    (Lexer.MkLexer (number:=number) (header_of name) 0 [])
  = Some (Lexer.MkLexer (header_of name) (12 + String.length name)
            [Lexer.Token Lexer.COMPONENT (Lexer.TVString name)
               (1 + Lexer.count_newlines (12 + String.length name)
                      (header_of name))]).
Proof.
  intros Hname Hfuel. rewrite length_header in Hfuel.
  set (text := header_of name) in *.
  assert (Lexer.advance (Lexer.MkLexer text 0 [])
          = Lexer.MkLexer (number:=number) text 1 []) as Hadv by reflexivity.
  assert (while_ fuel
            (fun st : @Lexer.lexer number =>
               negb (Ascii.eqb (Lexer.getCurrentChar st) " ")
               && negb (Ascii.eqb (Lexer.getCurrentChar st) ">"))
            Lexer.adv (Lexer.MkLexer text 1 [])
          = Some (Lexer.MkLexer text 10 [])) as H1.
  { refine (while_adv_run
              (fun c => negb (Ascii.eqb c " ") && negb (Ascii.eqb c ">"))
              text [] 9 1 fuel _ _ _); [|reflexivity|lia].
    intros i Hi.
    do 9 (destruct i as [|i]; [eexists; split; reflexivity|]). lia. }
  assert (while_ fuel
            (fun st : @Lexer.lexer number =>
               Ascii.eqb (Lexer.getCurrentChar st) " ")
            Lexer.adv (Lexer.MkLexer text 10 [])
          = Some (Lexer.MkLexer text 11 [])) as H2.
  { refine (while_adv_run (fun c => Ascii.eqb c " ") text [] 1 10 fuel _ _ _);
      [| |lia].
    - intros i Hi. destruct i as [|i]; [eexists; split; reflexivity|lia].
    - change (String.get (10 + 1) text) with (String.get 0 (name +:+ ">")).
      destruct name as [|a name'].
      + reflexivity.
      + cbn in Hname. apply andb_prop in Hname as [Ha _].
        unfold header_name_char in Ha.
        apply andb_prop in Ha as [_ Ha]. apply negb_true_iff in Ha.
        exact Ha. }
  assert (while_ fuel
            (fun st : @Lexer.lexer number =>
               negb (Ascii.eqb (Lexer.getCurrentChar st) ">")
               && negb (Ascii.eqb (Lexer.getCurrentChar st) Lexer.NUL)
               && negb (Ascii.eqb (Lexer.getCurrentChar st) " "))
            Lexer.adv (Lexer.MkLexer text 11 [])
          = Some (Lexer.MkLexer text (11 + String.length name) [])) as H3.
  { refine (while_adv_run header_name_char text [] (String.length name) 11 fuel
              _ _ _); [| |lia].
    - intros i Hi. by apply header_name_at.
    - unfold text. rewrite get_header_name, get_name_end. reflexivity. }
  assert (while_ fuel
            (fun st : @Lexer.lexer number =>
               negb (Ascii.eqb (Lexer.getCurrentChar st) ">")
               && negb (Ascii.eqb (Lexer.getCurrentChar st) Lexer.NUL))
            Lexer.adv (Lexer.MkLexer text (11 + String.length name) [])
          = Some (Lexer.MkLexer text (11 + String.length name + 0) [])) as H4.
  { refine (while_adv_run
              (fun c => negb (Ascii.eqb c ">") && negb (Ascii.eqb c Lexer.NUL))
              text [] 0 (11 + String.length name) fuel _ _ _); [| |lia].
    - intros i Hi. lia.
    - rewrite Nat.add_0_r. unfold text.
      rewrite get_header_name, get_name_end. reflexivity. }
  rewrite Nat.add_0_r in H4.
  assert (String.get (11 + String.length name) text = Some ">"%char) as Hgt.
  { unfold text. by rewrite get_header_name, get_name_end. }
  unfold Lexer.scanComponentDeclaration.
  rewrite Hadv, H1. cbn [mbind option_bind].
  rewrite H2. cbn [mbind option_bind].
  rewrite H3. cbn [mbind option_bind].
  rewrite H4. cbn [mbind option_bind].
  rewrite (LexerProofs.getCurrentChar_get
             (Lexer.MkLexer text (11 + String.length name) []) ">" Hgt).
  cbn [Ascii.eqb Bool.eqb].
  assert (Lexer.advance (Lexer.MkLexer text (11 + String.length name) [])
          = Lexer.MkLexer (number:=number) text (12 + String.length name) [])
    as ->.
  { unfold Lexer.advance, Lexer.isAtEnd. cbn [Lexer.content Lexer.position].
    unfold text. rewrite length_header.
    destruct (_ <=? _) eqn:Hle; [apply Nat.leb_le in Hle; lia|]. done. }
  unfold Lexer.addToken, Lexer.push, Lexer.getCurrentLine.
  cbn [Lexer.content Lexer.position Lexer.tokens app].
  unfold text. by rewrite substring_header.
Qed.

Lemma tokenize_header (fuel : nat) (name : string) :
  forallb header_name_char (list_ascii_of_string name) = true →
  String.length (header_of name) < fuel →
  Lexer.tokenize parseFloat fuel (header_of name)
  = Some [Lexer.Token Lexer.COMPONENT (Lexer.TVString name)
            (1 + Lexer.line_feeds (header_of name));
          Lexer.Token Lexer.EOF (Lexer.TVString "")
            (1 + Lexer.line_feeds (header_of name))].
Proof.
  intros Hname Hfuel.
  pose proof (scanComponentDeclaration_header fuel name Hname Hfuel) as Hs.
  pose proof (length_header name) as Hlen.
  assert (Lexer.count_newlines (12 + String.length name) (header_of name)
          = Lexer.line_feeds (header_of name)) as Hl.
  { apply LexerProofs.count_newlines_all. lia. }
  rewrite Hl in Hs.
  unfold Lexer.tokenize.
  destruct fuel as [|[|fuel']]; [lia|lia|].
  set (fuel := S (S fuel')) in *.
  assert (Lexer.scanToken parseFloat fuel (Lexer.MkLexer (header_of name) 0 [])
          = Lexer.scanComponentDeclaration fuel
              (Lexer.MkLexer (header_of name) 0 [])) as Hscan by reflexivity.
  unfold fuel at 1. cbn [while_].
  cbn [Lexer.position Lexer.content]. rewrite Hlen.
  change (0 <? 12 + String.length name) with true. cbv iota.
  rewrite Hscan, Hs.
  cbn [Lexer.position Lexer.content]. rewrite Hlen, Nat.ltb_irrefl.
  cbn [mbind option_bind]. unfold Lexer.push, Lexer.getCurrentLine.
  cbn [Lexer.tokens Lexer.position Lexer.content app]. by rewrite Hl.
Qed.

(** X8.  A source that is only a header, [<component NAME>] with one space
    before a name without space, [>] or NUL, parses: the result is a
    component with that name less its first [.ezu], and with no style,
    state, props or template. *)
Theorem parse_of_header (fuel : nat) (name : string) :
  forallb header_name_char (list_ascii_of_string name) = true →
  String.length (header_of name) < fuel →
  parse parseFloat number_to_string fuel (header_of name)
  = Ok (MkAst (Some (Js.replace_first ".ezu" "" name)) None [] [] None).
Proof.
  intros Hname Hfuel. unfold parse.
  rewrite (tokenize_header fuel name Hname Hfuel).
  pose proof (length_header name) as Hlen.
  destruct fuel as [|[|fuel']]; [lia|lia|].
  reflexivity.
Qed.

End WithNumber.

End ParserProofs.
(** ** The parser and the compiler *)

Module CompilerProofs.

Import Value Ast Compiler.

(** *** Strings *)

Lemma split_no_sep (c : ascii) (s : string) :
  Js.includes_char s c = false → Js.split c s = [s].
Proof.
  induction s as [|a s IH]; cbn; [done|].
  destruct (Ascii.eqb a c); [done|]. intros H. by rewrite (IH H).
Qed.

Lemma append_nil_l (s : string) : "" +:+ s = s.
Proof. reflexivity. Qed.

Lemma append_cons (a : ascii) (s t : string) :
  String a s +:+ t = String a (s +:+ t).
Proof. reflexivity. Qed.

Lemma split_at_first (c : ascii) (base rest : string) :
  Js.includes_char base c = false →
  Js.split c (base +:+ String c rest) = base :: Js.split c rest.
Proof.
  induction base as [|a s IH]; rewrite ?append_nil_l, ?append_cons; cbn.
  - by rewrite Ascii.eqb_refl.
  - destruct (Ascii.eqb a c); [done|]. intros H. by rewrite (IH H).
Qed.

Lemma includes_char_app (c : ascii) (base rest : string) :
  Js.includes_char (base +:+ String c rest) c = true.
Proof.
  induction base as [|a s IH]; rewrite ?append_nil_l, ?append_cons; cbn.
  - by rewrite Ascii.eqb_refl.
  - by destruct (Ascii.eqb a c).
Qed.

(** C4, as stated, fails: a second colon and what follows it are dropped,
    and white space around the colon is removed. *)
Lemma scopeSelector_not_as_claimed :
  Js.includes_char "li:first-child:hover" ":" = true
  ∧ Js.startsWith "li:first-child:hover" ":host" = false
  ∧ scopeSelector "li:first-child:hover" "s1" = ".s1 li:first-child"
  ∧ scopeSelector "li:first-child:hover" "s1"
    ≠ scoped_as_claimed "li:first-child:hover" "s1"
  ∧ scopeSelector "a : hover" "s1" = ".s1 a:hover"
  ∧ scopeSelector "a : hover" "s1" ≠ scoped_as_claimed "a : hover" "s1".
Proof. repeat split; try reflexivity; by vm_compute. Qed.

(** C4 (amended).  A selector with exactly one colon that does not start
    with [:host] becomes the scope class, a space, the trimmed part before
    the colon, the colon and the trimmed part after it; a selector that
    starts with [:host] is returned as it is; [button:hover] under [s1]
    becomes [.s1 button:hover]. *)
Theorem scopeSelector_one_colon (base rest scopeId : string) :
  Js.includes_char base ":" = false →
  Js.includes_char rest ":" = false →
  Js.startsWith (base +:+ ":" +:+ rest) ":host" = false →
  scopeSelector (base +:+ ":" +:+ rest) scopeId
  = "." +:+ scopeId +:+ " " +:+ Js.trim base +:+ ":" +:+ Js.trim rest
  ∧ (∀ selector, Js.startsWith selector ":host" = true →
       scopeSelector selector scopeId = selector)
  ∧ scopeSelector "button:hover" "s1" = ".s1 button:hover".
Proof.
  intros Hbase Hrest Hhost. split; [|split].
  - unfold scopeSelector. rewrite Hhost.
    change (base +:+ ":" +:+ rest) with (base +:+ String ":" rest).
    rewrite includes_char_app, (split_at_first _ _ _ Hbase),
      (split_no_sep _ _ Hrest).
    done.
  - intros selector H. unfold scopeSelector. by rewrite H.
  - reflexivity.
Qed.

Lemma scopeSelector_one_colon_witness :
  scopeSelector ("button" +:+ ":" +:+ "hover") "s1"
  = "." +:+ "s1" +:+ " " +:+ Js.trim "button" +:+ ":" +:+ Js.trim "hover"
  ∧ (∀ selector, Js.startsWith selector ":host" = true →
       scopeSelector selector "s1" = selector)
  ∧ scopeSelector "button:hover" "s1" = ".s1 button:hover".
Proof.
  apply (scopeSelector_one_colon "button" "hover" "s1"); reflexivity.
Defined.

Section WithNumber.

Context {number : Type}.

Abbreviation value := (Value.value number).

(** *** The state of an instance *)

Lemma dom_foldl_insert (o : list (string * value)) (m : gmap string value) :
  dom (foldl (fun m p => <[p.1 := p.2]> m) m o) = dom m ∪ list_to_set o.*1.
Proof.
  revert m. induction o as [|[k v] o IH]; intros m; cbn.
  - set_solver.
  - rewrite IH, dom_insert_L. set_solver.
Qed.

(** The data keys of the state an instance starts with are the top-level
    keys of the state block of its AST. *)
Lemma instance_state_keys (d : definition (number:=number)) :
  dom (Reactive.data (instance_state d)) = list_to_set (keys (a_state (d_ast d))).
Proof.
  unfold instance_state, Reactive.new, spread, keys. cbn.
  rewrite dom_foldl_insert. set_solver.
Qed.

(** C3 (code defect).  [compile] throws for every AST: when [validateAST]
    accepts it, the call [this.sanitizeComponentName(ast.name)] fails,
    [sanitizeComponentName] being a method of the component class and not
    of the compiler.  No Component Definition is ever returned. *)
Theorem compile_always_throws (c : compiler) (a : ast number) :
  ∃ e, (compile c a).1 = inl (CompilationFailed e).
Proof.
  unfold compile.
  destruct (validateAST a) as [e|]; [by exists e|].
  by exists (NotAFunction "this.sanitizeComponentName").
Qed.


(** *** Component names *)







End WithNumber.

End CompilerProofs.

(** ** ReactiveState *)

Module ReactiveProofs.

Import Value Reactive.

Section WithValues.

Context {number : Type}.

Abbreviation value := (Value.value number).

Context (strict_eq : value → value → bool).

Abbreviation world := (@Reactive.world number).
Abbreviation ReactiveState := (@Reactive.ReactiveState number).
Abbreviation change := (@Reactive.change number).
Abbreviation entry := (@Reactive.entry number).
Abbreviation rule := (@Reactive.rule number).
Abbreviation tcmd := (@Reactive.tcmd number).
Abbreviation op := (@Reactive.op number).
Abbreviation job := (@Reactive.job number).
Abbreviation cfn := (@Reactive.cfn number).

(** *** Deep copies *)

(** On the values of the model a deep copy is the value itself. *)
Lemma cloneDeep_id (v : value) : cloneDeep v = v.
Proof.
  revert v. fix IH 1. intros [| |b|n|s|t|items|props]; cbn; try reflexivity.
  - f_equal. induction items as [|x items IHitems]; cbn; [done|].
    by rewrite IH, IHitems.
  - f_equal. induction props as [|[k x] props IHprops]; cbn; [done|].
    by rewrite IH, IHprops.
Qed.

Lemma fmap_cloneDeep (d : gmap string value) : cloneDeep <$> d = d.
Proof.
  rewrite <- (map_fmap_id d) at 2.
  apply map_fmap_ext. intros k v _. apply cloneDeep_id.
Qed.

(** *** Reading and assigning properties *)

Lemma state_eta (st : ReactiveState) :
  st = MkState (data st) (accessors st) (listeners st) (computedCache st)
         (dependencies st) (currentComputed st) (initialState st)
         (validation st) (middleware st) (history st) (maxHistorySize st)
         (isDebugMode st) (batchedUpdates st) (updateScheduled st)
         (update_replaced st).
Proof. by destruct st. Qed.

Ltac same_fields :=
  unfold same_but_data; eexists _, _, _, _;
  etransitivity; [apply state_eta|]; cbn; reflexivity.

Lemma same_but_data_refl (st : ReactiveState) : same_but_data st st.
Proof. same_fields. Qed.

Lemma same_but_data_trans (a b c : ReactiveState) :
  same_but_data a b → same_but_data b c → same_but_data a c.
Proof. intros (?&?&?&?&->) (?&?&?&?&->). same_fields. Qed.

Lemma same_but_data_history (st st' : ReactiveState) :
  same_but_data st st' → same_history st st'.
Proof. by intros (?&?&?&?&->). Qed.

Lemma track_dependencies (st : ReactiveState) (property : string) :
  ∃ dp, track st property = set_dependencies st dp.
Proof.
  unfold track. destruct (currentComputed st) as [name|].
  - destruct (String.eqb name ""); [|by eexists].
    exists (dependencies st). by destruct st.
  - exists (dependencies st). by destruct st.
Qed.

(** Evaluating a compute function changes the dependencies at most. *)
Lemma run_cfn_dependencies (f : cfn) (st : ReactiveState) :
  ∃ dp, (run_cfn f st).2 = set_dependencies st dp.
Proof.
  revert st. induction f as [v|viaProxy key k IH]; intros st; cbn [run_cfn].
  - exists (dependencies st). by destruct st.
  - destruct viaProxy; cbn [fst snd]; [|apply IH].
    unfold proxy_get. cbn [fst snd].
    destruct (track_dependencies st key) as [dp ->].
    destruct (IH (get (data (set_dependencies st dp)) key) (set_dependencies st dp))
      as [dp' ->].
    by exists dp'.
Qed.

(** What a compute function returns depends on the data only. *)
Lemma run_cfn_value (f : cfn) (st st' : ReactiveState) :
  data st = data st' → (run_cfn f st).1 = (run_cfn f st').1.
Proof.
  revert st st'. induction f as [v|viaProxy key k IH]; intros st st' Hd;
    cbn [run_cfn]; [done|].
  destruct viaProxy; cbn [fst snd].
  - unfold proxy_get. cbn [fst snd].
    destruct (track_dependencies st key) as [dp ->].
    destruct (track_dependencies st' key) as [dp' ->].
    cbn [data set_dependencies]. rewrite Hd. by apply IH.
  - rewrite Hd. by apply IH.
Qed.

Lemma getter_eq (st : ReactiveState) (name : string) (f : cfn) :
  getter st name f
  = match computedCache st !! name with
    | Some v => (v, st)
    | None =>
        let r := run_cfn f (set_currentComputed st (Some name)) in
        (r.1,
         set_computedCache (set_currentComputed r.2 None)
           (<[name := r.1]> (computedCache r.2)))
    end.
Proof.
  unfold getter. destruct (computedCache st !! name); [done|].
  by destruct (run_cfn f _).
Qed.

Lemma getter_same (st : ReactiveState) (name : string) (f : cfn) :
  same_but_data st (getter st name f).2.
Proof.
  rewrite getter_eq. destruct (computedCache st !! name);
    [apply same_but_data_refl|].
  cbv zeta. cbn [snd].
  destruct (run_cfn_dependencies f (set_currentComputed st (Some name))) as [dp ->].
  same_fields.
Qed.

Lemma getter_data (st : ReactiveState) (name : string) (f : cfn) :
  data (getter st name f).2 = data st.
Proof.
  rewrite getter_eq. destruct (computedCache st !! name); [done|].
  cbv zeta. cbn [snd].
  by destruct (run_cfn_dependencies f (set_currentComputed st (Some name)))
    as [dp ->].
Qed.

Lemma getter_cache_other (st : ReactiveState) (name k : string) (f : cfn) :
  k ≠ name →
  computedCache (getter st name f).2 !! k = computedCache st !! k.
Proof.
  intros Hne. rewrite getter_eq. destruct (computedCache st !! name); [done|].
  cbv zeta. cbn [snd].
  destruct (run_cfn_dependencies f (set_currentComputed st (Some name)))
    as [dp ->].
  cbn. by rewrite lookup_insert_ne.
Qed.

Lemma getter_value (st st' : ReactiveState) (name : string) (f : cfn) :
  data st = data st' →
  computedCache st !! name = computedCache st' !! name →
  (getter st name f).1 = (getter st' name f).1.
Proof.
  intros Hd Hc. rewrite !getter_eq, <- Hc.
  destruct (computedCache st !! name); [done|].
  cbv zeta. cbn [fst]. by apply run_cfn_value.
Qed.

Lemma read_same (st : ReactiveState) (property : string) :
  same_but_data st (read st property).2.
Proof.
  unfold read. destruct (accessors st !! property);
    [apply getter_same|apply same_but_data_refl].
Qed.

Lemma read_data_property (st : ReactiveState) (property : string) :
  data_property st property → read st property = (get (data st) property, st).
Proof. intros H. unfold read. by rewrite H. Qed.

Lemma assign_data_property (st : ReactiveState) (property : string) (v : value) :
  data_property st property →
  assign st property v = inr (set_data st (<[property := v]> (data st))).
Proof. intros H. unfold assign. by rewrite H. Qed.

Lemma assign_same (st st' : ReactiveState) (property : string) (v : value) :
  assign st property v = inr st' → same_but_data st st'.
Proof.
  unfold assign. destruct (accessors st !! property); [done|].
  intros [= <-]. same_fields.
Qed.

Lemma invalidate_same (st : ReactiveState) (property : string) :
  same_but_data st (invalidateComputedProperties st property).
Proof.
  unfold invalidateComputedProperties. same_fields.
Qed.

Lemma updateBatch_loop_same (updates : list (string * value))
  (st : ReactiveState) (changed : list change) :
  same_but_data st (updateBatch_loop strict_eq updates st changed).1.2.
Proof.
  revert st changed. induction updates as [|u updates IH]; intros st changed;
    cbn [updateBatch_loop]; [apply same_but_data_refl|].
  cbv zeta. pose proof (read_same st u.1) as Hr.
  destruct (negb _).
  - destruct (assign _ _ _) as [e|st'] eqn:Ha; [done|].
    eapply same_but_data_trans; [done|].
    eapply same_but_data_trans; [by eapply assign_same|apply IH].
  - eapply same_but_data_trans; [done|apply IH].
Qed.

Lemma notify_changes_obj (w : world)
  (r : option exn * ReactiveState * list change) :
  obj (notify_changes w r).2 = r.1.2.
Proof. by destruct r as [[[e|] st] [|c cs]]. Qed.

Lemma updateBatch_same (w : world) (updates : list (string * value)) :
  same_but_data (obj w) (obj (updateBatch strict_eq w updates).2).
Proof.
  unfold updateBatch. rewrite notify_changes_obj. apply updateBatch_loop_same.
Qed.

Lemma reset_same (w : world) :
  same_but_data (obj w) (obj (reset strict_eq w).2).
Proof.
  unfold reset. rewrite notify_changes_obj. apply updateBatch_loop_same.
Qed.

Lemma proxy_set_same (w : world) (property : string) (v : value) :
  same_but_data (obj w) (obj (proxy_set strict_eq w property v).2).
Proof.
  unfold proxy_set. cbv zeta. pose proof (read_same (obj w) property) as Hr.
  destruct (negb _); [|done].
  destruct (assign _ _ _) as [e|st'] eqn:Ha; [done|].
  cbn [snd obj set_obj notifyListeners enqueue].
  eapply same_but_data_trans; [done|].
  eapply same_but_data_trans; [by eapply assign_same|apply invalidate_same].
Qed.

Lemma replacement_update_same (st : ReactiveState) (updates : list change)
  (property : string) (v : value) :
  same_but_data st (replacement_update st updates property v).1.2.
Proof.
  unfold replacement_update. cbv zeta. pose proof (read_same st property) as Hr.
  destruct (assign _ _ _) as [e|st'] eqn:Ha; [done|].
  eapply same_but_data_trans; [done|by eapply assign_same].
Qed.

Lemma run_fn_same (fn : list tcmd) (st : ReactiveState) (updates : list change) :
  same_but_data st (run_fn fn st updates).1.2.
Proof.
  revert st updates. induction fn as [|c fn IH]; intros st updates;
    [apply same_but_data_refl|].
  destruct c as [k v|k v|e]; cbn [run_fn].
  - destruct (assign st k v) as [e|st'] eqn:Ha; [apply same_but_data_refl|].
    eapply same_but_data_trans; [by eapply assign_same|apply IH].
  - cbv zeta. pose proof (replacement_update_same st updates k v) as Hr.
    destruct (replacement_update st updates k v).1.1; [done|].
    eapply same_but_data_trans; [done|apply IH].
  - apply same_but_data_refl.
Qed.

(** The copy of the data object: every property is there with the value
    that reading it gives, and the instance changes as by these reads. *)
Lemma cloneDeep_data_spec (st : ReactiveState) :
  same_but_data st (cloneDeep_data st).2
  ∧ ∀ k, (cloneDeep_data st).1 !! k
         = match accessors st !! k with
           | Some f => Some (getter st k f).1
           | None => data st !! k
           end.
Proof.
  unfold cloneDeep_data.
  match goal with
  | |- context [map_fold ?step ?start _] =>
      pose proof (map_fold_weak_ind
        (λ (r : gmap string value * ReactiveState) (m : gmap string cfn),
           same_but_data st r.2
           ∧ data r.2 = data st
           ∧ (∀ k, m !! k = None → computedCache r.2 !! k = computedCache st !! k)
           ∧ ∀ k, r.1 !! k = match m !! k with
                             | Some g => Some (getter st k g).1
                             | None => data st !! k
                             end) step start) as Hind
  end.
  destruct (Hind) with (m := accessors st) as (H1 & _ & _ & H4); [| |done].
  - cbn [fst snd]. split; [apply same_but_data_refl|]. split; [done|].
    split; [done|]. intros k. by rewrite lookup_empty, fmap_cloneDeep.
  - intros i f m r Hi (H1 & H2 & H3 & H4). cbv zeta. cbn [fst snd].
    split; [eapply same_but_data_trans; [done|apply getter_same]|].
    split; [by rewrite getter_data|].
    split.
    + intros k [Hk Hne]%lookup_insert_None.
      rewrite getter_cache_other by done. by apply H3.
    + intros k. destruct (decide (k = i)) as [->|Hne].
      * rewrite !lookup_insert_eq, cloneDeep_id. f_equal.
        apply getter_value; [done|by apply H3].
      * rewrite !lookup_insert_ne by done. apply H4.
Qed.

(** After a rollback every property reads as it did when the copy was
    taken. *)
Lemma read_rollback (st st' : ReactiveState) (property : string) :
  (read (rollback st' (cloneDeep_data st).1) property).1 = (read st property).1.
Proof.
  destruct (cloneDeep_data_spec st) as [_ H].
  unfold read, rollback. cbn [accessors set_accessors data set_data].
  rewrite lookup_empty. cbn [fst]. unfold get. rewrite H.
  by destruct (accessors st !! property).
Qed.

(** *** Computed properties (C2) *)

(** Evaluating a compute function that reads [this.data] directly records
    nothing: the instance is left as it is. *)
Lemma run_cfn_direct (f : cfn) (st : ReactiveState) :
  direct f → (run_cfn f st).2 = st.
Proof.
  intros Hf. revert st. induction Hf as [v|key k _ IH]; intros st; cbn; [done|].
  apply IH.
Qed.

(** A cached value whose computed property has no recorded dependency
    survives every invalidation. *)
Lemma cache_survives_invalidation (st : ReactiveState) (name changed : string)
  (v : value) :
  dependencies st !! name = None →
  computedCache st !! name = Some v →
  computedCache (invalidateComputedProperties st changed) !! name = Some v.
Proof.
  intros Hd Hc. unfold invalidateComputedProperties. cbn.
  rewrite map_lookup_imap, Hc. cbn. by rewrite Hd.
Qed.

(** *** Validation (C5) *)



(** *** Transactions (C7, C10) *)




(** The instance after a transaction whose function has thrown, and the
    one after a transaction that returns. *)
Lemma transaction_fields (w : world) (fn : list tcmd) :
  let w' := (transaction strict_eq w fn).2 in
  history (obj w') = history (obj w)
  ∧ maxHistorySize (obj w') = maxHistorySize (obj w)
  ∧ (update_replaced (obj w) = true → update_replaced (obj w') = true)
  ∧ (accessors (obj w) = ∅ → accessors (obj w') = ∅).
Proof.
  cbv zeta. unfold transaction. cbv zeta.
  destruct (cloneDeep_data_spec (obj w)) as [Hc _].
  apply same_but_data_history in Hc as (Hh & Hm & Hu & Ha).
  set (od := cloneDeep_data (obj w)) in *.
  pose proof (run_fn_same fn (set_update_replaced od.2 true) []) as Hr.
  apply same_but_data_history in Hr as (Hh' & Hm' & Hu' & Ha').
  set (r := run_fn fn (set_update_replaced od.2 true) []) in *.
  cbn [history maxHistorySize update_replaced accessors set_update_replaced]
    in Hh', Hm', Hu', Ha'.
  destruct r.1.1 as [error|].
  - cbn [snd obj set_obj rollback history maxHistorySize update_replaced
           accessors set_accessors set_data].
    rewrite Hh', Hm', Hu', Hh, Hm. done.
  - pose proof (updateBatch_same
                  (set_obj w (set_update_replaced r.1.2 (update_replaced od.2)))
                  (batchUpdate_of r.2)) as Hb.
    apply same_but_data_history in Hb as (Hh'' & Hm'' & Hu'' & Ha'').
    cbn [obj set_obj history maxHistorySize update_replaced accessors
           set_update_replaced] in Hh'', Hm'', Hu'', Ha''.
    destruct (updateBatch _ _ _).1 as [error|].
    + cbn [snd obj set_obj rollback history maxHistorySize update_replaced
             accessors set_accessors set_data].
      rewrite Hh'', Hm'', Hu'', Hh', Hm', Hh, Hm, Hu. done.
    + rewrite Hh'', Hm'', Hu'', Ha'', Hh', Hm', Ha', Hh, Hm, Hu, Ha. done.
Qed.

(** Whenever [transaction] throws, whatever the function did, every
    property reads as it did before the call. *)
Lemma transaction_throw_reads (w : world) (fn : list tcmd) (property : string) :
  is_Some (transaction strict_eq w fn).1 →
  (read (obj (transaction strict_eq w fn).2) property).1
  = (read (obj w) property).1.
Proof.
  unfold transaction. cbv zeta.
  destruct (run_fn fn _ _).1.1 as [error|];
    [intros _; apply read_rollback|].
  destruct (updateBatch _ _ _).1 as [error|] eqn:Hb;
    [intros _; apply read_rollback|].
  rewrite Hb. by intros [? ?].
Qed.







(** *** What the operations leave alone *)

Lemma same_history_refl (st : ReactiveState) : same_history st st.
Proof. done. Qed.

Lemma same_history_trans (a b c : ReactiveState) :
  same_history a b → same_history b c → same_history a c.
Proof. intros (?&?&?&?) (?&?&?&?). repeat split; congruence. Qed.

Lemma applyMiddleware_from_obj (w : world) k p o i :
  obj (applyMiddleware_from w k p o i) = obj w.
Proof. unfold applyMiddleware_from. by repeat case_match. Qed.

Lemma invalidate_all_same_history (updates : list change) (st : ReactiveState) :
  same_history st
    (foldl (fun st u => invalidateComputedProperties st (c_property u)) st updates).
Proof.
  revert st. induction updates as [|u updates IH]; intros st; cbn; [done|].
  eapply same_history_trans; [|apply IH]. done.
Qed.

Lemma flushUpdates_same_history (w : world) :
  same_history (obj w) (obj (flushUpdates w)).
Proof.
  unfold flushUpdates. destruct (batchedUpdates (obj w)) as [|u updates]; [done|].
  cbn [obj set_obj call_listeners].
  eapply same_history_trans; [|apply invalidate_all_same_history]. done.
Qed.

Lemma scheduleUpdate_same_history (w : world) :
  same_history (obj w) (obj (scheduleUpdate w)).
Proof. unfold scheduleUpdate. by case_match. Qed.

Lemma update_resume_fields (w : world) k v o :
  history (obj (update_resume w k v o))
  = history (push_history (obj w) (Entry k (cloneDeep o) (cloneDeep v)))
  ∧ maxHistorySize (obj (update_resume w k v o)) = maxHistorySize (obj w)
  ∧ update_replaced (obj (update_resume w k v o)) = update_replaced (obj w)
  ∧ accessors (obj (update_resume w k v o)) = accessors (obj w).
Proof.
  unfold update_resume. cbv zeta.
  destruct (assign _ _ _) as [e|st'] eqn:Ha; [done|].
  match goal with
  | |- context [scheduleUpdate ?x] =>
      destruct (scheduleUpdate_same_history x) as (-> & -> & -> & ->)
  end.
  apply assign_same in Ha as (?&?&?&?&->). done.
Qed.

Lemma call_update_same_history (w : world) (property : string) (v : value) :
  same_history (obj w) (obj (call_update w property v).2).
Proof.
  unfold call_update. destruct (update_replaced (obj w)).
  - cbv zeta. cbn [snd obj set_obj]. apply same_but_data_history.
    apply replacement_update_same.
  - unfold update, applyMiddleware. destruct (validateProperty _ _ _); [done|].
    cbv zeta. cbn [snd]. rewrite applyMiddleware_from_obj. cbn [obj set_obj].
    apply same_but_data_history, read_same.
Qed.

(** *** The history cap (C9) *)

Lemma history_bounded_same (st st' : ReactiveState) :
  same_history st st' → history_bounded st → history_bounded st'.
Proof. intros (Hh&Hm&_) [? ?]. split; congruence. Qed.

Lemma push_history_bounded (st : ReactiveState) (e : entry) :
  history_bounded st → history_bounded (push_history st e).
Proof.
  intros [Hm Hl]. split; [done|]. unfold push_history. rewrite Hm.
  destruct (50 <=? length (history st)) eqn:Hc;
    cbn [history set_history]; rewrite length_app; cbn [length].
  - apply Nat.leb_le in Hc. destruct (history st); cbn [length tail] in *; lia.
  - apply Nat.leb_gt in Hc. lia.
Qed.

Lemma update_resume_bounded (w : world) k v o :
  history_bounded (obj w) → history_bounded (obj (update_resume w k v o)).
Proof.
  intros H.
  destruct (update_resume_fields w k v o) as (Hh & Hm & _).
  destruct (push_history_bounded (obj w) (Entry k (cloneDeep o) (cloneDeep v)) H)
    as [Hm' Hl'].
  split; [by rewrite Hm; destruct H|by rewrite Hh].
Qed.

Lemma step_bounded (w : world) :
  history_bounded (obj w) → history_bounded (obj (step w)).
Proof.
  intros H. unfold step. destruct (queue w) as [|j q]; [done|].
  destruct j; cbn [run_job].
  - by rewrite applyMiddleware_from_obj.
  - by apply update_resume_bounded.
  - done.
  - eapply history_bounded_same; [apply flushUpdates_same_history|done].
  - done.
Qed.

Lemma undo_fields (w : world) :
  maxHistorySize (obj (undo w).2) = maxHistorySize (obj w)
  ∧ update_replaced (obj (undo w).2) = update_replaced (obj w)
  ∧ accessors (obj (undo w).2) = accessors (obj w)
  ∧ length (history (obj (undo w).2)) ≤ length (history (obj w)).
Proof.
  unfold undo.
  destruct (reverse (history (obj w))) as [|lastChange rest] eqn:Hr; [done|].
  assert (length (reverse rest) ≤ length (history (obj w))) as Hl.
  { rewrite length_reverse, <- (length_reverse (history (obj w))), Hr. cbn. lia. }
  destruct (assign _ _ _) as [e|st'] eqn:Ha; [done|].
  apply assign_same in Ha as (?&?&?&?&->). done.
Qed.

Lemma apply_op_bounded (w : world) (o : op) :
  history_bounded (obj w) → history_bounded (obj (apply_op strict_eq w o)).
Proof.
  intros H. destruct o; cbn [apply_op].
  - eapply history_bounded_same; [apply call_update_same_history|done].
  - eapply history_bounded_same;
      [apply same_but_data_history, updateBatch_same|done].
  - destruct H as [Hm Hl]. destruct (undo_fields w) as (Hm' & _ & _ & Hl').
    split; [congruence|lia].
  - destruct H. split; cbn; [done|lia].
  - destruct (transaction_fields w updateFn) as (Hh & Hm & _).
    destruct H. split; congruence.
  - done.
  - done.
  - unfold onChange. by case_match.
  - eapply history_bounded_same;
      [apply same_but_data_history, proxy_set_same|done].
  - eapply history_bounded_same;
      [apply same_but_data_history, reset_same|done].
  - destruct H. split; cbn; [done|lia].
  - by apply step_bounded.
Qed.

Lemma run_bounded (ops : list op) (w : world) :
  history_bounded (obj w) → history_bounded (obj (run strict_eq ops w)).
Proof.
  revert w. induction ops as [|o ops IH]; intros w H; [done|].
  cbn. apply IH. by apply apply_op_bounded.
Qed.

(** C9.  After any sequence of operations on a new instance ([update],
    [updateBatch], [undo], [clearHistory], [transaction], [reset],
    [destroy], registrations, writes through the proxy, and microtasks run
    in between) the history holds at most 50 entries;
    and when the rest of an [update] adds its entry to a history that
    holds 50, the oldest entry leaves first. *)
Theorem history_never_exceeds_cap (initial : list (string * value))
  (ops : list op) :
  let w := run strict_eq ops (init initial) in
  length (history (obj w)) ≤ 50
  ∧ ∀ property v oldValue,
      history (obj (update_resume w property v oldValue))
      = (if 50 <=? length (history (obj w))
         then tail (history (obj w)) else history (obj w))
        ++ [Entry property oldValue v].
Proof.
  cbv zeta.
  destruct (run_bounded ops (init initial)) as [Hm Hl].
  { split; cbn; [done|lia]. }
  split; [done|]. intros property v oldValue.
  destruct (update_resume_fields (run strict_eq ops (init initial))
              property v oldValue) as (-> & _ & _).
  unfold push_history. rewrite Hm, !cloneDeep_id. by case_match.
Qed.

(** *** The replaced [update] (C10) *)






(** *** Updates of one turn (C6) *)

Lemma applyMiddleware_from_enqueue (w : world) k p o i :
  applyMiddleware_from w k p o i = enqueue w (mw_job (obj w) k p o i).
Proof. unfold applyMiddleware_from, mw_job. by repeat case_match. Qed.

Lemma fate_mw_job (st : ReactiveState) k p o i :
  fate st (mw_job st k p o i)
  = chain_change (drop i (middleware st)) (data st) k p o.
Proof.
  unfold mw_job, chain_change.
  destruct (middleware st !! i) as [m|] eqn:Hm.
  - rewrite (drop_S (middleware st) m i Hm). cbn [chain].
    destruct (m k p o (data st)); cbn [fate default]; done.
  - apply lookup_ge_None in Hm. by rewrite drop_ge.
Qed.

Lemma at_stage_in_chain (l : nat) (q : list job) :
  Forall (at_stage l) q → Forall in_chain q.
Proof. intros H. eapply Forall_impl; [done|]. by intros []. Qed.

Lemma fate_next_job (st : ReactiveState) (q : list job) :
  Forall in_chain q → omap (fate st) (omap (next_job st) q) = omap (fate st) q.
Proof.
  induction 1 as [|j q Hj _ IH]; [done|].
  destruct j; try done; cbn [omap list_omap next_job].
  rewrite fate_mw_job, <- IH. done.
Qed.

Lemma steps_add (a b : nat) (w : world) : steps (a + b) w = steps b (steps a w).
Proof. revert w. induction a as [|a IH]; intros w; cbn; [done|]. apply IH. Qed.

Lemma steps_empty (n : nat) (w : world) : queue w = [] → steps n w = w.
Proof.
  intros H. induction n as [|n IH]; cbn; [done|].
  unfold step. by rewrite H.
Qed.

(** A round of the middleware phase: every job of the queue runs once and
    what the jobs queue replaces them, in order; the instance is not
    touched. *)
Lemma middleware_round (st : ReactiveState) (nf : list notification)
  (q acc : list job) :
  Forall in_chain q →
  steps (length q) (World st (q ++ acc) nf)
  = World st (acc ++ omap (next_job st) q) nf.
Proof.
  intros Hq. revert acc. induction Hq as [|j q Hj _ IH]; intros acc.
  - cbn. by rewrite app_nil_r.
  - cbn [length steps]. unfold step at 1. cbn [queue app].
    destruct j; try done; cbn [run_job obj notifications].
    + rewrite applyMiddleware_from_enqueue. unfold enqueue.
      cbn [obj queue notifications]. rewrite <- (app_assoc q acc).
      rewrite IH. cbn [omap list_omap next_job]. by rewrite <- app_assoc.
    + rewrite IH. done.
Qed.

Lemma next_stage (st : ReactiveState) (l : nat) (q : list job) :
  l < length (middleware st) →
  Forall (at_stage l) q → Forall (at_stage (S l)) (omap (next_job st) q).
Proof.
  intros Hl. induction 1 as [|j q Hj _ IH]; [done|].
  destruct j; try done; cbn [omap list_omap next_job].
  constructor; [|done]. cbn in Hj. subst l. unfold mw_job.
  destruct (middleware st !! S index) as [m|] eqn:Hm.
  - by destruct (m _ _ _ _).
  - apply lookup_ge_None in Hm. unfold middleware_fn in *. lia.
Qed.

Lemma last_stage (st : ReactiveState) (l : nat) (q : list job) :
  length (middleware st) ≤ l →
  Forall (at_stage l) q → Forall is_update (omap (next_job st) q).
Proof.
  intros Hl. induction 1 as [|j q Hj _ IH]; [done|].
  destruct j; try done; cbn [omap list_omap next_job].
  constructor; [|done]. cbn in Hj. subst l. unfold mw_job.
  destruct (middleware st !! S index) as [m|] eqn:Hm; [|done].
  apply lookup_lt_Some in Hm. unfold middleware_fn in *. lia.
Qed.

(** The middleware phase: the jobs of a stage run, round after round,
    until only resumptions of [update] are queued, one for each job that
    gets through, in order. *)
Lemma middleware_phase (st : ReactiveState) (nf : list notification)
  (k l : nat) (q : list job) :
  length (middleware st) = k + l →
  Forall (at_stage l) q →
  ∃ n q', steps n (World st q nf) = World st q' nf
          ∧ Forall is_update q'
          ∧ omap (fate st) q' = omap (fate st) q.
Proof.
  revert l q. induction k as [|k IH]; intros l q HL Hq.
  - exists (length q), (omap (next_job st) q).
    rewrite <- (app_nil_r q) at 2. rewrite middleware_round
      by by eapply at_stage_in_chain.
    split; [done|]. split.
    + eapply last_stage; [|done]. lia.
    + apply fate_next_job. by eapply at_stage_in_chain.
  - destruct (IH (S l) (omap (next_job st) q)) as (n & q' & Hn & Hq' & Hf).
    { lia. }
    { apply next_stage; [lia|done]. }
    exists (length q + n), q'. rewrite steps_add.
    rewrite <- (app_nil_r q) at 2. rewrite middleware_round
      by by eapply at_stage_in_chain.
    split; [done|]. split; [done|].
    rewrite Hf. apply fate_next_job. by eapply at_stage_in_chain.
Qed.

Lemma update_resume_first (w : world) k v o :
  data_property (obj w) k →
  updateScheduled (obj w) = false →
  update_resume w k v o
  = World (write (obj w) (Change k v o)) (queue w ++ [JFlush]) (notifications w).
Proof.
  intros Hk H. unfold update_resume. cbv zeta.
  rewrite assign_data_property by exact Hk.
  unfold scheduleUpdate, write, push_history. cbn. by rewrite H.
Qed.

Lemma update_resume_next (w : world) k v o :
  data_property (obj w) k →
  updateScheduled (obj w) = true →
  update_resume w k v o
  = World (write (obj w) (Change k v o)) (queue w) (notifications w).
Proof.
  intros Hk H. unfold update_resume. cbv zeta.
  rewrite assign_data_property by exact Hk.
  unfold scheduleUpdate, write, push_history.
  cbn. rewrite H. destruct w as [st q nf]. cbn in *. f_equal.
  destruct st. cbn in *. by subst.
Qed.

Lemma write_fields (cs : list change) (st : ReactiveState) :
  data (foldl write st cs)
  = foldl (fun d c => <[c_property c := c_value c]> d) (data st) cs
  ∧ history (foldl write st cs)
    = foldl (push_entry (maxHistorySize st)) (history st) (entry_of <$> cs)
  ∧ batchedUpdates (foldl write st cs) = batchedUpdates st ++ cs
  ∧ listeners (foldl write st cs) = listeners st
  ∧ maxHistorySize (foldl write st cs) = maxHistorySize st.
Proof.
  revert st. induction cs as [|c cs IH]; intros st.
  - cbn. by rewrite app_nil_r.
  - cbn [foldl fmap list_fmap].
    destruct (IH (write st c)) as (Hd & Hh & Hb & Hl & Hm).
    rewrite Hd, Hh, Hb, Hl, Hm. unfold write, push_history, push_entry, entry_of.
    rewrite !cloneDeep_id.
    cbn [data history batchedUpdates listeners maxHistorySize set_data
           set_history set_batchedUpdates set_updateScheduled].
    by rewrite <- app_assoc.
Qed.

(** The write phase: the resumptions of [update] run in order; a flush
    has been requested already. *)
Lemma write_phase (st0 st : ReactiveState) (nf : list notification)
  (q acc : list job) :
  Forall is_update q →
  Forall (fun c => data_property st (c_property c)) (omap (fate st0) q) →
  updateScheduled st = true →
  steps (length q) (World st (q ++ acc) nf)
  = World (foldl write st (omap (fate st0) q)) acc nf.
Proof.
  intros Hq. revert st. induction Hq as [|j q Hj _ IH]; intros st Hk Hs; [done|].
  destruct j; try done. cbn [omap list_omap fate] in Hk.
  inversion Hk as [|? ? Hc Hk']; subst.
  cbn [length steps]. unfold step at 1. cbn [queue app run_job obj notifications].
  rewrite update_resume_next by done. cbn [obj queue notifications].
  rewrite IH; [done| |done].
  eapply Forall_impl; [exact Hk'|]. by intros c.
Qed.

Lemma invalidate_all_data (updates : list change) (st : ReactiveState) :
  data (foldl (fun st u => invalidateComputedProperties st (c_property u)) st updates)
  = data st.
Proof.
  revert st. induction updates as [|u updates IH]; intros st; cbn; [done|].
  by rewrite IH.
Qed.

(** On a data property [update] reads the old value and hands it to the
    middleware; the instance is not touched. *)
Lemma update_data_property (w : world) (property : string) (v : value) :
  data_property (obj w) property →
  (update w property v).2
  = World (obj w)
      (queue w ++ from_option (fun j => [j]) [] (first_job (obj w) (property, v)))
      (notifications w).
Proof.
  intros Hp. unfold update, first_job, applyMiddleware. cbn [fst snd].
  destruct (validateProperty _ _ _).
  - cbn. rewrite app_nil_r. by destruct w.
  - cbv zeta. rewrite (read_data_property _ _ Hp). cbn [fst snd].
    rewrite applyMiddleware_from_enqueue. by destruct w.
Qed.

Lemma turn_queue (us : list (string * value)) (w : world) :
  Forall (fun u => data_property (obj w) u.1) us →
  foldl (fun w u => (update w u.1 u.2).2) w us
  = World (obj w) (queue w ++ omap (first_job (obj w)) us) (notifications w).
Proof.
  intros H. revert w H. induction us as [|u us IH]; intros w H.
  - cbn. rewrite app_nil_r. by destruct w.
  - inversion H as [|? ? Hu Hus]; subst. cbn [foldl].
    rewrite update_data_property by done. rewrite IH by done.
    cbn [obj queue notifications omap list_omap]. destruct u as [k v].
    cbn [fst snd]. destruct (first_job (obj w) (k, v)); cbn.
    + by rewrite <- app_assoc.
    + by rewrite app_nil_r.
Qed.

Lemma fate_first_job (st : ReactiveState) (us : list (string * value)) :
  omap (fate st) (omap (first_job st) us) = applied st us.
Proof.
  unfold applied. induction us as [|u us IH]; [done|].
  cbn [omap list_omap]. unfold first_job at 1, applied_change at 1.
  destruct (validateProperty st u.1 u.2); [done|].
  cbn [omap list_omap]. rewrite fate_mw_job, IH. done.
Qed.

Lemma first_job_stage (st : ReactiveState) (us : list (string * value)) :
  match middleware st with
  | [] => Forall is_update (omap (first_job st) us)
  | _ => Forall (at_stage 1) (omap (first_job st) us)
  end.
Proof.
  destruct (middleware st) as [|m ms] eqn:Hms;
    (induction us as [|u us IH]; [done|]);
    cbn [omap list_omap]; unfold first_job at 1;
    (destruct (validateProperty st u.1 u.2); [done|]);
    constructor; try done; unfold mw_job; rewrite Hms; cbn; [done|].
  by destruct (m _ _ _ _).
Qed.

Lemma chain_property (ms : list middleware_fn) (d : gmap string value)
  (k : string) (p o : value) (c : change) :
  chain_change ms d k p o = Some c → c_property c = k.
Proof.
  unfold chain_change. destruct (chain ms d k p o); [done|]. by intros [= <-].
Qed.

Lemma applied_keys (P : string → Prop) (st : ReactiveState)
  (us : list (string * value)) :
  Forall (fun u => P u.1) us → Forall (fun c => P (c_property c)) (applied st us).
Proof.
  unfold applied. induction 1 as [|u us Hu _ IH]; [done|].
  cbn [omap list_omap]. destruct (applied_change st u) as [c|] eqn:Hc; [|done].
  constructor; [|done]. unfold applied_change in Hc.
  destruct (validateProperty _ _ _); [done|].
  by rewrite (chain_property _ _ _ _ _ _ Hc).
Qed.

Lemma flush_written (st : ReactiveState) (nf : list notification)
  (cs : list change) :
  cs ≠ [] → batchedUpdates st = cs →
  let w := flushUpdates (World st [] nf) in
  queue w = []
  ∧ notifications w = nf ++ [Notification (listeners st) (data st) cs]
  ∧ data (obj w) = data st
  ∧ history (obj w) = history st.
Proof.
  intros Hne Hb. cbv zeta. unfold flushUpdates. cbn [obj]. rewrite Hb.
  destruct cs as [|c cs]; [done|].
  cbn [call_listeners set_obj obj queue notifications].
  repeat split.
  - by rewrite invalidate_all_data.
  - by destruct (invalidate_all_same_history (c :: cs)
                   (set_updateScheduled (set_batchedUpdates st []) false))
      as (-> & _).
Qed.

(** A call of [updateBatch] adds nothing to the pending updates and runs
    no listener; when it changes something it queues a listener round of
    its own. *)
Lemma updateBatch_notifies (w : world) (updates : list (string * value)) :
  let w' := (updateBatch strict_eq w updates).2 in
  batchedUpdates (obj w') = batchedUpdates (obj w)
  ∧ updateScheduled (obj w') = updateScheduled (obj w)
  ∧ notifications w' = notifications w
  ∧ (queue w' = queue w
     ∨ ∃ changed, changed ≠ [] ∧ queue w' = queue w ++ [JNotify changed]).
Proof.
  cbv zeta. destruct (updateBatch_same w updates) as (?&?&?&?&->).
  split; [done|]. split; [done|].
  unfold updateBatch, notify_changes.
  destruct (updateBatch_loop _ _ _ _) as [[[e|] st] [|c cs]];
    cbn; split; try done; try by left.
  right. by exists (c :: cs).
Qed.

(** C6 (amended).  When nothing is pending, the calls of [update] made in
    one turn on data properties, with synchronous middleware, lead to
    exactly one listener round once the microtasks have run, provided one
    of them at least gets through validation and middleware: the round
    delivers the changes that got through, in call order, with the data in
    which the last write to a key has won, and each of these calls has
    added its own entry to the history, in call order.  A call of
    [updateBatch] is not part of that round: it adds nothing to the
    pending updates, and when it changes something it queues a round of
    its own. *)
Theorem updates_of_one_turn_coalesce (w0 : world) (us : list (string * value)) :
  queue w0 = [] →
  batchedUpdates (obj w0) = [] →
  updateScheduled (obj w0) = false →
  Forall (fun u => data_property (obj w0) u.1) us →
  applied (obj w0) us ≠ [] →
  (∃ n, ∀ m, n ≤ m →
     let w2 := steps m (foldl (fun w u => (update w u.1 u.2).2) w0 us) in
     let cs := applied (obj w0) us in
     queue w2 = []
     ∧ notifications w2
       = notifications w0 ++ [Notification (listeners (obj w0)) (data (obj w2)) cs]
     ∧ data (obj w2)
       = foldl (fun d c => <[c_property c := c_value c]> d) (data (obj w0)) cs
     ∧ history (obj w2)
       = foldl (push_entry (maxHistorySize (obj w0))) (history (obj w0))
           (entry_of <$> cs))
  ∧ (∀ w updates,
       let w' := (updateBatch strict_eq w updates).2 in
       batchedUpdates (obj w') = batchedUpdates (obj w)
       ∧ updateScheduled (obj w') = updateScheduled (obj w)
       ∧ notifications w' = notifications w
       ∧ (queue w' = queue w
          ∨ ∃ changed, changed ≠ [] ∧ queue w' = queue w ++ [JNotify changed])).
Proof.
  intros Hq Hb Hs Hkeys Hcs. split; [|apply updateBatch_notifies].
  rewrite turn_queue, Hq, app_nil_l by done.
  pose proof (fate_first_job (obj w0) us) as Hfate.
  pose proof (applied_keys (data_property (obj w0)) (obj w0) us Hkeys) as Hck.
  assert (∃ n q', steps n (World (obj w0) (omap (first_job (obj w0)) us)
                             (notifications w0))
                  = World (obj w0) q' (notifications w0)
                  ∧ Forall is_update q'
                  ∧ omap (fate (obj w0)) q' = applied (obj w0) us)
    as (n1 & q' & Hn1 & Hq' & Hf).
  { pose proof (first_job_stage (obj w0) us) as Hstage.
    destruct (middleware (obj w0)) as [|m ms] eqn:Hms.
    - by exists 0, (omap (first_job (obj w0)) us).
    - destruct (middleware_phase (obj w0) (notifications w0) (length ms) 1
                  (omap (first_job (obj w0)) us)) as (n & q' & ? & ? & Hf);
        [rewrite Hms; cbn; lia|done|].
      exists n, q'. by rewrite Hf. }
  destruct q' as [|j q'']; [by rewrite <- Hf in Hcs|].
  inversion Hq' as [|? ? Hj Hq'']; subst. destruct j; try done.
  set (c := Change property processedValue oldValue).
  set (cs := applied (obj w0) us) in *.
  assert (cs = c :: omap (fate (obj w0)) q'') as Hcs' by by rewrite <- Hf.
  rewrite Hcs' in Hck. inversion Hck as [|? ? Hc Hck']; subst.
  set (st_w := foldl write (obj w0) cs).
  assert (steps (n1 + (1 + (length q'' + 1)))
            (World (obj w0) (omap (first_job (obj w0)) us) (notifications w0))
          = flushUpdates (World st_w [] (notifications w0))) as Hrun.
  { rewrite steps_add, Hn1, steps_add. cbn [steps]. unfold step at 1.
    cbn [queue run_job obj notifications].
    rewrite update_resume_first by done. cbn [obj queue notifications].
    rewrite steps_add, (write_phase (obj w0)) by done.
    cbn [steps]. unfold step. cbn [queue run_job obj notifications].
    unfold st_w. by rewrite Hcs'. }
  destruct (write_fields cs (obj w0)) as (Hd & Hh & Hbw & Hl & _).
  fold st_w in Hd, Hh, Hbw, Hl. rewrite Hb, app_nil_l in Hbw.
  destruct (flush_written st_w (notifications w0) cs Hcs Hbw)
    as (Fq & Fn & Fd & Fh).
  exists (n1 + (1 + (length q'' + 1))). intros m Hm. cbv zeta.
  replace m with ((n1 + (1 + (length q'' + 1))) + (m - (n1 + (1 + (length q'' + 1)))))
    by lia.
  rewrite steps_add, Hrun, (steps_empty _ _ Fq).
  rewrite Fn, Fd, Fh, Hl, Hd, Hh. done.
Qed.

(** *** One turn of updates, once more *)

Lemma fate_is_update (st : ReactiveState) (q : list job) :
  Forall is_update q → omap (fate st) q = [] → q = [].
Proof. intros H. by destruct H as [|[] q]. Qed.

(** The world once the calls of [update] of one turn, on data properties
    of an instance with nothing pending, and their microtasks have run. *)
Lemma turn_runs (w0 : world) (us : list (string * value)) :
  queue w0 = [] →
  batchedUpdates (obj w0) = [] →
  updateScheduled (obj w0) = false →
  Forall (fun u => data_property (obj w0) u.1) us →
  ∃ n, ∀ m, n ≤ m →
    steps m (foldl (fun w u => (update w u.1 u.2).2) w0 us)
    = match applied (obj w0) us with
      | [] => w0
      | cs => flushUpdates (World (foldl write (obj w0) cs) [] (notifications w0))
      end.
Proof.
  intros Hq Hb Hs Hkeys.
  rewrite turn_queue, Hq, app_nil_l by done.
  pose proof (applied_keys (data_property (obj w0)) (obj w0) us Hkeys) as Hck.
  assert (∃ n q', steps n (World (obj w0) (omap (first_job (obj w0)) us)
                             (notifications w0))
                  = World (obj w0) q' (notifications w0)
                  ∧ Forall is_update q'
                  ∧ omap (fate (obj w0)) q' = applied (obj w0) us)
    as (n1 & q' & Hn1 & Hq' & Hf).
  { pose proof (first_job_stage (obj w0) us) as Hstage.
    pose proof (fate_first_job (obj w0) us) as Hfate.
    destruct (middleware (obj w0)) as [|m ms] eqn:Hms.
    - by exists 0, (omap (first_job (obj w0)) us).
    - destruct (middleware_phase (obj w0) (notifications w0) (length ms) 1
                  (omap (first_job (obj w0)) us)) as (n & q' & ? & ? & Hf);
        [rewrite Hms; cbn; lia|done|].
      exists n, q'. by rewrite Hf. }
  destruct (applied (obj w0) us) as [|c cs] eqn:Hcs.
  - apply fate_is_update in Hf; [|done]. subst q'.
    exists n1. intros m Hm. replace m with (n1 + (m - n1)) by lia.
    rewrite steps_add, Hn1, steps_empty by done. destruct w0. by cbn in *; subst.
  - destruct q' as [|j q'']; [done|].
    inversion Hq' as [|? ? Hj Hq'']; subst. destruct j; try done.
    cbn [omap list_omap fate] in Hf. injection Hf as Hc Hf'.
    inversion Hck as [|? ? Hkc Hck']; subst.
    assert (steps (n1 + (1 + (length q'' + 1)))
              (World (obj w0) (omap (first_job (obj w0)) us) (notifications w0))
            = flushUpdates
                (World (foldl write (obj w0)
                          (Change property processedValue oldValue :: omap (fate (obj w0)) q''))
                   [] (notifications w0))) as Hrun.
    { rewrite steps_add, Hn1, steps_add. cbn [steps]. unfold step at 1.
      cbn [queue run_job obj notifications].
      rewrite update_resume_first by done. cbn [obj queue notifications].
      rewrite steps_add, (write_phase (obj w0)) by done.
      cbn [steps]. unfold step. by cbn [queue run_job obj notifications]. }
    exists (n1 + (1 + (length q'' + 1))). intros m Hm.
    replace m with ((n1 + (1 + (length q'' + 1)))
                    + (m - (n1 + (1 + (length q'' + 1))))) by lia.
    rewrite steps_add, Hrun. apply steps_empty.
    unfold flushUpdates. by case_match.
Qed.

(** X11.  When every call of [update] of a turn is turned down, by a validation
    rule or by a middleware that throws, the instance ends as it was:
    nothing is written, the history gets no entry, the listeners are not
    called and nothing stays queued. *)
Theorem rejected_updates_leave_no_trace (w0 : world) (us : list (string * value)) :
  queue w0 = [] →
  batchedUpdates (obj w0) = [] →
  updateScheduled (obj w0) = false →
  Forall (fun u => data_property (obj w0) u.1) us →
  applied (obj w0) us = [] →
  ∃ n, ∀ m, n ≤ m →
    steps m (foldl (fun w u => (update w u.1 u.2).2) w0 us) = w0.
Proof.
  intros Hq Hb Hs Hkeys Hcs.
  destruct (turn_runs w0 us Hq Hb Hs Hkeys) as [n Hn].
  exists n. intros m Hm. by rewrite (Hn m Hm), Hcs.
Qed.

(** *** Validation rules *)



(** *** [updateBatch] and [reset] *)

(** The loop of [updateBatch] on data properties with distinct keys, when
    values that [===] identifies are equal: no exception, every listed key
    ends with its listed value and the other keys keep theirs. *)
Lemma updateBatch_loop_writes (updates : list (string * value))
  (st : ReactiveState) (changed : list change) :
  (∀ a b, strict_eq a b = true → a = b) →
  Forall (fun u => data_property st u.1) updates →
  NoDup updates.*1 →
  ∃ d changed',
    updateBatch_loop strict_eq updates st changed = (None, set_data st d, changed')
    ∧ (∀ k v, (k, v) ∈ updates → get d k = v)
    ∧ (∀ k, k ∉ updates.*1 → d !! k = data st !! k).
Proof.
  intros Hsound Hk. revert st changed Hk.
  induction updates as [|[k v] updates IH]; intros st changed Hk Hnd.
  - exists (data st), changed. split; [by destruct st|]. split; [|done].
    intros k v Hin. by apply elem_of_nil in Hin.
  - inversion Hk as [|? ? Hu Hus]; subst. cbn [fst] in Hu.
    rewrite fmap_cons in Hnd. apply NoDup_cons in Hnd as [Hnotin Hnd].
    cbn [updateBatch_loop]. cbv zeta. cbn [fst snd].
    rewrite (read_data_property st k Hu). cbn [fst snd].
    destruct (strict_eq (get (data st) k) v) eqn:Heq; cbn [negb].
    + destruct (IH st changed Hus Hnd) as (d & changed' & -> & Hin & Hout).
      exists d, changed'. split; [done|]. split.
      * intros k' v' [[= -> ->]|Hin']%elem_of_cons; [|by apply Hin].
        unfold get. rewrite (Hout k Hnotin). by apply Hsound.
      * intros k' Hk'. apply Hout. intros Hin'. apply Hk'. rewrite fmap_cons. by right.
    + rewrite (assign_data_property st k v Hu).
      destruct (IH (set_data st (<[k:=v]> (data st)))
                  (changed ++ [Change k v (get (data st) k)])) as
        (d & changed' & -> & Hin & Hout); [done|done|].
      exists d, changed'. split; [done|]. split.
      * intros k' v' [[= -> ->]|Hin']%elem_of_cons; [|by apply Hin].
        unfold get. rewrite (Hout k Hnotin). cbn. by rewrite lookup_insert_eq.
      * intros k' Hk'. rewrite (Hout k').
        -- cbn. rewrite lookup_insert_ne; [done|]. intros ->. apply Hk'.
           rewrite fmap_cons. by left.
        -- intros Hin'. apply Hk'. rewrite fmap_cons. by right.
Qed.

Lemma notify_changes_fields (w : world) (st : ReactiveState) (changed : list change) :
  let r := notify_changes w (None, st, changed) in
  r.1 = None ∧ obj r.2 = st ∧ notifications r.2 = notifications w
  ∧ queue r.2 = queue w ++ match changed with [] => [] | _ => [JNotify changed] end.
Proof.
  cbv zeta. unfold notify_changes. cbn [fst snd].
  destruct changed; cbn; by rewrite ?app_nil_r.
Qed.

(** X12.  [updateBatch] on the entries of an object whose keys are data
    properties, when values that [===] identifies are equal: it does not
    throw, whatever the validation rules and the middleware; afterwards
    every listed key holds its listed value and every other key the value
    it had; the history and the pending updates are untouched. *)
Theorem updateBatch_writes_unchecked (w : world) (updates : list (string * value)) :
  (∀ a b, strict_eq a b = true → a = b) →
  Forall (fun u => data_property (obj w) u.1) updates →
  NoDup updates.*1 →
  let r := updateBatch strict_eq w updates in
  r.1 = None
  ∧ (∀ k v, (k, v) ∈ updates → get (data (obj r.2)) k = v)
  ∧ (∀ k, k ∉ updates.*1 → data (obj r.2) !! k = data (obj w) !! k)
  ∧ history (obj r.2) = history (obj w)
  ∧ batchedUpdates (obj r.2) = batchedUpdates (obj w)
  ∧ validation (obj r.2) = validation (obj w).
Proof.
  intros Hsound Hk Hnd. cbv zeta. unfold updateBatch.
  destruct (updateBatch_loop_writes updates (obj w) [] Hsound Hk Hnd)
    as (d & changed' & -> & Hin & Hout).
  destruct (notify_changes_fields w (set_data (obj w) d) changed')
    as (-> & -> & _). done.
Qed.

(** X13.  [reset()] on an instance whose initial keys are data properties, when
    values that [===] identifies are equal: every key of the initial state
    holds its initial value again; the keys added since keep their values
    and the history keeps its entries. *)
Theorem reset_restores_initial_values (w : world) :
  (∀ a b, strict_eq a b = true → a = b) →
  Forall (fun u => data_property (obj w) u.1) (initialState (obj w)) →
  NoDup (initialState (obj w)).*1 →
  let r := reset strict_eq w in
  r.1 = None
  ∧ (∀ k v, (k, v) ∈ initialState (obj w) → get (data (obj r.2)) k = v)
  ∧ (∀ k, k ∉ (initialState (obj w)).*1 → data (obj r.2) !! k = data (obj w) !! k)
  ∧ history (obj r.2) = history (obj w)
  ∧ initialState (obj r.2) = initialState (obj w).
Proof.
  intros Hsound Hk Hnd. cbv zeta. unfold reset.
  destruct (updateBatch_loop_writes (initialState (obj w)) (obj w) [] Hsound Hk Hnd)
    as (d & changed' & -> & Hin & Hout).
  destruct (notify_changes_fields w (set_data (obj w) d) changed')
    as (-> & -> & _). done.
Qed.

Lemma obj_set_fst_elem {A : Type} (o : list (string * A)) (key k : string) (v : A) :
  k ∈ (Js.obj_set o key v).*1 → k = key ∨ k ∈ o.*1.
Proof.
  induction o as [|[k' x] o IH]; cbn.
  - intros ->%list_elem_of_singleton. by left.
  - destruct (String.eqb k' key) eqn:Heq; cbn.
    + apply String.eqb_eq in Heq as ->.
      intros [->|Hin]%elem_of_cons; [by left|]. right. by right.
    + intros [->|Hin]%elem_of_cons; [right; by left|].
      destruct (IH Hin) as [->|Hin']; [by left|]. right. by right.
Qed.

Lemma obj_set_keys_NoDup {A : Type} (o : list (string * A)) (key : string) (v : A) :
  NoDup o.*1 → NoDup (Js.obj_set o key v).*1.
Proof.
  intros Hnd. induction o as [|[k x] o IH]; cbn.
  - apply NoDup_singleton.
  - rewrite fmap_cons in Hnd. apply NoDup_cons in Hnd as [Hk Hnd].
    destruct (String.eqb k key) eqn:Heq; cbn; apply NoDup_cons; [done|].
    split; [|by apply IH]. intros Hin.
    apply String.eqb_neq in Heq.
    by destruct (obj_set_fst_elem o key k v Hin).
Qed.

(** The initial state that the constructor keeps has distinct keys. *)
Lemma new_initialState_NoDup (initial : list (string * value)) :
  NoDup (initialState (new initial)).*1.
Proof.
  cbn. assert (NoDup (@nil (string * value)).*1) as H by constructor.
  revert H. generalize (@nil (string * value)).
  induction initial as [|p initial IH]; intros o Ho; cbn; [done|].
  apply IH. by apply obj_set_keys_NoDup.
Qed.

(** *** [undo] *)

Lemma flushUpdates_fields (w : world) :
  data (obj (flushUpdates w)) = data (obj w)
  ∧ same_history (obj w) (obj (flushUpdates w))
  ∧ (batchedUpdates (obj w) ≠ [] → queue (flushUpdates w) = queue w).
Proof.
  split; [|split; [apply flushUpdates_same_history|]].
  - unfold flushUpdates. destruct (batchedUpdates (obj w)); [done|].
    cbn [obj set_obj call_listeners]. by rewrite invalidate_all_data.
  - unfold flushUpdates. by destruct (batchedUpdates (obj w)).
Qed.

(** X14.  [update] on a data property of an instance with nothing pending, then,
    once its microtasks have run, [undo()]: the call returns [true], every
    property holds the value it had before the update, the entry of the
    update has left the history (an entry that the update pushed out of a
    full history stays lost), and one listener round is queued for the
    change back. *)
Theorem undo_reverts_update (w0 : world) (property : string) (v : value)
  (c : change) :
  queue w0 = [] →
  batchedUpdates (obj w0) = [] →
  updateScheduled (obj w0) = false →
  data_property (obj w0) property →
  applied (obj w0) [(property, v)] = [c] →
  ∃ n, ∀ m, n ≤ m →
    let r := undo (steps m (update w0 property v).2) in
    r.1 = inr true
    ∧ (∀ k, get (data (obj r.2)) k = get (data (obj w0)) k)
    ∧ history (obj r.2)
      = (if maxHistorySize (obj w0) <=? length (history (obj w0))
         then tail (history (obj w0)) else history (obj w0))
    ∧ queue r.2 = [JNotify [Change property (c_oldValue c) (c_value c)]].
Proof.
  intros Hq Hb Hs Hp Hc.
  destruct (turn_runs w0 [(property, v)] Hq Hb Hs) as [n Hn]; [by repeat constructor|].
  exists n. intros m Hm. cbv zeta.
  specialize (Hn m Hm). cbn [foldl fst snd] in Hn. rewrite Hn, Hc. clear Hn.
  cbv iota. cbn [foldl].
  assert (c_property c = property) as Hk.
  { pose proof (applied_keys (fun k => k = property) (obj w0) [(property, v)]) as H.
    rewrite Hc in H. assert (Forall (fun u : string * value => u.1 = property)
                                [(property, v)]) as H' by by repeat constructor.
    apply H in H'. by inversion H'. }
  assert (c_oldValue c = get (data (obj w0)) property) as Ho.
  { unfold applied, applied_change, chain_change in Hc. cbn in Hc.
    destruct (validateProperty _ _ _); [done|].
    destruct (chain _ _ _ _ _); [done|]. by injection Hc as <-. }
  set (w1 := World (write (obj w0) c) [] (notifications w0)).
  destruct (flushUpdates_fields w1) as (Hd & (Hh & Hm' & Hu & Ha) & Hqf).
  assert (queue (flushUpdates w1) = []) as Hq1.
  { rewrite Hqf; [done|]. cbn. by destruct (batchedUpdates _). }
  assert (history (obj (flushUpdates w1))
          = (if maxHistorySize (obj w0) <=? length (history (obj w0))
             then tail (history (obj w0)) else history (obj w0))
            ++ [Entry property (c_oldValue c) (c_value c)]) as Hh1.
  { rewrite Hh. cbn. unfold push_history. cbn. by rewrite !cloneDeep_id, Hk. }
  unfold undo. rewrite Hh1, reverse_app. cbn [reverse rev_append app].
  change (rev_append ?l []) with (reverse l). rewrite reverse_involutive.
  cbn [h_property h_oldValue h_newValue].
  rewrite assign_data_property.
  2:{ unfold data_property. cbn [accessors set_history]. by rewrite Ha. }
  cbn [fst snd obj set_obj notifyListeners enqueue queue data set_data
         history set_history].
  rewrite Hq1, Hd. split; [done|]. split; [|done].
  intros k. unfold get. cbn. rewrite Hk, Ho.
  destruct (decide (k = property)) as [->|Hne].
  - by rewrite lookup_insert_eq.
  - by rewrite !lookup_insert_ne.
Qed.

(** With an empty history [undo()] returns [false] and changes nothing. *)
Lemma undo_nothing (w : world) :
  history (obj w) = [] → undo w = (inr false, w).
Proof. intros H. unfold undo. by rewrite H. Qed.

(** *** Transactions that return *)

Lemma cloneDeep_data_data (st : ReactiveState) :
  data (cloneDeep_data st).2 = data st.
Proof.
  unfold cloneDeep_data.
  match goal with
  | |- context [map_fold ?step ?start _] =>
      apply (map_fold_weak_ind
               (λ (r : gmap string value * ReactiveState) (_ : gmap string cfn),
                  data r.2 = data st) step start)
  end; [done|].
  intros i f m r _ H. cbv zeta. cbn [snd]. by rewrite getter_data.
Qed.

Lemma updates_data_accessors (st st' : ReactiveState) (fn : list tcmd) :
  accessors st' = accessors st →
  Forall (updates_data strict_eq st) fn → Forall (updates_data strict_eq st') fn.
Proof.
  intros Ha H. eapply Forall_impl; [done|].
  intros [k v|k v|e]; unfold updates_data, data_property; by rewrite ?Ha.
Qed.

(** A function that only calls [update], on data properties: the values
    are written in order and each call is recorded. *)
Lemma run_fn_updates (fn : list tcmd) (st : ReactiveState) (ups : list change) :
  Forall (updates_data strict_eq st) fn →
  ∃ ups',
    run_fn fn st ups
    = (None,
       set_data st (foldl (fun d u => <[u.1 := u.2]> d) (data st) (captured_writes fn)),
       ups ++ ups')
    ∧ (fun c => (c_property c, c_value c)) <$> ups' = captured_writes fn.
Proof.
  intros H. revert st ups H. induction fn as [|c fn IH]; intros st ups H.
  - exists []. rewrite app_nil_r. split; [by destruct st|done].
  - inversion H as [|? ? Hc Hfn]; subst.
    destruct c as [k v|k v|e]; [done| |done]. destruct Hc as [Hk _].
    cbn [run_fn]. unfold replacement_update. cbv zeta.
    rewrite (read_data_property st k Hk). cbn [fst snd].
    rewrite (assign_data_property st k v Hk). cbn [fst snd].
    destruct (IH (set_data st (<[k:=v]> (data st)))
                (ups ++ [Change k v (get (data st) k)])) as (ups' & -> & Hu).
    { by eapply updates_data_accessors. }
    exists (Change k v (get (data st) k) :: ups'). rewrite <- app_assoc.
    split; [done|]. cbn. by rewrite Hu.
Qed.

Lemma obj_set_elem {A : Type} (o : list (string * A)) (key k : string) (v x : A) :
  NoDup o.*1 →
  (k, x) ∈ Js.obj_set o key v → (k = key ∧ x = v) ∨ (k ≠ key ∧ (k, x) ∈ o).
Proof.
  induction o as [|[k' x'] o IH]; intros Hnd; cbn [Js.obj_set].
  - intros [= -> ->]%list_elem_of_singleton. by left.
  - rewrite fmap_cons in Hnd. apply NoDup_cons in Hnd as [Hk' Hnd].
    cbn [fst] in Hk'. destruct (String.eqb k' key) eqn:Heq.
    + apply String.eqb_eq in Heq as ->.
      intros [[= -> ->]|Hin]%elem_of_cons; [by left|]. right. split; [|by right].
      intros ->. apply Hk'. by apply (list_elem_of_fmap_2 fst) in Hin.
    + apply String.eqb_neq in Heq.
      intros [[= -> ->]|Hin]%elem_of_cons; [right; split; [done|by left]|].
      destruct (IH Hnd Hin) as [?|[? ?]]; [by left|]. right. split; [done|by right].
Qed.

(** The object that [transaction] hands to [updateBatch] holds, for each
    key, a value that was written, the one the data holds. *)
Lemma batchUpdate_in_data (writes : list (string * value))
  (o : list (string * value)) (d : gmap string value) :
  NoDup o.*1 →
  (∀ k v, (k, v) ∈ o → d !! k = Some v) →
  ∀ k v,
    (k, v) ∈ foldl (fun o u => Js.obj_set o u.1 u.2) o writes →
    foldl (fun d u => <[u.1 := u.2]> d) d writes !! k = Some v
    ∧ ((k, v) ∈ o ∨ (k, v) ∈ writes).
Proof.
  revert o d. induction writes as [|[k0 v0] writes IH]; intros o d Hnd Ho k v;
    cbn [foldl fst snd].
  - intros Hin. split; [by apply Ho|by left].
  - intros Hin.
    destruct (IH (Js.obj_set o k0 v0) (<[k0:=v0]> d)) with (k := k) (v := v)
      as [Hd Hor]; [by apply obj_set_keys_NoDup| |done|].
    + intros k' v' Hin'.
      destruct (obj_set_elem o k0 k' v0 v' Hnd Hin') as [[-> ->]|[Hne Hin'']].
      * by rewrite lookup_insert_eq.
      * rewrite lookup_insert_ne by done. by apply Ho.
    + split; [done|]. destruct Hor as [Hin'|Hin']; [|right; by right].
      destruct (obj_set_elem o k0 k v0 v Hnd Hin') as [[-> ->]|[Hne Hin'']].
      * right. by left.
      * by left.
Qed.

Lemma batchUpdate_of_eq (ups : list change) :
  batchUpdate_of ups
  = foldl (fun o u => Js.obj_set o u.1 u.2) []
      ((fun c => (c_property c, c_value c)) <$> ups).
Proof.
  unfold batchUpdate_of. generalize (@nil (string * value)).
  induction ups as [|c ups IH]; intros o; cbn; [done|]. apply IH.
Qed.

(** The loop of [updateBatch] over entries that the data holds already. *)
Lemma updateBatch_loop_same_values (updates : list (string * value))
  (st : ReactiveState) (changed : list change) :
  Forall (fun u => data_property st u.1
                   ∧ strict_eq (get (data st) u.1) u.2 = true) updates →
  updateBatch_loop strict_eq updates st changed = (None, st, changed).
Proof.
  induction 1 as [|u updates [Hk Heq] _ IH]; [done|].
  cbn [updateBatch_loop]. cbv zeta.
  rewrite (read_data_property st u.1 Hk). cbn [fst snd]. by rewrite Heq.
Qed.

(** X16.  A transaction whose function only calls [update], on data properties
    and with values that are identical to themselves, and returns: the
    values are in the data, written in order, and that is all.  The call
    of [updateBatch] finds every value in place: no listener round is
    queued, and the history and the pending updates are as before. *)
Theorem transaction_of_updates_is_silent (w : world) (fn : list tcmd) :
  Forall (updates_data strict_eq (obj w)) fn →
  let r := transaction strict_eq w fn in
  r.1 = None
  ∧ data (obj r.2)
    = foldl (fun d u => <[u.1 := u.2]> d) (data (obj w)) (captured_writes fn)
  ∧ queue r.2 = queue w
  ∧ notifications r.2 = notifications w
  ∧ history (obj r.2) = history (obj w)
  ∧ batchedUpdates (obj r.2) = batchedUpdates (obj w)
  ∧ update_replaced (obj r.2) = update_replaced (obj w).
Proof.
  intros Hfn. cbv zeta. unfold transaction. cbv zeta.
  destruct (cloneDeep_data_spec (obj w)) as [Hc _].
  pose proof (cloneDeep_data_data (obj w)) as Hd.
  destruct Hc as (d0 & c0 & dp0 & cc0 & Hc).
  set (st0 := set_update_replaced (cloneDeep_data (obj w)).2 true).
  assert (Forall (updates_data strict_eq st0) fn) as Hfn'.
  { eapply updates_data_accessors; [|done]. unfold st0. by rewrite Hc. }
  destruct (run_fn_updates fn st0 [] Hfn') as (ups & -> & Hups).
  cbn [fst snd app].
  set (d1 := foldl (fun d u => <[u.1 := u.2]> d) (data st0) (captured_writes fn)).
  set (st1 := set_update_replaced (set_data st0 d1)
                (update_replaced (cloneDeep_data (obj w)).2)).
  assert (updateBatch_loop strict_eq (batchUpdate_of ups) st1 [] = (None, st1, []))
    as Hloop.
  { apply updateBatch_loop_same_values. rewrite batchUpdate_of_eq, Hups.
    apply Forall_forall. intros [k v] Hin. cbn [fst snd].
    destruct (batchUpdate_in_data (captured_writes fn) [] (data st0)) with
      (k := k) (v := v) as [Hk Hor]; [constructor| |done|].
    { intros ? ? H. by apply elem_of_nil in H. }
    destruct Hor as [Hnil|Hw]; [by apply elem_of_nil in Hnil|].
    apply list_elem_of_omap in Hw as (c & Hcin & Hcap).
    destruct c as [k' v'|k' v'|e]; try done. injection Hcap as -> ->.
    rewrite Forall_forall in Hfn'. destruct (Hfn' _ Hcin) as [Hkd Hvv].
    split; [done|]. replace (get (data st1) k) with v; [done|].
    unfold get, st1. cbn [data set_update_replaced set_data]. unfold d1.
    by rewrite Hk. }
  unfold updateBatch. cbn [obj set_obj]. fold st1. rewrite Hloop.
  unfold notify_changes. cbn [fst snd obj set_obj queue notifications].
  unfold st1, d1, st0. cbn [data history batchedUpdates update_replaced
                              set_update_replaced set_data].
  rewrite Hd. rewrite Hc. done.
Qed.

(** *** What becomes of the cache and of the dependencies *)

Lemma kept_refl (st : ReactiveState) : cache_kept st st ∧ deps_kept st st.
Proof. by split; intros ? ?. Qed.

Lemma kept_trans (a b c : ReactiveState) :
  cache_kept a b ∧ deps_kept a b → cache_kept b c ∧ deps_kept b c →
  cache_kept a c ∧ deps_kept a c.
Proof.
  intros [H1 H2] [H3 H4]. split; intros ? ? ?; [by apply H3, H1|by apply H4, H2].
Qed.

Lemma kept_eq (st st' : ReactiveState) :
  computedCache st' = computedCache st → dependencies st' = dependencies st →
  cache_kept st st' ∧ deps_kept st st'.
Proof.
  intros Hc Hd. split; intros ? ?; unfold deps; by rewrite ?Hc, ?Hd.
Qed.

Lemma track_kept (st : ReactiveState) (property : string) :
  computedCache (track st property) = computedCache st
  ∧ currentComputed (track st property) = currentComputed st
  ∧ data (track st property) = data st
  ∧ deps_kept st (track st property)
  ∧ ∀ name, currentComputed st = Some name → name ≠ "" →
            property ∈ deps (track st property) name.
Proof.
  unfold track. destruct (currentComputed st) as [name|] eqn:Hcur.
  - destruct (String.eqb name "") eqn:Hname.
    + apply String.eqb_eq in Hname as ->.
      split_and!; try done; [by intros ? ? ?|]. intros ? [= <-] Hne. done.
    + split_and!; try done.
      * intros name' k Hk. unfold deps in *. cbn [dependencies set_dependencies].
        destruct (decide (name' = name)) as [->|Hne].
        -- rewrite lookup_insert_eq. cbn. set_solver.
        -- by rewrite lookup_insert_ne.
      * intros ? [= <-] _. unfold deps. cbn [dependencies set_dependencies].
        rewrite lookup_insert_eq. cbn. set_solver.
  - split_and!; try done. by intros ? ? ?.
Qed.

Lemma run_cfn_kept (f : cfn) (st : ReactiveState) :
  computedCache (run_cfn f st).2 = computedCache st
  ∧ deps_kept st (run_cfn f st).2
  ∧ ∀ name, currentComputed st = Some name → name ≠ "" →
            ∀ k, k ∈ proxy_keys f (data st) → k ∈ deps (run_cfn f st).2 name.
Proof.
  revert st. induction f as [v|viaProxy key k IH]; intros st; cbn [run_cfn proxy_keys].
  - split_and!; try done; [by intros ? ? ?|].
    intros ? _ _ ? H. by apply elem_of_nil in H.
  - destruct viaProxy; cbn [fst snd app].
    + unfold proxy_get. cbn [fst snd].
      destruct (track_kept st key) as (Hc & Hcur & Hd & Hk & Hadd).
      destruct (IH (get (data (track st key)) key) (track st key)) as (Hc' & Hk' & Hadd').
      split; [congruence|]. split; [intros ? ? ?; by apply Hk', Hk|].
      intros name Hn Hne k0 [->|Hin]%elem_of_cons.
      * apply Hk'. by apply Hadd.
      * apply Hadd'; [congruence|done|]. by rewrite Hd.
    + destruct (IH (get (data st) key) st) as (Hc' & Hk' & Hadd').
      split; [done|]. split; [done|]. intros name Hn Hne k0 Hin. by apply Hadd'.
Qed.

Lemma getter_kept (st : ReactiveState) (name : string) (f : cfn) :
  cache_kept st (getter st name f).2 ∧ deps_kept st (getter st name f).2.
Proof.
  rewrite getter_eq. destruct (computedCache st !! name) eqn:Hc; [apply kept_refl|].
  cbv zeta. cbn [snd].
  destruct (run_cfn_kept f (set_currentComputed st (Some name))) as (Hc' & Hk' & _).
  split.
  - intros name' v Hv. cbn [computedCache set_computedCache set_currentComputed].
    rewrite Hc'. cbn. destruct (decide (name' = name)) as [->|Hne]; [congruence|].
    by rewrite lookup_insert_ne.
  - intros name' k Hk. apply Hk' in Hk. done.
Qed.

Lemma read_kept (st : ReactiveState) (property : string) :
  cache_kept st (read st property).2 ∧ deps_kept st (read st property).2.
Proof.
  unfold read. destruct (accessors st !! property);
    [apply getter_kept|apply kept_refl].
Qed.

Lemma assign_kept (st st' : ReactiveState) (property : string) (v : value) :
  assign st property v = inr st' → cache_kept st st' ∧ deps_kept st st'.
Proof.
  unfold assign. destruct (accessors st !! property); [done|].
  intros [= <-]. by apply kept_eq.
Qed.

Lemma updateBatch_loop_kept (updates : list (string * value))
  (st : ReactiveState) (changed : list change) :
  cache_kept st (updateBatch_loop strict_eq updates st changed).1.2
  ∧ deps_kept st (updateBatch_loop strict_eq updates st changed).1.2.
Proof.
  revert st changed. induction updates as [|u updates IH]; intros st changed;
    cbn [updateBatch_loop]; [apply kept_refl|].
  cbv zeta. pose proof (read_kept st u.1) as Hr.
  destruct (negb _).
  - destruct (assign _ _ _) as [e|st'] eqn:Ha; [done|].
    eapply kept_trans; [done|].
    eapply kept_trans; [by eapply assign_kept|apply IH].
  - eapply kept_trans; [done|apply IH].
Qed.

Lemma replacement_update_kept (st : ReactiveState) (updates : list change)
  (property : string) (v : value) :
  cache_kept st (replacement_update st updates property v).1.2
  ∧ deps_kept st (replacement_update st updates property v).1.2.
Proof.
  unfold replacement_update. cbv zeta. pose proof (read_kept st property) as Hr.
  destruct (assign _ _ _) as [e|st'] eqn:Ha; [done|].
  eapply kept_trans; [done|by eapply assign_kept].
Qed.

Lemma run_fn_kept (fn : list tcmd) (st : ReactiveState) (updates : list change) :
  cache_kept st (run_fn fn st updates).1.2 ∧ deps_kept st (run_fn fn st updates).1.2.
Proof.
  revert st updates. induction fn as [|c fn IH]; intros st updates;
    [apply kept_refl|].
  destruct c as [k v|k v|e]; cbn [run_fn].
  - destruct (assign st k v) as [e|st'] eqn:Ha; [apply kept_refl|].
    eapply kept_trans; [by eapply assign_kept|apply IH].
  - cbv zeta. pose proof (replacement_update_kept st updates k v) as Hr.
    destruct (replacement_update st updates k v).1.1; [done|].
    eapply kept_trans; [done|apply IH].
  - apply kept_refl.
Qed.

Lemma cloneDeep_data_kept (st : ReactiveState) :
  cache_kept st (cloneDeep_data st).2 ∧ deps_kept st (cloneDeep_data st).2.
Proof.
  unfold cloneDeep_data.
  match goal with
  | |- context [map_fold ?step ?start _] =>
      apply (map_fold_weak_ind
               (λ (r : gmap string value * ReactiveState) (_ : gmap string cfn),
                  cache_kept st r.2 ∧ deps_kept st r.2) step start)
  end; [apply kept_refl|].
  intros i f m r _ H. cbv zeta. cbn [snd].
  eapply kept_trans; [done|apply getter_kept].
Qed.

Lemma updateBatch_kept (w : world) (updates : list (string * value)) :
  cache_kept (obj w) (obj (updateBatch strict_eq w updates).2)
  ∧ deps_kept (obj w) (obj (updateBatch strict_eq w updates).2).
Proof.
  unfold updateBatch. rewrite notify_changes_obj. apply updateBatch_loop_kept.
Qed.

Lemma transaction_kept (w : world) (fn : list tcmd) :
  cache_kept (obj w) (obj (transaction strict_eq w fn).2)
  ∧ deps_kept (obj w) (obj (transaction strict_eq w fn).2).
Proof.
  unfold transaction. cbv zeta.
  pose proof (cloneDeep_data_kept (obj w)) as H1.
  set (od := cloneDeep_data (obj w)) in *.
  pose proof (run_fn_kept fn (set_update_replaced od.2 true) []) as H2.
  set (r := run_fn fn (set_update_replaced od.2 true) []) in *.
  assert (cache_kept (obj w) r.1.2 ∧ deps_kept (obj w) r.1.2) as H3.
  { eapply kept_trans; [done|]. eapply kept_trans; [|done]. by apply kept_eq. }
  destruct r.1.1 as [error|].
  - cbn [snd obj set_obj]. eapply kept_trans; [done|]. by apply kept_eq.
  - pose proof (updateBatch_kept
                  (set_obj w (set_update_replaced r.1.2 (update_replaced od.2)))
                  (batchUpdate_of r.2)) as H4.
    cbn [obj set_obj] in H4.
    assert (cache_kept (obj w)
              (obj (updateBatch strict_eq
                      (set_obj w (set_update_replaced r.1.2 (update_replaced od.2)))
                      (batchUpdate_of r.2)).2)
            ∧ deps_kept (obj w)
                (obj (updateBatch strict_eq
                        (set_obj w (set_update_replaced r.1.2 (update_replaced od.2)))
                        (batchUpdate_of r.2)).2)) as H5.
    { eapply kept_trans; [done|]. eapply kept_trans; [|done]. by apply kept_eq. }
    destruct (updateBatch _ _ _).1 as [error|]; [|done].
    cbn [snd obj set_obj]. eapply kept_trans; [done|]. by apply kept_eq.
Qed.

Lemma call_update_kept (w : world) (property : string) (v : value) :
  cache_kept (obj w) (obj (call_update w property v).2)
  ∧ deps_kept (obj w) (obj (call_update w property v).2).
Proof.
  unfold call_update. destruct (update_replaced (obj w)).
  - cbv zeta. cbn [snd obj set_obj]. apply replacement_update_kept.
  - unfold update, applyMiddleware. destruct (validateProperty _ _ _);
      [apply kept_refl|].
    cbv zeta. cbn [snd]. rewrite applyMiddleware_from_obj. cbn [obj set_obj].
    apply read_kept.
Qed.

Lemma undo_kept (w : world) :
  cache_kept (obj w) (obj (undo w).2) ∧ deps_kept (obj w) (obj (undo w).2).
Proof.
  unfold undo. destruct (reverse (history (obj w))) as [|lastChange rest];
    [apply kept_refl|].
  destruct (assign _ _ _) as [e|st'] eqn:Ha; [by apply kept_eq|].
  cbn [snd obj notifyListeners enqueue set_obj].
  eapply kept_trans; [|by eapply assign_kept]. by apply kept_eq.
Qed.

(** X17.  The operations other than a microtask, a write through the proxy and
    [destroy] leave every cached value where it is.  [updateBatch], [undo],
    [reset], [transaction] and the replaced [update] write data without
    invalidating: a computed property that was read before them reads the
    same afterwards, whatever they wrote. *)
Theorem writes_leave_cache_stale (w : world) (o : op) (name : string)
  (f : cfn) (v : value) :
  keeps_cache o →
  accessors (obj w) !! name = Some f →
  computedCache (obj w) !! name = Some v →
  computedCache (obj (apply_op strict_eq w o)) !! name = Some v
  ∧ (read (obj (apply_op strict_eq w o)) name).1 = v.
Proof.
  intros Ho Hf Hv.
  assert (cache_kept (obj w) (obj (apply_op strict_eq w o))) as Hkept.
  { destruct o; try done; cbn [apply_op].
    - apply call_update_kept.
    - apply updateBatch_kept.
    - apply undo_kept.
    - by apply kept_eq.
    - apply transaction_kept.
    - by apply kept_eq.
    - by apply kept_eq.
    - unfold onChange. case_match; by apply kept_eq.
    - unfold reset. rewrite notify_changes_obj. apply updateBatch_loop_kept. }
  split; [by apply Hkept|].
  assert (accessors (obj (apply_op strict_eq w o)) = accessors (obj w)
          ∨ ∃ st', obj (apply_op strict_eq w o)
                   = rollback st' (cloneDeep_data (obj w)).1) as [Ha|[st' Hst']].
  { destruct o; try done; cbn [apply_op].
    - left. by destruct (call_update_same_history w property v0) as (_ & _ & _ & ->).
    - left. by destruct (same_but_data_history _ _ (updateBatch_same w updates))
        as (_ & _ & _ & ->).
    - left. by destruct (undo_fields w) as (_ & _ & -> & _).
    - by left.
    - unfold transaction. cbv zeta.
      destruct (cloneDeep_data_spec (obj w)) as [Hc _].
      apply same_but_data_history in Hc as (_ & _ & _ & Ha).
      pose proof (run_fn_same updateFn
                    (set_update_replaced (cloneDeep_data (obj w)).2 true) []) as Hr.
      apply same_but_data_history in Hr as (_ & _ & _ & Ha').
      destruct (run_fn _ _ _).1.1 as [error|]; [right; by eexists|].
      match goal with
      | |- context [updateBatch strict_eq ?w' ?us] =>
          pose proof (updateBatch_same w' us) as Hb
      end.
      apply same_but_data_history in Hb as (_ & _ & _ & Ha'').
      destruct (updateBatch _ _ _).1 as [error|]; [right; by eexists|].
      left. rewrite Ha''. cbn [obj set_obj accessors set_update_replaced].
      rewrite Ha'. cbn [accessors set_update_replaced]. done.
    - by left.
    - by left.
    - left. unfold onChange. by case_match.
    - left. by destruct (same_but_data_history _ _ (reset_same w)) as (_ & _ & _ & ->). }
  - unfold read. rewrite Ha, Hf, getter_eq. by rewrite (Hkept _ _ Hv).
  - rewrite Hst', read_rollback. unfold read. by rewrite Hf, getter_eq, Hv.
Qed.

Lemma invalidate_all_deps (updates : list change) (st : ReactiveState) :
  dependencies
    (foldl (fun st u => invalidateComputedProperties st (c_property u)) st updates)
  = dependencies st.
Proof.
  revert st. induction updates as [|u updates IH]; intros st; cbn; [done|].
  by rewrite IH.
Qed.

Lemma step_deps (w : world) : dependencies (obj (step w)) = dependencies (obj w).
Proof.
  unfold step. destruct (queue w) as [|j q]; [done|].
  destruct j; cbn [run_job].
  - by rewrite applyMiddleware_from_obj.
  - unfold update_resume. cbv zeta. destruct (assign _ _ _) as [e|st'] eqn:Ha; [done|].
    unfold assign in Ha. destruct (accessors _ !! _); [done|]. injection Ha as <-.
    unfold scheduleUpdate. by case_match.
  - done.
  - unfold flushUpdates. destruct (batchedUpdates _); [done|].
    cbn [obj set_obj call_listeners]. by rewrite invalidate_all_deps.
  - done.
Qed.

(** X18.  A recorded dependency is never taken back: recomputing a property
    adds the keys it reads through the proxy to those recorded before, and
    no operation but [destroy] removes a key. *)
Theorem dependencies_only_grow (w : world) (o : op) (name k : string) :
  o ≠ OpDestroy →
  k ∈ deps (obj w) name →
  k ∈ deps (obj (apply_op strict_eq w o)) name.
Proof.
  intros Ho. revert name k. change (deps_kept (obj w) (obj (apply_op strict_eq w o))).
  destruct o; try done; cbn [apply_op].
  - apply call_update_kept.
  - apply updateBatch_kept.
  - apply undo_kept.
  - by apply kept_eq.
  - apply transaction_kept.
  - by apply kept_eq.
  - by apply kept_eq.
  - unfold onChange. case_match; by apply kept_eq.
  - unfold proxy_set. cbv zeta. pose proof (read_kept (obj w) property) as [_ Hr].
    destruct (negb _); [|done].
    destruct (assign _ _ _) as [e|st'] eqn:Ha; [done|].
    apply assign_kept in Ha as [_ Ha].
    cbn [snd obj set_obj notifyListeners enqueue].
    intros name k Hk. unfold deps. cbn. by apply Ha, Hr.
  - unfold reset. rewrite notify_changes_obj. apply updateBatch_loop_kept.
  - intros name k. unfold deps. by rewrite step_deps.
Qed.

(** *** Computed properties that read through the proxy *)

Lemma getter_tracks (st : ReactiveState) (name : string) (f : cfn) :
  name ≠ "" → computedCache st !! name = None →
  (∀ k, k ∈ proxy_keys f (data st) → k ∈ deps (getter st name f).2 name)
  ∧ is_Some (computedCache (getter st name f).2 !! name).
Proof.
  intros Hne Hc. rewrite getter_eq, Hc. cbv zeta. cbn [snd].
  destruct (run_cfn_kept f (set_currentComputed st (Some name))) as (_ & _ & Hadd).
  split.
  - intros k Hk. by apply (Hadd name).
  - cbn. rewrite lookup_insert_eq. by eexists.
Qed.

Lemma invalidate_cache (st : ReactiveState) (changed name : string) :
  changed ∈ deps st name →
  computedCache (invalidateComputedProperties st changed) !! name = None.
Proof.
  intros Hk. unfold invalidateComputedProperties. cbn.
  rewrite map_lookup_imap. destruct (computedCache st !! name); [|done]. cbn.
  unfold deps in Hk. destruct (dependencies st !! name); [|set_solver].
  by rewrite decide_True.
Qed.

Lemma invalidate_cache_none (st : ReactiveState) (changed name : string) :
  computedCache st !! name = None →
  computedCache (invalidateComputedProperties st changed) !! name = None.
Proof.
  intros Hc. unfold invalidateComputedProperties. cbn.
  by rewrite map_lookup_imap, Hc.
Qed.

Lemma applied_same (st st' : ReactiveState) (us : list (string * value)) :
  validation st' = validation st → middleware st' = middleware st →
  data st' = data st →
  applied st' us = applied st us.
Proof.
  intros Hv Hm Hd. unfold applied. apply list_omap_ext.
  induction us as [|u us IH]; constructor; [|done].
  unfold applied_change, validateProperty. by rewrite Hv, Hm, Hd.
Qed.

Lemma invalidate_all_cache (updates : list change) (st : ReactiveState)
  (name : string) :
  computedCache st !! name = None
  ∨ (∃ c, c ∈ updates ∧ c_property c ∈ deps st name) →
  computedCache
    (foldl (fun st u => invalidateComputedProperties st (c_property u)) st updates)
  !! name = None.
Proof.
  revert st. induction updates as [|u updates IH]; intros st; cbn [foldl].
  - intros [H|(c & Hin & _)]; [done|]. by apply elem_of_nil in Hin.
  - intros [H|(c & Hin & Hc)]; apply IH.
    + left. by apply invalidate_cache_none.
    + apply elem_of_cons in Hin as [->|Hin].
      * left. by apply invalidate_cache.
      * right. by exists c.
Qed.

Lemma flush_invalidates (st : ReactiveState) (nf : list notification)
  (name : string) :
  (∃ c, c ∈ batchedUpdates st ∧ c_property c ∈ deps st name) →
  computedCache (obj (flushUpdates (World st [] nf))) !! name = None.
Proof.
  intros (c & Hin & Hc). unfold flushUpdates. cbn [obj].
  destruct (batchedUpdates st) as [|c0 cs] eqn:Hb; [by apply elem_of_nil in Hin|].
  cbn [obj set_obj call_listeners]. apply invalidate_all_cache. right. by exists c.
Qed.

(** X19.  A computed property whose function reads key [k] through the proxy,
    read for the first time and so cached; then [update(k, v)] on the data
    property [k], with nothing else pending.  Once the microtasks have run,
    [k] holds the value written and reading the computed property gives
    what its function returns on the data of now: the flush has dropped
    the cached value. *)
Theorem computed_is_fresh_through_proxy (w0 : world) (name : string) (f : cfn)
  (k : string) (v : value) (c : change) :
  queue w0 = [] →
  batchedUpdates (obj w0) = [] →
  updateScheduled (obj w0) = false →
  accessors (obj w0) !! name = Some f →
  name ≠ "" →
  computedCache (obj w0) !! name = None →
  data_property (obj w0) k →
  k ∈ proxy_keys f (data (obj w0)) →
  applied (obj w0) [(k, v)] = [c] →
  let w1 := set_obj w0 (read (obj w0) name).2 in
  ∃ n, ∀ m, n ≤ m →
    let w2 := steps m (update w1 k v).2 in
    data (obj w2) = <[k := c_value c]> (data (obj w0))
    ∧ (read (obj w2) name).1 = (run_cfn f (obj w2)).1.
Proof.
  intros Hq Hb Hs Hf Hne Hc Hk Hin Hap. cbv zeta.
  set (st1 := (read (obj w0) name).2).
  assert (st1 = (getter (obj w0) name f).2) as Hst1
    by (unfold st1, read; by rewrite Hf).
  destruct (getter_tracks (obj w0) name f Hne Hc) as [Htr _].
  pose proof (getter_same (obj w0) name f) as Hsame.
  pose proof (getter_data (obj w0) name f) as Hd1.
  rewrite <- Hst1 in Htr, Hsame, Hd1.
  destruct Hsame as (d' & c' & dp' & cc' & Hsame).
  assert (applied st1 [(k, v)] = [c]) as Hap1.
  { rewrite <- Hap. apply applied_same; [by rewrite Hsame..|done]. }
  destruct (turn_runs (set_obj w0 st1) [(k, v)]) as [n Hn].
  { done. }
  { cbn [obj set_obj]. by rewrite Hsame. }
  { cbn [obj set_obj]. by rewrite Hsame. }
  { repeat constructor. cbn [obj set_obj fst]. unfold data_property. by rewrite Hsame. }
  exists n. intros m Hm. specialize (Hn m Hm).
  cbn [foldl fst snd obj set_obj] in Hn. rewrite Hn, Hap1. clear Hn.
  cbv iota. cbn [foldl notifications set_obj].
  assert (c_property c = k) as Hck.
  { pose proof (applied_keys (fun x => x = k) (obj w0) [(k, v)]) as H.
    rewrite Hap in H.
    assert (Forall (fun u : string * value => u.1 = k) [(k, v)]) as H'
      by by repeat constructor.
    apply H in H'. by inversion H'. }
  set (stw := write st1 c).
  assert (batchedUpdates stw = [c]) as Hbw.
  { unfold stw, write. cbn. rewrite Hsame. cbn. by rewrite Hb. }
  assert (data stw = <[k := c_value c]> (data (obj w0))) as Hdw.
  { unfold stw, write. cbn. by rewrite Hck, Hd1. }
  assert (accessors stw = accessors (obj w0)) as Haw.
  { unfold stw, write. cbn. by rewrite Hsame. }
  assert (k ∈ deps stw name) as Hdep by by apply Htr.
  destruct (flushUpdates_fields (World stw [] (notifications w0)))
    as (Hd & (_ & _ & _ & Ha) & _).
  cbn [obj] in Hd, Ha.
  pose proof (flush_invalidates stw (notifications w0) name) as Hnone.
  rewrite Hbw in Hnone. specialize (Hnone ltac:(exists c; split; [by left|by rewrite Hck])).
  split; [by rewrite Hd|].
  unfold read. rewrite Ha, Haw, Hf, getter_eq, Hnone. cbv zeta. cbn [fst].
  by apply run_cfn_value.
Qed.

(** *** Watchers *)

Lemma foldl_insert_last (cs : list change) (d : gmap string value)
  (property : string) (c : change) :
  last_change property cs = Some c →
  foldl (fun d c => <[c_property c := c_value c]> d) d cs !! property
  = Some (c_value c).
Proof.
  unfold last_change. revert c. induction cs as [|c' cs IH] using rev_ind;
    intros c; [done|].
  rewrite reverse_app, foldl_app. cbn [reverse rev_append app foldl List.find].
  destruct (String.eqb (c_property c') property) eqn:Heq.
  - apply String.eqb_eq in Heq. intros [= <-]. by rewrite Heq, lookup_insert_eq.
  - apply String.eqb_neq in Heq. intros Hc.
    rewrite lookup_insert_ne by done. by apply IH.
Qed.

(** X21.  The updates of one turn on data properties, some of them of
    [property], and a watcher of [property].  In the one listener round of
    the turn the watcher calls its callback with the value and the old
    value of the first change of [property], while the data holds the
    value of the last. *)
Theorem watcher_sees_first_change (w0 : world) (us : list (string * value))
  (property : string) (first last : change) :
  queue w0 = [] →
  batchedUpdates (obj w0) = [] →
  updateScheduled (obj w0) = false →
  Forall (fun u => data_property (obj w0) u.1) us →
  List.find (fun c => String.eqb (c_property c) property) (applied (obj w0) us)
  = Some first →
  last_change property (applied (obj w0) us) = Some last →
  ∃ n, ∀ m, n ≤ m →
    let w2 := steps m (foldl (fun w u => (update w u.1 u.2).2) w0 us) in
    ∃ round,
      notifications w2 = notifications w0 ++ [round]
      ∧ watch_listener property (n_changes round)
        = Some (c_value first, c_oldValue first)
      ∧ get (data (obj w2)) property = c_value last.
Proof.
  intros Hq Hb Hs Hkeys Hfirst Hlast.
  destruct (turn_runs w0 us Hq Hb Hs Hkeys) as [n Hn].
  exists n. intros m Hm. cbv zeta. rewrite (Hn m Hm). clear Hn.
  destruct (applied (obj w0) us) as [|c cs] eqn:Hcs; [done|].
  destruct (write_fields (c :: cs) (obj w0)) as (Hd & _ & Hbw & Hl & _).
  rewrite Hb, app_nil_l in Hbw.
  destruct (flush_written (foldl write (obj w0) (c :: cs)) (notifications w0)
              (c :: cs)) as (_ & Fn & Fd & _); [done|done|].
  eexists. split; [exact Fn|]. split.
  - unfold watch_listener. cbn [n_changes]. by rewrite Hfirst.
  - unfold get. rewrite Fd, Hd. by rewrite (foldl_insert_last _ _ _ _ Hlast).
Qed.

(** *** [destroy] *)

Lemma same_but_data_listeners (st st' : ReactiveState) :
  same_but_data st st' → listeners st' = listeners st.
Proof. by intros (?&?&?&?&->). Qed.

Lemma notify_changes_notifications (w : world)
  (r : option exn * ReactiveState * list change) :
  notifications (notify_changes w r).2 = notifications w.
Proof. by destruct r as [[[e|] st] [|c cs]]. Qed.

Lemma invalidate_all_listeners (updates : list change) (st : ReactiveState) :
  listeners
    (foldl (fun st u => invalidateComputedProperties st (c_property u)) st updates)
  = listeners st.
Proof.
  revert st. induction updates as [|u updates IH]; intros st; cbn; [done|].
  by rewrite IH.
Qed.

(** A microtask adds no listener, and calls the listeners of the moment
    if it calls any. *)
Lemma step_listeners (w : world) :
  listeners (obj (step w)) = listeners (obj w)
  ∧ ∃ rounds, notifications (step w) = notifications w ++ rounds
              ∧ Forall (fun r => n_listeners r = listeners (obj w)) rounds.
Proof.
  unfold step. destruct (queue w) as [|j q].
  { split; [done|]. exists []. by rewrite app_nil_r. }
  destruct j; cbn [run_job].
  - rewrite applyMiddleware_from_enqueue. split; [done|]. exists [].
    by rewrite app_nil_r.
  - unfold update_resume. cbv zeta. destruct (assign _ _ _) as [e|st'] eqn:Ha.
    + split; [done|]. exists []. by rewrite app_nil_r.
    + apply assign_same in Ha as (?&?&?&?&->). unfold scheduleUpdate.
      case_match; (split; [done|]); exists []; by rewrite app_nil_r.
  - split; [done|]. exists []. by rewrite app_nil_r.
  - unfold flushUpdates. cbn [obj]. destruct (batchedUpdates (obj w)) as [|c cs].
    + split; [done|]. exists []. by rewrite app_nil_r.
    + cbn [obj set_obj call_listeners notifications]. split.
      * by rewrite invalidate_all_listeners.
      * eexists. split; [done|]. by repeat constructor.
  - cbn [call_listeners notifications obj]. split; [done|].
    eexists. split; [done|]. by repeat constructor.
Qed.

Lemma apply_op_listeners (w : world) (o : op) :
  (∀ callback, o ≠ OpOnChange callback) →
  listeners (obj w) = [] →
  listeners (obj (apply_op strict_eq w o)) = []
  ∧ ∃ rounds, notifications (apply_op strict_eq w o) = notifications w ++ rounds
              ∧ Forall silent rounds.
Proof.
  intros Ho Hl.
  assert (∀ w' : world,
            listeners (obj w') = listeners (obj w) →
            notifications w' = notifications w →
            listeners (obj w') = []
            ∧ ∃ rounds, notifications w' = notifications w ++ rounds
                        ∧ Forall silent rounds) as Hsame.
  { intros w' H1 H2. split; [congruence|]. exists []. by rewrite app_nil_r. }
  destruct o; cbn [apply_op].
  - apply Hsame.
    + unfold call_update. destruct (update_replaced (obj w)).
      * cbv zeta. cbn [snd obj set_obj].
        apply same_but_data_listeners, replacement_update_same.
      * unfold update, applyMiddleware. destruct (validateProperty _ _ _); [done|].
        cbv zeta. cbn [snd]. rewrite applyMiddleware_from_obj. cbn [obj set_obj].
        apply same_but_data_listeners, read_same.
    + unfold call_update. destruct (update_replaced (obj w)); [done|].
      unfold update, applyMiddleware. destruct (validateProperty _ _ _); [done|].
      cbv zeta. cbn [snd]. by rewrite applyMiddleware_from_enqueue.
  - apply Hsame.
    + apply same_but_data_listeners, updateBatch_same.
    + apply notify_changes_notifications.
  - apply Hsame.
    + unfold undo. destruct (reverse _) as [|lastChange rest]; [done|].
      destruct (assign _ _ _) as [error|st'] eqn:Ha; [done|].
      by apply assign_same in Ha as (?&?&?&?&->).
    + unfold undo. destruct (reverse _) as [|lastChange rest]; [done|].
      by destruct (assign _ _ _).
  - by apply Hsame.
  - apply Hsame.
    + unfold transaction. cbv zeta.
      destruct (cloneDeep_data_spec (obj w)) as [Hc _].
      apply same_but_data_listeners in Hc.
      pose proof (run_fn_same updateFn
                    (set_update_replaced (cloneDeep_data (obj w)).2 true) []) as Hr.
      apply same_but_data_listeners in Hr.
      cbn [listeners set_update_replaced] in Hr.
      destruct (run_fn _ _ _).1.1 as [error|]; [cbn; congruence|].
      match goal with
      | |- context [updateBatch strict_eq ?w' ?us] =>
          pose proof (updateBatch_same w' us) as Hb
      end.
      apply same_but_data_listeners in Hb. cbn [obj set_obj listeners
                                                  set_update_replaced] in Hb.
      destruct (updateBatch _ _ _).1 as [error|]; cbn [snd obj set_obj rollback
        listeners set_accessors set_data]; congruence.
    + unfold transaction. cbv zeta.
      destruct (run_fn _ _ _).1.1 as [error|]; [done|].
      match goal with
      | |- context [updateBatch strict_eq ?w' ?us] =>
          pose proof (notify_changes_notifications w'
                        (updateBatch_loop strict_eq us (obj w') [])) as Hb
      end.
      fold (updateBatch strict_eq) in Hb. unfold updateBatch in *.
      destruct (notify_changes _ _).1 as [error|]; cbn [snd notifications set_obj];
        by rewrite Hb.
  - by apply Hsame.
  - by apply Hsame.
  - by destruct (Ho callback).
  - apply Hsame.
    + apply same_but_data_listeners, proxy_set_same.
    + unfold proxy_set. cbv zeta. destruct (negb _); [|done].
      by destruct (assign _ _ _).
  - apply Hsame.
    + apply same_but_data_listeners, reset_same.
    + apply notify_changes_notifications.
  - by apply Hsame.
  - destruct (step_listeners w) as (Hl' & rounds & Hn & Hr).
    split; [congruence|]. exists rounds. split; [done|].
    eapply Forall_impl; [done|]. intros r Hrl. unfold silent. congruence.
Qed.

(** X22.  After [destroy()], whatever is still queued and whatever is called
    next, no listener is called until [onChange] registers one: every
    listener round that runs is empty. *)
Theorem destroy_silences_listeners (w : world) (ops : list op) :
  Forall (fun o => ∀ callback, o ≠ OpOnChange callback) ops →
  let w' := run strict_eq ops (set_obj w (destroy (obj w))) in
  listeners (obj w') = []
  ∧ ∃ rounds, notifications w' = notifications w ++ rounds ∧ Forall silent rounds.
Proof.
  intros Hops. cbv zeta.
  assert (∀ w1 : world,
            listeners (obj w1) = [] →
            listeners (obj (run strict_eq ops w1)) = []
            ∧ ∃ rounds, notifications (run strict_eq ops w1)
                        = notifications w1 ++ rounds
                        ∧ Forall silent rounds) as H.
  { induction Hops as [|o ops Ho _ IH]; intros w1 Hl.
    - split; [done|]. exists []. by rewrite app_nil_r.
    - cbn [run foldl]. destruct (apply_op_listeners w1 o Ho Hl) as (Hl1 & r1 & Hn1 & Hs1).
      destruct (IH _ Hl1) as (Hl2 & r2 & Hn2 & Hs2).
      split; [done|]. exists (r1 ++ r2). unfold run in *.
      rewrite Hn2, Hn1, <- app_assoc. split; [done|]. by apply Forall_app. }
  apply (H (set_obj w (destroy (obj w)))). done.
Qed.


(** *** Writes through the proxy *)

(** X20.  A computed property whose function reads key [k] through the proxy,
    read for the first time and so cached; then a value that differs from
    the present one is assigned to the data property [k] through the
    proxy.  The value is written at once, without validation, middleware
    or history entry; one notification of the change is queued; and the
    cached value is dropped in the same call, so the next read of the
    computed property gives what its function returns on the data of
    now. *)
Theorem proxy_write_is_seen_at_once (w0 : world) (name : string) (f : cfn)
  (k : string) (v : value) :
  accessors (obj w0) !! name = Some f →
  name ≠ "" →
  computedCache (obj w0) !! name = None →
  data_property (obj w0) k →
  k ∈ proxy_keys f (data (obj w0)) →
  strict_eq (get (data (obj w0)) k) v = false →
  let w1 := set_obj w0 (read (obj w0) name).2 in
  let r := proxy_set strict_eq w1 k v in
  r.1 = None
  ∧ data (obj r.2) = <[k := v]> (data (obj w0))
  ∧ history (obj r.2) = history (obj w0)
  ∧ queue r.2 = queue w0 ++ [JNotify [Change k v (get (data (obj w0)) k)]]
  ∧ (read (obj r.2) name).1 = (run_cfn f (obj r.2)).1.
Proof.
  intros Hf Hne Hc Hk Hin Hneq. cbv zeta.
  set (st1 := (read (obj w0) name).2).
  assert (st1 = (getter (obj w0) name f).2) as Hst1
    by (unfold st1, read; by rewrite Hf).
  destruct (getter_tracks (obj w0) name f Hne Hc) as [Htr _].
  pose proof (getter_same (obj w0) name f) as Hsame.
  pose proof (getter_data (obj w0) name f) as Hd1.
  rewrite <- Hst1 in Htr, Hsame, Hd1.
  destruct Hsame as (d' & c' & dp' & cc' & Hsame).
  assert (accessors st1 = accessors (obj w0)) as Ha1 by by rewrite Hsame.
  assert (history st1 = history (obj w0)) as Hh1 by by rewrite Hsame.
  assert (data_property st1 k) as Hk1.
  { unfold data_property. by rewrite Ha1. }
  unfold proxy_set. cbv zeta. cbn [obj set_obj].
  rewrite (read_data_property st1 k Hk1). cbn [fst snd].
  rewrite Hd1, Hneq. cbn [negb].
  rewrite (assign_data_property st1 k v Hk1).
  cbn [fst snd obj set_obj notifyListeners enqueue queue].
  set (st2 := set_data st1 (<[k := v]> (data st1))).
  assert (k ∈ deps st2 name) as Hdep by by apply Htr.
  pose proof (invalidate_cache st2 k name Hdep) as Hnone.
  split_and!.
  - done.
  - unfold invalidateComputedProperties, st2. cbn. by rewrite Hd1.
  - unfold invalidateComputedProperties, st2. cbn. done.
  - done.
  - unfold read.
    assert (accessors (invalidateComputedProperties st2 k) = accessors (obj w0))
      as -> by (unfold invalidateComputedProperties, st2; cbn; done).
    rewrite Hf, getter_eq, Hnone. cbv zeta. cbn [fst].
    by apply run_cfn_value.
Qed.

(** *** [update] of a computed property *)

(** X15.  [update(name, v)] on a computed property that no rule rejects, with no
    middleware and nothing queued.  The old value is read through the
    getter; when the promise of [applyMiddleware] has resolved, the history
    entry is pushed and then the assignment throws, since the property has
    no setter: nothing is written, nothing is batched, no flush is
    scheduled and no listener is called, yet the history holds the entry.
    [undo()] then pops that entry and throws in turn. *)
Theorem update_of_computed_is_recorded (w0 : world) (name : string) (f : cfn)
  (v : value) :
  queue w0 = [] →
  accessors (obj w0) !! name = Some f →
  validateProperty (obj w0) name v = None →
  middleware (obj w0) = [] →
  let old := (read (obj w0) name).1 in
  let r := update w0 name v in
  let w2 := step r.2 in
  r.1 = None
  ∧ history (obj w2)
    = history (push_history (obj w0) (Entry name (cloneDeep old) (cloneDeep v)))
  ∧ data (obj w2) = data (obj w0)
  ∧ batchedUpdates (obj w2) = batchedUpdates (obj w0)
  ∧ queue w2 = []
  ∧ notifications w2 = notifications w0
  ∧ (undo w2).1 = inl (CannotSet name)
  ∧ history (obj (undo w2).2)
    = (if maxHistorySize (obj w0) <=? length (history (obj w0))
       then tail (history (obj w0)) else history (obj w0)).
Proof.
  intros Hq Hf Hv Hm. cbv zeta.
  unfold update. rewrite Hv. cbv zeta. cbn [fst snd].
  set (st1 := (read (obj w0) name).2).
  set (old := (read (obj w0) name).1).
  pose proof (read_same (obj w0) name) as Hsame. fold st1 in Hsame.
  assert (data st1 = data (obj w0)) as Hd1.
  { unfold st1, read. rewrite Hf. apply getter_data. }
  destruct Hsame as (d' & c' & dp' & cc' & Hsame).
  assert (accessors st1 = accessors (obj w0)) as Ha1 by by rewrite Hsame.
  assert (history st1 = history (obj w0)) as Hh1 by by rewrite Hsame.
  assert (maxHistorySize st1 = maxHistorySize (obj w0)) as Hx1 by by rewrite Hsame.
  assert (batchedUpdates st1 = batchedUpdates (obj w0)) as Hb1 by by rewrite Hsame.
  assert (middleware st1 = []) as Hm1 by by rewrite Hsame.
  unfold applyMiddleware, applyMiddleware_from. cbn [obj set_obj].
  rewrite Hm1. cbn [lookup list_lookup].
  assert (step (enqueue (set_obj w0 st1) (JUpdate name v old))
          = update_resume (World st1 [] (notifications w0)) name v old) as ->.
  { unfold step, enqueue, set_obj. cbn [queue obj notifications].
    by rewrite Hq. }
  unfold update_resume. cbv zeta. cbn [obj].
  set (e := Entry name (cloneDeep old) (cloneDeep v)).
  assert (assign (push_history st1 e) name v = inl (CannotSet name)) as Has.
  { unfold assign, push_history. cbn. by rewrite Ha1, Hf. }
  rewrite Has. cbn [set_obj obj queue notifications].
  assert (history (push_history st1 e)
          = (if maxHistorySize (obj w0) <=? length (history (obj w0))
             then tail (history (obj w0)) else history (obj w0)) ++ [e]) as Hh.
  { unfold push_history. cbn. by rewrite Hx1, Hh1. }
  split_and!.
  - done.
  - rewrite Hh. unfold push_history. by cbn.
  - unfold push_history. cbn. exact Hd1.
  - unfold push_history. cbn. exact Hb1.
  - done.
  - done.
  - unfold undo. cbn [obj set_obj]. rewrite Hh, reverse_snoc.
    unfold assign. cbn. by rewrite Ha1, Hf.
  - unfold undo. cbn [obj set_obj]. rewrite Hh, reverse_snoc.
    unfold assign. cbn. rewrite Ha1, Hf. cbn. by rewrite reverse_involutive.
Qed.
End WithValues.

End ReactiveProofs.
Module ExampleProofs.

Import Value Reactive Examples.

Local Open Scope Z_scope.

(** On that input the interpolation is scanned as LEFT_BRACE, IDENTIFIER,
    RIGHT_BRACE. *)
Lemma tokenize_template_example :
  Lexer.tokenize (fun s => s) 32 template_example = Some template_example_tokens.
Proof. reflexivity. Qed.

Lemma tokenize_never_interpolation_witness :
  Forall (fun t => Lexer.type t ≠ Lexer.INTERPOLATION) template_example_tokens.
Proof.
  apply (LexerProofs.tokenize_never_interpolation (fun s => s) 32 template_example).
  reflexivity.
Defined.


Lemma parseStateBlock_state_example (fuel : nat) :
  Lexer.tokenize (fun s => s) 32 "state { count: 0 }" = Some state_example_tokens
  ∧ Parser.parseStateBlock (fun s => s) fuel (Parser.MkParser state_example_tokens 0)
    = Parser.Throw (Parser.Expected "Expected { after state" Lexer.IDENTIFIER) 1.
Proof. split; reflexivity. Qed.

(** A source that is only a header parses, and compiling its AST throws;
    with a state block added, [parse] throws: the keyword [state] has been
    scanned as STATE_BLOCK and IDENTIFIER. *)
Lemma parse_then_compile_examples (c : Compiler.compiler) :
  parse_text 64 header_only
  = Parser.Ok (Ast.MkAst (Some "Counter") None [] [] None)
  ∧ (Compiler.compile c (Ast.MkAst (number:=string) (Some "Counter") None [] [] None)).1
    = inl (Compiler.CompilationFailed
             (Compiler.NotAFunction "this.sanitizeComponentName"))
  ∧ parse_text 64 header_and_state
    = Parser.Throw
        (Parser.ParseError
           (Parser.Expected "Expected { after state" Lexer.IDENTIFIER) 1) 2.
Proof. repeat split; reflexivity. Qed.

(** C2 (code defect).  The scenario of the repository's test "should
    support computed properties": [sum] is 15 at first; right after the
    call [update('a', 20)], where the test reads it, [sum] is 15; and
    after the microtasks of the update and the flush, [a] is 20 and
    nothing is queued, yet reading [sum] still gives the cached 15, where
    a recomputation gives 30.  The reads [state.data.a] and [state.data.b]
    do not pass through the proxy, so no dependency was recorded and the
    flush invalidates nothing. *)
Theorem computed_sum_is_stale :
  (read (sum_state false) "sum").1 = VNum 15
  ∧ (read (obj (update (World (read (sum_state false) "sum").2 [] []) "a"
                  (VNum 20)).2) "sum").1 = VNum 15
  ∧ queue (sum_after_update false) = []
  ∧ get (data (obj (sum_after_update false))) "a" = VNum 20
  ∧ dependencies (obj (sum_after_update false)) !! "sum" = None
  ∧ (read (obj (sum_after_update false)) "sum").1 = VNum 15
  ∧ (run_cfn (sum_fn false) (obj (sum_after_update false))).1 = VNum 30.
Proof. repeat split; by vm_compute. Qed.

(** With reads through the proxy the same steps end with the fresh value. *)
Lemma computed_sum_through_proxy :
  (read (obj (sum_after_update true)) "sum").1 = VNum 30.
Proof. by vm_compute. Qed.



(** A transaction that throws on a state with a computed property: the
    property reads as before, and is a data property from then on. *)
Lemma rollback_freezes_computed :
  let w := World (sum_state false) [] [] in
  let r := transaction strict_eq_Z w
             [TAssign "a" (VNum 7); TThrow (Raised "boom")] in
  r.1 = Some (Raised "boom")
  ∧ (read (obj r.2) "a").1 = VNum 5
  ∧ (read (obj r.2) "sum").1 = VNum 15
  ∧ accessors (obj r.2) = ∅.
Proof. repeat split; by vm_compute. Qed.


(** C6, as stated, fails.  Two calls of [updateBatch] in one turn lead to
    two listener rounds.  And [update('a', 1)] followed in the same turn by
    [updateBatch({a: 2})] leads to two rounds as well, after which [a] is
    1: the write issued first has won. *)
Lemma updateBatch_does_not_coalesce :
  (let w := steps 2
              (updateBatch strict_eq_Z
                 (updateBatch strict_eq_Z counter_world [("a", VNum 1)]).2
                 [("b", VNum 2)]).2 in
   queue w = [] ∧ length (notifications w) = 2%nat)
  ∧ (let w := steps 3
                (updateBatch strict_eq_Z
                   (update counter_world "a" (VNum 1)).2 [("a", VNum 2)]).2 in
     queue w = [] ∧ length (notifications w) = 2%nat
     ∧ get (data (obj w)) "a" = VNum 1).
Proof. repeat split; by vm_compute. Qed.

Lemma updates_of_one_turn_coalesce_witness :
  queue counter_world = []
  ∧ batchedUpdates (obj counter_world) = []
  ∧ updateScheduled (obj counter_world) = false
  ∧ Forall (fun u => data_property (obj counter_world) u.1)
      [("a", VNum 1); ("a", VNum 2)]
  ∧ applied (obj counter_world) [("a", VNum 1); ("a", VNum 2)] ≠ []
  ∧ (∃ n, ∀ m, (n ≤ m)%nat →
       let w2 := steps m
                   (foldl (fun w u => (update w u.1 u.2).2) counter_world
                      [("a", VNum 1); ("a", VNum 2)]) in
       let cs := applied (obj counter_world)
                   [("a", VNum 1); ("a", VNum 2)] in
       queue w2 = []
       ∧ notifications w2
         = notifications counter_world
           ++ [Notification (listeners (obj counter_world)) (data (obj w2)) cs]
       ∧ data (obj w2)
         = foldl (fun d c => <[c_property c := c_value c]> d)
             (data (obj counter_world)) cs
       ∧ history (obj w2)
         = foldl (push_entry (maxHistorySize (obj counter_world)))
             (history (obj counter_world)) (entry_of <$> cs))
  ∧ (∀ w updates,
       let w' := (updateBatch strict_eq_Z w updates).2 in
       batchedUpdates (obj w') = batchedUpdates (obj w)
       ∧ updateScheduled (obj w') = updateScheduled (obj w)
       ∧ notifications w' = notifications w
       ∧ (queue w' = queue w
          ∨ ∃ changed, changed ≠ [] ∧ queue w' = queue w ++ [JNotify changed])).
Proof.
  assert (Forall (fun u : string * value Z => data_property (obj counter_world) u.1)
            [("a", VNum 1); ("a", VNum 2)]) as Hk by by repeat constructor.
  assert (applied (obj counter_world) [("a", VNum 1); ("a", VNum 2)] ≠ []) as Ha
    by by vm_compute.
  split; [reflexivity|]. split; [reflexivity|]. split; [reflexivity|].
  split; [exact Hk|]. split; [exact Ha|].
  exact (ReactiveProofs.updates_of_one_turn_coalesce strict_eq_Z counter_world
           [("a", VNum 1); ("a", VNum 2)] eq_refl eq_refl eq_refl Hk Ha).
Defined.

(** *** Instances of the further properties *)

Lemma strict_eq_Z_sound (a b : value Z) : strict_eq_Z a b = true → a = b.
Proof.
  destruct a, b; cbn; try done.
  - intros H. f_equal. by apply Bool.eqb_prop.
  - intros H%Z.eqb_eq. by subst.
  - intros H%String.eqb_eq. by subst.
Qed.

Lemma rejected_updates_leave_no_trace_witness :
  queue locked_world = []
  ∧ batchedUpdates (obj locked_world) = []
  ∧ updateScheduled (obj locked_world) = false
  ∧ Forall (fun u => data_property (obj locked_world) u.1)
      [("a", VNum 1); ("a", VNum 2)]
  ∧ applied (obj locked_world) [("a", VNum 1); ("a", VNum 2)] = []
  ∧ ∃ n, ∀ m, (n ≤ m)%nat →
      steps m (foldl (fun w u => (update w u.1 u.2).2) locked_world
                 [("a", VNum 1); ("a", VNum 2)])
      = locked_world.
Proof.
  assert (Forall (fun u : string * value Z => data_property (obj locked_world) u.1)
            [("a", VNum 1); ("a", VNum 2)]) as Hk by by repeat constructor.
  split; [reflexivity|]. split; [reflexivity|]. split; [reflexivity|].
  split; [exact Hk|]. split; [reflexivity|].
  exact (ReactiveProofs.rejected_updates_leave_no_trace locked_world
           [("a", VNum 1); ("a", VNum 2)] eq_refl eq_refl eq_refl Hk eq_refl).
Defined.


Lemma updateBatch_writes_unchecked_witness :
  (∀ a b, strict_eq_Z a b = true → a = b)
  ∧ Forall (fun u => data_property (obj age_world) u.1) [("age", VNum 200)]
  ∧ NoDup [("age", VNum 200)].*1
  ∧ (let r := updateBatch strict_eq_Z age_world [("age", VNum 200)] in
     r.1 = None
     ∧ (∀ k v, (k, v) ∈ [("age", VNum 200)] → get (data (obj r.2)) k = v)
     ∧ (∀ k, k ∉ [("age", VNum 200)].*1 → data (obj r.2) !! k = data (obj age_world) !! k)
     ∧ history (obj r.2) = history (obj age_world)
     ∧ batchedUpdates (obj r.2) = batchedUpdates (obj age_world)
     ∧ validation (obj r.2) = validation (obj age_world)).
Proof.
  assert (Forall (fun u : string * value Z => data_property (obj age_world) u.1)
            [("age", VNum 200)]) as Hk by by repeat constructor.
  assert (NoDup [("age", @VNum Z 200)].*1) as Hnd by (by apply NoDup_singleton).
  split; [exact strict_eq_Z_sound|]. split; [exact Hk|]. split; [exact Hnd|].
  exact (ReactiveProofs.updateBatch_writes_unchecked strict_eq_Z age_world
           [("age", VNum 200)] strict_eq_Z_sound Hk Hnd).
Defined.

Lemma reset_restores_initial_values_witness :
  (∀ a b, strict_eq_Z a b = true → a = b)
  ∧ Forall (fun u => data_property (obj counter_world) u.1)
      (initialState (obj counter_world))
  ∧ NoDup (initialState (obj counter_world)).*1
  ∧ (let r := reset strict_eq_Z counter_world in
     r.1 = None
     ∧ (∀ k v, (k, v) ∈ initialState (obj counter_world) → get (data (obj r.2)) k = v)
     ∧ (∀ k, k ∉ (initialState (obj counter_world)).*1 →
             data (obj r.2) !! k = data (obj counter_world) !! k)
     ∧ history (obj r.2) = history (obj counter_world)
     ∧ initialState (obj r.2) = initialState (obj counter_world)).
Proof.
  assert (Forall (fun u : string * value Z => data_property (obj counter_world) u.1)
            (initialState (obj counter_world))) as Hk by by repeat constructor.
  assert (NoDup (initialState (obj counter_world)).*1) as Hnd.
  { apply (bool_decide_unpack _). by vm_compute. }
  split; [exact strict_eq_Z_sound|]. split; [exact Hk|]. split; [exact Hnd|].
  exact (ReactiveProofs.reset_restores_initial_values strict_eq_Z counter_world
           strict_eq_Z_sound Hk Hnd).
Defined.

Lemma undo_reverts_update_witness :
  queue counter_world = []
  ∧ batchedUpdates (obj counter_world) = []
  ∧ updateScheduled (obj counter_world) = false
  ∧ data_property (obj counter_world) "a"
  ∧ applied (obj counter_world) [("a", VNum 1)] = [Change "a" (VNum 1) (VNum 0)]
  ∧ ∃ n, ∀ m, (n ≤ m)%nat →
      let r := undo (steps m (update counter_world "a" (VNum 1)).2) in
      r.1 = inr true
      ∧ (∀ k, get (data (obj r.2)) k = get (data (obj counter_world)) k)
      ∧ history (obj r.2)
        = (if (maxHistorySize (obj counter_world)
               <=? length (history (obj counter_world)))%nat
           then tail (history (obj counter_world))
           else history (obj counter_world))
      ∧ queue r.2
        = [JNotify [Change "a" (c_oldValue (Change "a" (VNum 1) (VNum 0)))
                      (c_value (Change "a" (VNum 1) (VNum 0)))]].
Proof.
  split; [reflexivity|]. split; [reflexivity|]. split; [reflexivity|].
  split; [reflexivity|]. split; [reflexivity|].
  exact (ReactiveProofs.undo_reverts_update counter_world "a" (VNum 1)
           (Change "a" (VNum 1) (VNum 0)) eq_refl eq_refl eq_refl eq_refl eq_refl).
Defined.

Lemma transaction_of_updates_is_silent_witness :
  Forall (updates_data strict_eq_Z (obj counter_world))
    [TUpdate "a" (VNum 7); TUpdate "a" (VNum 8)]
  ∧ (let r := transaction strict_eq_Z counter_world
                [TUpdate "a" (VNum 7); TUpdate "a" (VNum 8)] in
     r.1 = None
     ∧ data (obj r.2)
       = foldl (fun d u => <[u.1 := u.2]> d) (data (obj counter_world))
           (captured_writes [TUpdate "a" (VNum 7); TUpdate "a" (VNum 8)])
     ∧ queue r.2 = queue counter_world
     ∧ notifications r.2 = notifications counter_world
     ∧ history (obj r.2) = history (obj counter_world)
     ∧ batchedUpdates (obj r.2) = batchedUpdates (obj counter_world)
     ∧ update_replaced (obj r.2) = update_replaced (obj counter_world)).
Proof.
  assert (Forall (updates_data strict_eq_Z (obj counter_world))
            [TUpdate "a" (VNum 7); TUpdate "a" (VNum 8)]) as H
    by by repeat constructor.
  split; [exact H|].
  exact (ReactiveProofs.transaction_of_updates_is_silent strict_eq_Z counter_world
           [TUpdate "a" (VNum 7); TUpdate "a" (VNum 8)] H).
Defined.

Lemma writes_leave_cache_stale_witness :
  keeps_cache (@OpUpdateBatch Z [("a", VNum 20)])
  ∧ accessors (obj (sum_cached false)) !! "sum" = Some (sum_fn false)
  ∧ computedCache (obj (sum_cached false)) !! "sum" = Some (VNum 15)
  ∧ computedCache
      (obj (apply_op strict_eq_Z (sum_cached false) (OpUpdateBatch [("a", VNum 20)])))
    !! "sum" = Some (VNum 15)
  ∧ (read (obj (apply_op strict_eq_Z (sum_cached false)
                  (OpUpdateBatch [("a", VNum 20)]))) "sum").1 = VNum 15.
Proof.
  split; [exact I|]. split; [reflexivity|]. split; [reflexivity|].
  exact (ReactiveProofs.writes_leave_cache_stale strict_eq_Z (sum_cached false)
           (OpUpdateBatch [("a", VNum 20)]) "sum" (sum_fn false) (VNum 15)
           I eq_refl eq_refl).
Defined.

Lemma dependencies_only_grow_witness :
  @OpUndo Z ≠ OpDestroy
  ∧ "a" ∈ deps (obj (sum_cached true)) "sum"
  ∧ "a" ∈ deps (obj (apply_op strict_eq_Z (sum_cached true) OpUndo)) "sum".
Proof.
  assert (@OpUndo Z ≠ OpDestroy) as Ho by done.
  assert ("a" ∈ deps (obj (sum_cached true)) "sum") as Hk.
  { apply (bool_decide_unpack _). by vm_compute. }
  split; [exact Ho|]. split; [exact Hk|].
  exact (ReactiveProofs.dependencies_only_grow strict_eq_Z (sum_cached true) OpUndo
           "sum" "a" Ho Hk).
Defined.

Lemma computed_is_fresh_through_proxy_witness :
  let w0 := World (sum_state true) [] [] in
  queue w0 = []
  ∧ batchedUpdates (obj w0) = []
  ∧ updateScheduled (obj w0) = false
  ∧ accessors (obj w0) !! "sum" = Some (sum_fn true)
  ∧ "sum" ≠ ""
  ∧ computedCache (obj w0) !! "sum" = None
  ∧ data_property (obj w0) "a"
  ∧ "a" ∈ proxy_keys (sum_fn true) (data (obj w0))
  ∧ applied (obj w0) [("a", VNum 20)] = [Change "a" (VNum 20) (VNum 5)]
  ∧ (let w1 := set_obj w0 (read (obj w0) "sum").2 in
     ∃ n, ∀ m, (n ≤ m)%nat →
       let w2 := steps m (update w1 "a" (VNum 20)).2 in
       data (obj w2) = <["a" := c_value (Change "a" (VNum 20) (VNum 5))]> (data (obj w0))
       ∧ (read (obj w2) "sum").1 = (run_cfn (sum_fn true) (obj w2)).1).
Proof.
  cbv zeta.
  assert ("sum" ≠ "") as Hne by done.
  assert ("a" ∈ proxy_keys (sum_fn true) (data (obj (World (sum_state true) [] []))))
    as Hin by by left.
  split; [reflexivity|]. split; [reflexivity|]. split; [reflexivity|].
  split; [reflexivity|]. split; [exact Hne|]. split; [reflexivity|].
  split; [reflexivity|]. split; [exact Hin|]. split; [reflexivity|].
  exact (ReactiveProofs.computed_is_fresh_through_proxy
           (World (sum_state true) [] []) "sum" (sum_fn true) "a" (VNum 20)
           (Change "a" (VNum 20) (VNum 5))
           eq_refl eq_refl eq_refl eq_refl Hne eq_refl eq_refl Hin eq_refl).
Defined.

Lemma watcher_sees_first_change_witness :
  queue counter_world = []
  ∧ batchedUpdates (obj counter_world) = []
  ∧ updateScheduled (obj counter_world) = false
  ∧ Forall (fun u => data_property (obj counter_world) u.1)
      [("a", VNum 1); ("a", VNum 2)]
  ∧ List.find (fun c => String.eqb (c_property c) "a")
      (applied (obj counter_world) [("a", VNum 1); ("a", VNum 2)])
    = Some (Change "a" (VNum 1) (VNum 0))
  ∧ last_change "a" (applied (obj counter_world) [("a", VNum 1); ("a", VNum 2)])
    = Some (Change "a" (VNum 2) (VNum 0))
  ∧ ∃ n, ∀ m, (n ≤ m)%nat →
      let w2 := steps m (foldl (fun w u => (update w u.1 u.2).2) counter_world
                           [("a", VNum 1); ("a", VNum 2)]) in
      ∃ round,
        notifications w2 = notifications counter_world ++ [round]
        ∧ watch_listener "a" (n_changes round)
          = Some (c_value (Change "a" (VNum 1) (VNum 0)),
                  c_oldValue (Change "a" (VNum 1) (VNum 0)))
        ∧ get (data (obj w2)) "a" = c_value (Change "a" (VNum 2) (VNum 0)).
Proof.
  assert (Forall (fun u : string * value Z => data_property (obj counter_world) u.1)
            [("a", VNum 1); ("a", VNum 2)]) as Hk by by repeat constructor.
  split; [reflexivity|]. split; [reflexivity|]. split; [reflexivity|].
  split; [exact Hk|]. split; [reflexivity|]. split; [reflexivity|].
  exact (ReactiveProofs.watcher_sees_first_change counter_world
           [("a", VNum 1); ("a", VNum 2)] "a"
           (Change "a" (VNum 1) (VNum 0)) (Change "a" (VNum 2) (VNum 0))
           eq_refl eq_refl eq_refl Hk eq_refl eq_refl).
Defined.

Lemma destroy_silences_listeners_witness :
  Forall (fun o => ∀ callback, o ≠ OpOnChange callback)
    [@OpMicrotask Z; OpMicrotask]
  ∧ (let w := (updateBatch strict_eq_Z counter_world [("a", VNum 1)]).2 in
     let w' := run strict_eq_Z [OpMicrotask; OpMicrotask]
                 (set_obj w (destroy (obj w))) in
     listeners (obj w') = []
     ∧ ∃ rounds, notifications w' = notifications w ++ rounds
                 ∧ Forall silent rounds).
Proof.
  assert (Forall (fun o : op => ∀ callback, o ≠ OpOnChange callback)
            [@OpMicrotask Z; OpMicrotask]) as H by by repeat constructor.
  split; [exact H|].
  exact (ReactiveProofs.destroy_silences_listeners strict_eq_Z
           (updateBatch strict_eq_Z counter_world [("a", VNum 1)]).2
           [OpMicrotask; OpMicrotask] H).
Defined.


Lemma token_lines_ascend_witness :
  Lexer.tokenize (fun s => s) 16 two_lines = Some two_lines_tokens
  ∧ ∃ init,
      two_lines_tokens
      = init ++ [Lexer.Token Lexer.EOF (Lexer.TVString "")
                   (1 + Lexer.line_feeds two_lines)]
      ∧ Forall (fun t => Lexer.type t ≠ Lexer.EOF) init
      ∧ ∀ (i j : nat) t u, (i ≤ j)%nat →
          two_lines_tokens !! i = Some t → two_lines_tokens !! j = Some u →
          (1 ≤ Lexer.line t ≤ Lexer.line u)%nat.
Proof.
  split; [reflexivity|].
  exact (LexerProofs.token_lines_ascend (fun s => s) 16 two_lines
           two_lines_tokens eq_refl).
Defined.

Lemma tokenize_returns_on_plain_text_witness :
  forallb Lexer.plain (list_ascii_of_string "state { count: 0 }") = true
  ∧ (String.length "state { count: 0 }" < 32)%nat
  ∧ ∃ toks : list (@Lexer.token string),
      Lexer.tokenize (fun s => s) 32 "state { count: 0 }" = Some toks.
Proof.
  assert (String.length "state { count: 0 }" < 32)%nat as Hlen by (cbn; lia).
  split; [reflexivity|]. split; [exact Hlen|].
  exact (LexerProofs.tokenize_returns_on_plain_text (fun s => s) 32
           "state { count: 0 }" eq_refl Hlen).
Defined.

Lemma two_character_operator_takes_next_witness :
  let st := @Lexer.MkLexer string "a==b;" 1 [] in
  Lexer.two_characters Lexer.EQUAL = Some ("="%char, "="%char)
  ∧ String.get (Lexer.position st) (Lexer.content st) = Some "="%char
  ∧ String.get (S (Lexer.position st)) (Lexer.content st) = Some "="%char
  ∧ String.get (S (S (Lexer.position st))) (Lexer.content st) = Some "b"%char
  ∧ Lexer.scanToken (fun s => s) 8 st
    = Some (Lexer.MkLexer (Lexer.content st) (Lexer.position st + 3)
              (Lexer.tokens st
                 ++ [Lexer.Token Lexer.EQUAL (Lexer.TVString (Lexer.str1 "b"))
                       (1 + Lexer.count_newlines (Lexer.position st + 3)
                              (Lexer.content st))])).
Proof.
  cbv zeta.
  split; [reflexivity|]. split; [reflexivity|]. split; [reflexivity|].
  split; [reflexivity|].
  exact (LexerProofs.two_character_operator_takes_next (fun s => s) 8
           (Lexer.MkLexer "a==b;" 1 []) Lexer.EQUAL "=" "=" "b"
           eq_refl eq_refl eq_refl eq_refl).
Defined.

Lemma parse_returns_no_block_witness :
  parse_text 64 header_only
  = Parser.Ok (Ast.MkAst (Some "Counter") None [] [] None)
  ∧ Ast.a_style (Ast.MkAst (number:=string) (Some "Counter") None [] [] None) = None
  ∧ Ast.a_state (Ast.MkAst (number:=string) (Some "Counter") None [] [] None) = []
  ∧ Ast.a_props (Ast.MkAst (number:=string) (Some "Counter") None [] [] None) = []
  ∧ Ast.a_template (Ast.MkAst (number:=string) (Some "Counter") None [] [] None)
    = None
  ∧ ∃ toks, Lexer.tokenize (fun s => s) 64 header_only = Some toks
            ∧ Forall (fun t => Lexer.is_block (Lexer.type t) = false) toks.
Proof.
  split; [reflexivity|].
  exact (ParserProofs.parse_returns_no_block (fun s => s) (fun s => s) 64
           header_only (Ast.MkAst (Some "Counter") None [] [] None) eq_refl).
Defined.

Lemma parseTemplate_placeholder_at_index_witness :
  let i := Ast.Interpolation "count" "{ count }" 3 in
  i ∈ Ast.interpolations (Parser.parseTemplate "<p>{ count }</p>")
  ∧ ∃ inner,
      inner ≠ ""
      ∧ (∀ n, String.get n inner ≠ Some "}"%char)
      ∧ Ast.i_placeholder i = "{" +:+ inner +:+ "}"
      ∧ Ast.i_expression i = Js.trim inner
      ∧ String.substring (Ast.i_index i) (String.length (Ast.i_placeholder i))
          "<p>{ count }</p>"
        = Ast.i_placeholder i.
Proof.
  cbv zeta.
  assert (Ast.Interpolation "count" "{ count }" 3
          ∈ Ast.interpolations (Parser.parseTemplate "<p>{ count }</p>")) as Hin.
  { vm_compute. by left. }
  split; [exact Hin|].
  exact (ParserProofs.parseTemplate_placeholder_at_index "<p>{ count }</p>"
           (Ast.Interpolation "count" "{ count }" 3) Hin).
Defined.

Lemma proxy_write_is_seen_at_once_witness :
  let w0 := World (sum_state true) [] [] in
  accessors (obj w0) !! "sum" = Some (sum_fn true)
  ∧ "sum" ≠ ""
  ∧ computedCache (obj w0) !! "sum" = None
  ∧ data_property (obj w0) "a"
  ∧ "a" ∈ proxy_keys (sum_fn true) (data (obj w0))
  ∧ strict_eq_Z (get (data (obj w0)) "a") (VNum 20) = false
  ∧ (let w1 := set_obj w0 (read (obj w0) "sum").2 in
     let r := proxy_set strict_eq_Z w1 "a" (VNum 20) in
     r.1 = None
     ∧ data (obj r.2) = <["a" := VNum 20]> (data (obj w0))
     ∧ history (obj r.2) = history (obj w0)
     ∧ queue r.2
       = queue w0 ++ [JNotify [Change "a" (VNum 20) (get (data (obj w0)) "a")]]
     ∧ (read (obj r.2) "sum").1 = (run_cfn (sum_fn true) (obj r.2)).1).
Proof.
  cbv zeta.
  assert ("sum" ≠ "") as Hne by done.
  assert ("a" ∈ proxy_keys (sum_fn true) (data (obj (World (sum_state true) [] []))))
    as Hin by by left.
  split; [reflexivity|]. split; [exact Hne|]. split; [reflexivity|].
  split; [reflexivity|]. split; [exact Hin|]. split; [reflexivity|].
  exact (ReactiveProofs.proxy_write_is_seen_at_once strict_eq_Z
           (World (sum_state true) [] []) "sum" (sum_fn true) "a" (VNum 20)
           eq_refl Hne eq_refl eq_refl Hin eq_refl).
Defined.

Lemma update_of_computed_is_recorded_witness :
  let w0 := World (sum_state false) [] [] in
  queue w0 = []
  ∧ accessors (obj w0) !! "sum" = Some (sum_fn false)
  ∧ validateProperty (obj w0) "sum" (VNum 1) = None
  ∧ middleware (obj w0) = []
  ∧ (let old := (read (obj w0) "sum").1 in
     let r := update w0 "sum" (VNum 1) in
     let w2 := step r.2 in
     r.1 = None
     ∧ history (obj w2)
       = history (push_history (obj w0)
                    (Entry "sum" (cloneDeep old) (cloneDeep (VNum 1))))
     ∧ data (obj w2) = data (obj w0)
     ∧ batchedUpdates (obj w2) = batchedUpdates (obj w0)
     ∧ queue w2 = []
     ∧ notifications w2 = notifications w0
     ∧ (undo w2).1 = inl (CannotSet "sum")
     ∧ history (obj (undo w2).2)
       = (if (maxHistorySize (obj w0) <=? length (history (obj w0)))%nat
          then tail (history (obj w0)) else history (obj w0))).
Proof.
  cbv zeta.
  split; [reflexivity|]. split; [reflexivity|]. split; [reflexivity|].
  split; [reflexivity|].
  exact (ReactiveProofs.update_of_computed_is_recorded
           (World (sum_state false) [] []) "sum" (sum_fn false) (VNum 1)
           eq_refl eq_refl eq_refl eq_refl).
Defined.

Lemma parse_of_header_witness :
  forallb Parser.header_name_char (list_ascii_of_string "Counter.ezu") = true
  ∧ (String.length (Parser.header_of "Counter.ezu") < 64)%nat
  ∧ parse_text 64 (Parser.header_of "Counter.ezu")
    = Parser.Ok
        (Ast.MkAst (Some (Js.replace_first ".ezu" "" "Counter.ezu")) None [] []
           None).
Proof.
  assert (String.length (Parser.header_of "Counter.ezu") < 64)%nat as Hlen
    by (vm_compute; lia).
  split; [reflexivity|]. split; [exact Hlen|].
  exact (ParserProofs.parse_of_header (fun s => s) (fun s => s) 64 "Counter.ezu"
           eq_refl Hlen).
Defined.

Lemma html_tag_ends_at_first_gt_witness :
  String.get 0 "<a t='x>y'>" = Some "<"%char
  ∧ Js.startsWith (Js.slice "<a t='x>y'>" (0 + 1) (0 + 10)) "component" = false
  ∧ (0 < 7)%nat
  ∧ String.get 7 "<a t='x>y'>" = Some ">"%char
  ∧ Js.includes_char (Js.slice "<a t='x>y'>" (0 + 1) 7) ">" = false
  ∧ (7 - 0 < 16)%nat
  ∧ Lexer.scanToken (fun s => s) 16 (@Lexer.MkLexer string "<a t='x>y'>" 0 [])
    = Some (Lexer.MkLexer "<a t='x>y'>" 8
              ([] ++ [Lexer.Token Lexer.HTML_TAG
                        (Lexer.TVString (String.substring 0 (8 - 0) "<a t='x>y'>"))
                        (1 + Lexer.count_newlines 8 "<a t='x>y'>")])).
Proof.
  assert (0 < 7)%nat as H1 by lia.
  assert (7 - 0 < 16)%nat as H2 by (cbn; lia).
  split; [reflexivity|]. split; [reflexivity|]. split; [exact H1|].
  split; [reflexivity|]. split; [reflexivity|]. split; [exact H2|].
  exact (LexerProofs.html_tag_ends_at_first_gt (fun s => s) 16 "<a t='x>y'>"
           0 7 [] eq_refl eq_refl H1 eq_refl eq_refl H2).
Defined.

End ExampleProofs.
